(** * ChordMaster-AI: the audio synthesis engine

    A shallow embedding of the two variants of the [AudioEngine] class,
    [src/services/audioEngine.ts] (module [Engine]) and
    [src/unnamed/part_001] (module [Legacy]), over a trace model of the
    Web Audio API.

    Conventions.
    - A JavaScript [number] is idealised as a real number: IEEE-754
      rounding, overflow and NaN are not modelled.
    - A Web Audio object is a node identifier; every API call the engine
      makes is appended to the context's [calls], in program order.
    - The closures stored in [activeNodes] are defunctionalised: a handle
      records the nodes the closure captured, and [invokeStop] /
      [invokeRelease] run its body.
    - Failures of the platform ([new AudioContext()] throwing, node limits)
      are outside the model, as they are outside the engine. *)

From Stdlib Require Import Reals Lra Lia ZArith NArith List Bool Arith.
From Stdlib Require String Ascii DecimalString.
From Stdlib Require PrimFloat FloatOps SpecFloat Uint63.
From Stdlib Require Import Permutation Sorted.
Import String.StringSyntax.
Import ListNotations.
Delimit Scope string_scope with string.
Bind Scope string_scope with String.string.
Open Scope R_scope.

(** ** [src/types.ts] *)

Inductive InstrumentType := Piano | Guitar | Violin.

Inductive PianoTimbre := Grand | Electric | HonkyTonk.

(** ** The Web Audio API, as a trace of calls *)

Module WebAudio.

Definition NodeId := nat.

Inductive OscillatorType := sine | triangle | sawtooth.

Inductive BiquadFilterType := lowpass | bandpass.

(** The [AudioParam]s the engine touches: [node.gain], [node.frequency],
    [node.detune], [node.Q]. *)
Inductive AudioParam :=
| gain (n : NodeId)
| frequency (n : NodeId)
| detune (n : NodeId)
| Q (n : NodeId).

(** What [connect] can be given: a node, a parameter, or [ctx.destination]. *)
Inductive Sink :=
| node (n : NodeId)
| param (p : AudioParam)
| destination.

(** A stereo [AudioBuffer]: its rate and the two [Float32Array] channels. *)
Record AudioBuffer := {
  bufferRate : positive;
  left : list R;
  right : list R
}.

Inductive Call :=
| CreateGain (n : NodeId)
| CreateOscillator (n : NodeId)
| CreateBiquadFilter (n : NodeId)
| CreateConvolver (n : NodeId)
| SetOscillatorType (n : NodeId) (ty : OscillatorType)
| SetFilterType (n : NodeId) (ty : BiquadFilterType)
| SetBuffer (n : NodeId) (b : AudioBuffer)
| SetValue (p : AudioParam) (v : R)                      (* p.value = v *)
| SetValueAtTime (p : AudioParam) (v : R) (t : R)
| HoldValueAtTime (p : AudioParam) (t : R)               (* p.setValueAtTime(p.value, t) *)
| LinearRampToValueAtTime (p : AudioParam) (v : R) (t : R)
| ExponentialRampToValueAtTime (p : AudioParam) (v : R) (t : R)
| CancelScheduledValues (p : AudioParam) (t : R)
| Connect (src : NodeId) (dst : Sink)
| Disconnect (src : NodeId)
| Start (n : NodeId) (t : R)
| Stop (n : NodeId) (t : R)
| Resume.

Inductive ContextState := suspended | running.

Record AudioContext := {
  currentTime : R;           (* the audio clock, in seconds *)
  state : ContextState;
  sampleRate : positive;     (* frames per second *)
  fresh : NodeId;            (* the next node to be created *)
  calls : list Call          (* every call made so far, oldest first *)
}.

(** What the page's platform gives a new context. *)
Record Platform := {
  hwRate : positive;
  hwState : ContextState
}.

Definition newAudioContext (p : Platform) : AudioContext :=
  {| currentTime := 0; state := hwState p; sampleRate := hwRate p;
     fresh := 0%nat; calls := [] |}.

(** Code that drives one context. *)
Definition Audio (A : Type) : Type := AudioContext -> A * AudioContext.

Definition ret {A} (a : A) : Audio A := fun k => (a, k).

Definition bind {A B} (m : Audio A) (f : A -> Audio B) : Audio B :=
  fun k => let (a, k') := m k in f a k'.

Definition exec {A} (m : Audio A) (k : AudioContext) : AudioContext := snd (m k).

Definition emit (c : Call) : Audio unit :=
  fun k => (tt, {| currentTime := currentTime k; state := state k;
                   sampleRate := sampleRate k; fresh := fresh k;
                   calls := calls k ++ [c] |}).

Definition create (mk : NodeId -> Call) : Audio NodeId :=
  fun k => (fresh k, {| currentTime := currentTime k; state := state k;
                        sampleRate := sampleRate k; fresh := S (fresh k);
                        calls := calls k ++ [mk (fresh k)] |}).

Definition createGain : Audio NodeId := create CreateGain.
Definition createOscillator : Audio NodeId := create CreateOscillator.
Definition createBiquadFilter : Audio NodeId := create CreateBiquadFilter.
Definition createConvolver : Audio NodeId := create CreateConvolver.

(** [ctx.resume()]: the context runs from now on. *)
Definition resume : Audio unit :=
  fun k => (tt, {| currentTime := currentTime k; state := running;
                   sampleRate := sampleRate k; fresh := fresh k;
                   calls := calls k ++ [Resume] |}).

(** The audio clock moves on by [dt] seconds, when the context runs. *)
Definition tick (dt : R) (k : AudioContext) : AudioContext :=
  match state k with
  | running => {| currentTime := currentTime k + dt; state := running;
                  sampleRate := sampleRate k; fresh := fresh k;
                  calls := calls k |}
  | suspended => k
  end.

End WebAudio.

Import WebAudio.

Declare Scope audio_scope.
Delimit Scope audio_scope with audio.
Notation "x <- m ;; f" := (bind m (fun x => f))
  (at level 61, m at next level, right associativity) : audio_scope.
Notation "m ;; f" := (bind m (fun _ => f))
  (at level 61, right associativity) : audio_scope.

(** The closures of an [activeNodes] entry, by what they captured. *)
Inductive StopFn :=
| StopOscillators (oscs : list NodeId).      (* (t) => each osc.stop(t) *)

Inductive ReleaseFn :=
| ReleaseNothing                              (* () => {} *)
| ReleaseFade (g : NodeId) (oscs : list NodeId).
    (* (t) => the release envelope on g.gain, then each osc.stop(t + 0.35) *)

Record ActiveNode := {
  stop : StopFn;
  release : ReleaseFn
}.

Open Scope audio_scope.

Fixpoint stopAll (oscs : list NodeId) (t : R) : Audio unit :=
  match oscs with
  | [] => ret tt
  | o :: rest => emit (Stop o t) ;; stopAll rest t
  end.

Definition invokeStop (f : StopFn) (t : R) : Audio unit :=
  match f with
  | StopOscillators oscs => stopAll oscs t
  end.

Definition invokeRelease (f : ReleaseFn) (t : R) : Audio unit :=
  match f with
  | ReleaseNothing => ret tt
  | ReleaseFade g oscs =>
      emit (CancelScheduledValues (gain g) t) ;;
      emit (HoldValueAtTime (gain g) t) ;;
      emit (ExponentialRampToValueAtTime (gain g) 0.001 (t + 0.3)) ;;
      stopAll oscs (t + 0.35)
  end.

(** [activeNodes.forEach(node => node.release(now))] *)
Fixpoint releaseEach (nodes : list ActiveNode) (now : R) : Audio unit :=
  match nodes with
  | [] => ret tt
  | n :: rest => invokeRelease (release n) now ;; releaseEach rest now
  end.

(** [midiToFreq], the same in both variants. *)
Definition midiToFreq (midi : Z) : R :=
  440 * Rpower 2 ((IZR midi - 69) / 12).

(** ** [src/unnamed/part_001]: the single-oscillator engine *)

Module Legacy.

Record AudioEngine := {
  ctx : option AudioContext;
  masterGain : option NodeId;
  activeNodes : list ActiveNode
}.

(** The engine as the constructor leaves it: lazy initialization. *)
Definition audioEngine : AudioEngine :=
  {| ctx := None; masterGain := None; activeNodes := [] |}.

Definition init (p : Platform) (e : AudioEngine) : AudioEngine :=
  let e1 :=
    match ctx e with
    | None =>
        let (g, k) :=
          (g <- createGain ;;
           emit (SetValue (gain g) 0.4) ;;
           emit (Connect g destination) ;;
           ret g) (newAudioContext p) in
        {| ctx := Some k; masterGain := Some g; activeNodes := activeNodes e |}
    | Some _ => e
    end in
  match ctx e1 with
  | Some k =>
      match state k with
      | suspended =>
          {| ctx := Some (exec resume k); masterGain := masterGain e1;
             activeNodes := activeNodes e1 |}
      | running => e1
      end
  | None => e1
  end.

Definition stopChord (e : AudioEngine) : AudioEngine :=
  match ctx e with
  | None => e
  | Some k =>
      match activeNodes e with
      | [] => e
      | _ :: _ =>
          let now := currentTime k in
          {| ctx := Some (exec (releaseEach (activeNodes e) now) k);
             masterGain := masterGain e;
             activeNodes := [] |}
      end
  end.

Definition stagger (instrument : InstrumentType) (index : nat) : R :=
  match instrument with
  | Piano => 0
  | _ => INR index * 0.03
  end.

(** The body of [midiNotes.forEach], for one note; [u] is the result of
    the [Math.random()] call of the HonkyTonk branch. The result lists the
    entries the body pushes onto [activeNodes], in order. *)
Definition voice (master : NodeId) (freq startTime : R)
    (instrument : InstrumentType) (timbre : PianoTimbre) (u : R)
    : Audio (list ActiveNode) :=
  osc <- createOscillator ;;
  g <- createGain ;;
  emit (SetValue (frequency osc) freq) ;;
  pushed <-
    match instrument with
    | Piano =>
        match timbre with
        | Electric =>
            emit (SetOscillatorType osc sine) ;;
            emit (SetValueAtTime (gain g) 0 startTime) ;;
            emit (LinearRampToValueAtTime (gain g) 0.6 (startTime + 0.02)) ;;
            emit (ExponentialRampToValueAtTime (gain g) 0.3 (startTime + 1.5)) ;;
            emit (Connect osc (node g)) ;;
            ret []
        | HonkyTonk =>
            emit (SetOscillatorType osc sawtooth) ;;
            emit (SetValue (detune osc) (u * 10 - 5)) ;;
            filter <- createBiquadFilter ;;
            emit (SetFilterType filter lowpass) ;;
            emit (SetValue (frequency filter) (freq * 3)) ;;
            emit (Connect osc (node filter)) ;;
            emit (Connect filter (node g)) ;;
            emit (SetValueAtTime (gain g) 0 startTime) ;;
            emit (LinearRampToValueAtTime (gain g) 0.5 (startTime + 0.01)) ;;
            emit (ExponentialRampToValueAtTime (gain g) 0.01 (startTime + 0.6)) ;;
            ret []
        | Grand =>
            emit (SetOscillatorType osc triangle) ;;
            filter <- createBiquadFilter ;;
            emit (SetFilterType filter lowpass) ;;
            emit (SetValueAtTime (frequency filter) (freq * 1) startTime) ;;
            emit (ExponentialRampToValueAtTime (frequency filter) (freq * 6) (startTime + 0.02)) ;;
            emit (ExponentialRampToValueAtTime (frequency filter) (freq * 2) (startTime + 0.5)) ;;
            emit (Connect osc (node filter)) ;;
            emit (Connect filter (node g)) ;;
            emit (SetValueAtTime (gain g) 0 startTime) ;;
            emit (LinearRampToValueAtTime (gain g) 0.8 (startTime + 0.015)) ;;
            emit (ExponentialRampToValueAtTime (gain g) 0.1 (startTime + 3.0)) ;;
            ret []
        end
    | Guitar =>
        emit (SetOscillatorType osc sawtooth) ;;
        gFilter <- createBiquadFilter ;;
        emit (SetFilterType gFilter lowpass) ;;
        emit (SetValueAtTime (frequency gFilter) 3000 startTime) ;;
        emit (ExponentialRampToValueAtTime (frequency gFilter) 500 (startTime + 1.0)) ;;
        emit (Connect osc (node gFilter)) ;;
        emit (Connect gFilter (node g)) ;;
        emit (SetValueAtTime (gain g) 0 startTime) ;;
        emit (LinearRampToValueAtTime (gain g) 0.8 (startTime + 0.05)) ;;
        emit (ExponentialRampToValueAtTime (gain g) 0.3 (startTime + 2.0)) ;;
        ret []
    | Violin =>
        emit (SetOscillatorType osc sawtooth) ;;
        lfo <- createOscillator ;;
        emit (SetOscillatorType lfo sine) ;;
        emit (SetValue (frequency lfo) 6) ;;
        lfoGain <- createGain ;;
        emit (SetValue (gain lfoGain) 4) ;;
        emit (Connect lfo (node lfoGain)) ;;
        emit (Connect lfoGain (param (frequency osc))) ;;
        emit (Start lfo startTime) ;;
        emit (Connect osc (node g)) ;;
        emit (SetValueAtTime (gain g) 0 startTime) ;;
        emit (LinearRampToValueAtTime (gain g) 0.7 (startTime + 0.5)) ;;
        (* Store LFO cleanup *)
        ret [ {| stop := StopOscillators [lfo]; release := ReleaseNothing |} ]
    end ;;
  emit (Connect g (node master)) ;;
  emit (Start osc startTime) ;;
  (* Register for cleanup *)
  ret (pushed ++ [ {| stop := StopOscillators [osc]; release := ReleaseFade g [osc] |} ]).

(** [midiNotes.forEach((note, index) => ...)], from [index] on; [us i] is
    what [Math.random()] returns while the note at index [i] is built. *)
Fixpoint forEach (master : NodeId) (now : R) (instrument : InstrumentType)
    (timbre : PianoTimbre) (us : nat -> R) (midiNotes : list Z) (index : nat)
    : Audio (list ActiveNode) :=
  match midiNotes with
  | [] => ret []
  | note :: rest =>
      let freq := midiToFreq note in
      let startTime := now + stagger instrument index in
      pushed <- voice master freq startTime instrument timbre (us index) ;;
      more <- forEach master now instrument timbre us rest (S index) ;;
      ret (pushed ++ more)
  end.

Definition startChord (p : Platform) (us : nat -> R) (midiNotes : list Z)
    (instrument : InstrumentType) (timbre : PianoTimbre) (e : AudioEngine)
    : AudioEngine :=
  let e := stopChord (init p e) in
  match ctx e, masterGain e with
  | Some k, Some master =>
      let now := currentTime k in
      let (pushed, k') := forEach master now instrument timbre us midiNotes 0 k in
      {| ctx := Some k'; masterGain := Some master;
         activeNodes := activeNodes e ++ pushed |}
  | _, _ => e
  end.

(** *** The page around the engine: [Math.random] and [setTimeout] *)

Record Host := {
  platform : Platform;
  random : nat -> R          (* the successive results of Math.random() *)
}.

Record Runtime := {
  this : AudioEngine;
  drawn : nat;               (* how many Math.random() results are used up *)
  timers : list N;           (* pending () => this.stopChord(), by due time *)
  clock : N                  (* the event loop's clock, in milliseconds *)
}.

Definition boot : Runtime :=
  {| this := audioEngine; drawn := 0; timers := []; clock := 0 |}.

(** One [Math.random()] per note in the HonkyTonk branch, none elsewhere. *)
Definition draws (instrument : InstrumentType) (timbre : PianoTimbre)
    (midiNotes : list Z) : nat :=
  match instrument, timbre with
  | Piano, HonkyTonk => length midiNotes
  | _, _ => 0
  end.

Definition callStartChord (h : Host) (midiNotes : list Z)
    (instrument : InstrumentType) (timbre : PianoTimbre) (r : Runtime)
    : Runtime :=
  {| this := startChord (platform h) (fun i => random h (drawn r + i)%nat)
               midiNotes instrument timbre (this r);
     drawn := drawn r + draws instrument timbre midiNotes;
     timers := timers r;
     clock := clock r |}.

Definition callStopChord (r : Runtime) : Runtime :=
  {| this := stopChord (this r); drawn := drawn r;
     timers := timers r; clock := clock r |}.

Definition playNotes (h : Host) (midiNotes : list Z)
    (instrument : InstrumentType) (timbre : PianoTimbre) (r : Runtime)
    : Runtime :=
  let r := callStartChord h midiNotes instrument timbre r in
  {| this := this r; drawn := drawn r;
     timers := timers r ++ [(clock r + 1200)%N];
     clock := clock r |}.

(** Both clocks move on to the instant [t] (milliseconds). *)
Definition advanceTo (t : N) (r : Runtime) : Runtime :=
  if (clock r <? t)%N then
    let dt := IZR (Z.of_N (t - clock r)) / 1000 in
    {| this := {| ctx := option_map (tick dt) (ctx (this r));
                  masterGain := masterGain (this r);
                  activeNodes := activeNodes (this r) |};
       drawn := drawn r; timers := timers r; clock := t |}
  else r.

(** The timers of [pending] that are due by [target] fire, oldest first,
    each at its own instant; the others stay. *)
Fixpoint fire (target : N) (pending : list N) (r : Runtime) : Runtime :=
  match pending with
  | [] => {| this := this r; drawn := drawn r; timers := []; clock := clock r |}
  | due :: rest =>
      if (due <=? target)%N then
        fire target rest (callStopChord (advanceTo due r))
      else
        let r' := fire target rest r in
        {| this := this r'; drawn := drawn r'; timers := due :: timers r';
           clock := clock r' |}
  end.

(** [ms] milliseconds pass with no call from the page. *)
Definition elapse (ms : N) (r : Runtime) : Runtime :=
  let target := (clock r + ms)%N in
  advanceTo target (fire target (timers r) r).

(** What the page can make happen to the engine: its three entry points,
    and time passing, during which the timers that fall due fire. *)
Inductive Event :=
| StartChord (midiNotes : list Z) (instrument : InstrumentType) (timbre : PianoTimbre)
| StopChord
| PlayNotes (midiNotes : list Z) (instrument : InstrumentType) (timbre : PianoTimbre)
| Elapsed (ms : N).

Definition handle (h : Host) (r : Runtime) (ev : Event) : Runtime :=
  match ev with
  | StartChord midiNotes instrument timbre =>
      callStartChord h midiNotes instrument timbre r
  | StopChord => callStopChord r
  | PlayNotes midiNotes instrument timbre =>
      playNotes h midiNotes instrument timbre r
  | Elapsed ms => elapse ms r
  end.

Definition run (h : Host) (evs : list Event) (r : Runtime) : Runtime :=
  fold_left (handle h) evs r.

End Legacy.

(** ** [src/services/audioEngine.ts]: the layered engine with reverb *)

Module Engine.

Record AudioEngine := {
  ctx : option AudioContext;
  masterGain : option NodeId;
  reverbNode : option NodeId;
  reverbGain : option NodeId;
  activeNodes : list ActiveNode
}.

Definition audioEngine : AudioEngine :=
  {| ctx := None; masterGain := None; reverbNode := None; reverbGain := None;
     activeNodes := [] |}.

(** [vol] of the loop body: [Math.pow(1 - i / length, decay)]. *)
Definition envelope (length decay : R) (i : nat) : R :=
  let n := INR i / length in
  Rpower (1 - n) decay.

(** [generateReverbImpulse]; [us] lists the results of [Math.random()],
    two per iteration. [createBuffer] truncates [length] to a whole number
    of frames, and a typed array ignores a write past its end. *)
Definition generateReverbImpulse (k : AudioContext) (us : nat -> R)
    (duration decay : R) : AudioBuffer :=
  let rate := IZR (Zpos (sampleRate k)) in
  let length := rate * duration in
  let frames := Z.to_nat (Int_part length) in
  {| bufferRate := sampleRate k;
     left := map (fun i => (us (2 * i)%nat * 2 - 1) * envelope length decay i)
                 (seq 0 frames);
     right := map (fun i => (us (2 * i + 1)%nat * 2 - 1) * envelope length decay i)
                  (seq 0 frames) |}.

Definition init (p : Platform) (us : nat -> R) (e : AudioEngine) : AudioEngine :=
  let e1 :=
    match ctx e with
    | None =>
        let k0 := newAudioContext p in
        let '(m, rn, rg, k) :=
          (m <- createGain ;;
           emit (SetValue (gain m) 0.3) ;;
           rn <- createConvolver ;;
           emit (SetBuffer rn (generateReverbImpulse k0 us 2.0 2.0)) ;;
           rg <- createGain ;;
           emit (SetValue (gain rg) 0.35) ;;
           emit (Connect m destination) ;;
           emit (Connect m (node rg)) ;;
           emit (Connect rg (node rn)) ;;
           emit (Connect rn destination) ;;
           ret (m, rn, rg)) k0 in
        {| ctx := Some k; masterGain := Some m; reverbNode := Some rn;
           reverbGain := Some rg; activeNodes := activeNodes e |}
    | Some _ => e
    end in
  match ctx e1 with
  | Some k =>
      match state k with
      | suspended =>
          {| ctx := Some (exec resume k); masterGain := masterGain e1;
             reverbNode := reverbNode e1; reverbGain := reverbGain e1;
             activeNodes := activeNodes e1 |}
      | running => e1
      end
  | None => e1
  end.

Definition stagger (instrument : InstrumentType) (index : nat) : R :=
  match instrument with
  | Piano => 0
  | _ => INR index * 0.04
  end.

(** The instrument-specific synthesis of one note onto [voiceGain]; the
    result is [noteOscillators]. *)
Definition synthesis (voiceGain : NodeId) (freq startTime : R)
    (instrument : InstrumentType) (timbre : PianoTimbre)
    : Audio (list NodeId) :=
  match instrument with
  | Piano =>
      match timbre with
      | Electric =>
          osc1 <- createOscillator ;;
          emit (SetOscillatorType osc1 sine) ;;
          emit (SetValue (frequency osc1) freq) ;;
          osc2 <- createOscillator ;;
          emit (SetOscillatorType osc2 triangle) ;;
          emit (SetValue (frequency osc2) freq) ;;
          osc1Gain <- createGain ;;
          emit (SetValue (gain osc1Gain) 0.8) ;;
          osc2Gain <- createGain ;;
          emit (SetValue (gain osc2Gain) 0.3) ;;
          emit (Connect osc1 (node osc1Gain)) ;;
          emit (Connect osc2 (node osc2Gain)) ;;
          emit (Connect osc1Gain (node voiceGain)) ;;
          emit (Connect osc2Gain (node voiceGain)) ;;
          lfo <- createOscillator ;;
          emit (SetValue (frequency lfo) 5) ;;
          lfoGain <- createGain ;;
          emit (SetValue (gain lfoGain) 0.15) ;;
          tremoloNode <- createGain ;;
          emit (SetValue (gain tremoloNode) 1.0) ;;
          emit (Connect lfo (node lfoGain)) ;;
          emit (Connect lfoGain (param (gain tremoloNode))) ;;
          emit (Disconnect osc1Gain) ;;
          emit (Disconnect osc2Gain) ;;
          emit (Connect osc1Gain (node tremoloNode)) ;;
          emit (Connect osc2Gain (node tremoloNode)) ;;
          emit (Connect tremoloNode (node voiceGain)) ;;
          emit (Start lfo startTime) ;;
          emit (Start osc1 startTime) ;;
          emit (Start osc2 startTime) ;;
          emit (SetValueAtTime (gain voiceGain) 0 startTime) ;;
          emit (LinearRampToValueAtTime (gain voiceGain) 0.6 (startTime + 0.05)) ;;
          emit (ExponentialRampToValueAtTime (gain voiceGain) 0.4 (startTime + 1.0)) ;;
          ret [osc1; osc2; lfo]
      | HonkyTonk =>
          osc1 <- createOscillator ;;
          emit (SetOscillatorType osc1 sawtooth) ;;
          emit (SetValue (frequency osc1) freq) ;;
          osc2 <- createOscillator ;;
          emit (SetOscillatorType osc2 sawtooth) ;;
          emit (SetValue (frequency osc2) freq) ;;
          emit (SetValue (detune osc2) 15) ;;
          filter <- createBiquadFilter ;;
          emit (SetFilterType filter lowpass) ;;
          emit (SetValue (frequency filter) (freq * 3)) ;;
          emit (Connect osc1 (node filter)) ;;
          emit (Connect osc2 (node filter)) ;;
          emit (Connect filter (node voiceGain)) ;;
          emit (Start osc1 startTime) ;;
          emit (Start osc2 startTime) ;;
          emit (SetValueAtTime (gain voiceGain) 0 startTime) ;;
          emit (LinearRampToValueAtTime (gain voiceGain) 0.5 (startTime + 0.02)) ;;
          emit (ExponentialRampToValueAtTime (gain voiceGain) 0.01 (startTime + 0.8)) ;;
          ret [osc1; osc2]
      | Grand =>
          osc1 <- createOscillator ;;
          emit (SetOscillatorType osc1 triangle) ;;
          emit (SetValue (frequency osc1) freq) ;;
          osc2 <- createOscillator ;;
          emit (SetOscillatorType osc2 triangle) ;;
          emit (SetValue (frequency osc2) freq) ;;
          emit (SetValue (detune osc2) 6) ;;
          osc3 <- createOscillator ;;
          emit (SetOscillatorType osc3 sine) ;;
          emit (SetValue (frequency osc3) freq) ;;
          filter <- createBiquadFilter ;;
          emit (SetFilterType filter lowpass) ;;
          emit (SetValueAtTime (frequency filter) (freq * 6) startTime) ;;
          emit (ExponentialRampToValueAtTime (frequency filter) (freq * 1.5) (startTime + 0.5)) ;;
          mainOscGain <- createGain ;;
          emit (SetValue (gain mainOscGain) 0.6) ;;
          subOscGain <- createGain ;;
          emit (SetValue (gain subOscGain) 0.4) ;;
          emit (Connect osc1 (node mainOscGain)) ;;
          emit (Connect osc2 (node mainOscGain)) ;;
          emit (Connect osc3 (node subOscGain)) ;;
          emit (Connect mainOscGain (node filter)) ;;
          emit (Connect subOscGain (node voiceGain)) ;;
          emit (Connect filter (node voiceGain)) ;;
          emit (Start osc1 startTime) ;;
          emit (Start osc2 startTime) ;;
          emit (Start osc3 startTime) ;;
          emit (SetValueAtTime (gain voiceGain) 0 startTime) ;;
          emit (LinearRampToValueAtTime (gain voiceGain) 0.7 (startTime + 0.02)) ;;
          emit (ExponentialRampToValueAtTime (gain voiceGain) 0.4 (startTime + 0.3)) ;;
          emit (ExponentialRampToValueAtTime (gain voiceGain) 0.01 (startTime + 4.0)) ;;
          ret [osc1; osc2; osc3]
      end
  | Guitar =>
      osc <- createOscillator ;;
      emit (SetOscillatorType osc sawtooth) ;;
      emit (SetValue (frequency osc) freq) ;;
      filter <- createBiquadFilter ;;
      emit (SetFilterType filter lowpass) ;;
      emit (SetValueAtTime (frequency filter) 3000 startTime) ;;
      emit (ExponentialRampToValueAtTime (frequency filter) 500 (startTime + 0.5)) ;;
      emit (Connect osc (node filter)) ;;
      emit (Connect filter (node voiceGain)) ;;
      emit (Start osc startTime) ;;
      emit (SetValueAtTime (gain voiceGain) 0 startTime) ;;
      emit (LinearRampToValueAtTime (gain voiceGain) 0.6 (startTime + 0.04)) ;;
      emit (ExponentialRampToValueAtTime (gain voiceGain) 0.1 (startTime + 2.0)) ;;
      ret [osc]
  | Violin =>
      osc <- createOscillator ;;
      emit (SetOscillatorType osc sawtooth) ;;
      emit (SetValue (frequency osc) freq) ;;
      lfo <- createOscillator ;;
      emit (SetValue (frequency lfo) 6.0) ;;
      lfoGain <- createGain ;;
      emit (SetValue (gain lfoGain) 5.0) ;;
      emit (Connect lfo (node lfoGain)) ;;
      emit (Connect lfoGain (param (frequency osc))) ;;
      emit (Start lfo startTime) ;;
      filter <- createBiquadFilter ;;
      emit (SetFilterType filter bandpass) ;;
      emit (SetValue (frequency filter) 1500) ;;
      emit (SetValue (Q filter) 0.5) ;;
      sawGain <- createGain ;;
      emit (SetValue (gain sawGain) 0.4) ;;
      emit (Connect osc (node sawGain)) ;;
      emit (Connect sawGain (node voiceGain)) ;;
      emit (Connect osc (node filter)) ;;
      emit (Connect filter (node voiceGain)) ;;
      emit (Start osc startTime) ;;
      emit (SetValueAtTime (gain voiceGain) 0 startTime) ;;
      emit (LinearRampToValueAtTime (gain voiceGain) 0.6 (startTime + 0.4)) ;;
      ret [osc; lfo]
  end.

(** Modelled from the spec: the cleanup handlers and the registration that
    end the body of [forEach] (the source file stops at the comment
    "Cleanup Handlers"). A Voice carries [stop(atTime)], which hard-stops
    all its oscillators at a given clock time, and [release(atTime)], which
    begins an amplitude fade-out and then schedules [stop], about 0.3 s
    later; the Voice is registered once the note is built. The fade and the
    delay are those of the [release] closure of [part_001]. *)
Definition cleanupHandlers (voiceGain : NodeId) (noteOscillators : list NodeId)
    : ActiveNode :=
  {| stop := StopOscillators noteOscillators;
     release := ReleaseFade voiceGain noteOscillators |}.

(** The body of [midiNotes.forEach], for one note. *)
Definition voice (master : NodeId) (freq startTime : R)
    (instrument : InstrumentType) (timbre : PianoTimbre)
    : Audio (list ActiveNode) :=
  voiceGain <- createGain ;;
  emit (Connect voiceGain (node master)) ;;
  noteOscillators <- synthesis voiceGain freq startTime instrument timbre ;;
  ret [cleanupHandlers voiceGain noteOscillators].

Fixpoint forEach (master : NodeId) (now : R) (instrument : InstrumentType)
    (timbre : PianoTimbre) (midiNotes : list Z) (index : nat)
    : Audio (list ActiveNode) :=
  match midiNotes with
  | [] => ret []
  | note :: rest =>
      let freq := midiToFreq note in
      let startTime := now + stagger instrument index in
      pushed <- voice master freq startTime instrument timbre ;;
      more <- forEach master now instrument timbre rest (S index) ;;
      ret (pushed ++ more)
  end.

(** Modelled from the spec: [stopChord], which the source file calls but
    whose text is past the point where the file stops. It is a no-op if no
    voices are registered; otherwise, for every registered Voice, it invokes
    its [release] handle at the current clock time, then clears the
    registry. *)
Definition stopChord (e : AudioEngine) : AudioEngine :=
  match ctx e with
  | None => e
  | Some k =>
      match activeNodes e with
      | [] => e
      | _ :: _ =>
          let now := currentTime k in
          {| ctx := Some (exec (releaseEach (activeNodes e) now) k);
             masterGain := masterGain e; reverbNode := reverbNode e;
             reverbGain := reverbGain e; activeNodes := [] |}
      end
  end.

Definition startChord (p : Platform) (us : nat -> R) (midiNotes : list Z)
    (instrument : InstrumentType) (timbre : PianoTimbre) (e : AudioEngine)
    : AudioEngine :=
  let e := stopChord (init p us e) in
  match ctx e, masterGain e with
  | Some k, Some master =>
      let now := currentTime k in
      let (pushed, k') := forEach master now instrument timbre midiNotes 0 k in
      {| ctx := Some k'; masterGain := Some master;
         reverbNode := reverbNode e; reverbGain := reverbGain e;
         activeNodes := activeNodes e ++ pushed |}
  | _, _ => e
  end.

(** What the page can make happen to the engine. Modelled from the spec:
    [playNotes] is [startChord] immediately, then a deferred [stopChord];
    the deferred call is the event [TimerFired]. *)
Inductive Event :=
| StartChord (midiNotes : list Z) (instrument : InstrumentType) (timbre : PianoTimbre)
| StopChord
| PlayNotes (midiNotes : list Z) (instrument : InstrumentType) (timbre : PianoTimbre)
| TimerFired
| Elapsed (seconds : R).

Definition handle (p : Platform) (us : nat -> R) (e : AudioEngine) (ev : Event)
    : AudioEngine :=
  match ev with
  | StartChord midiNotes instrument timbre
  | PlayNotes midiNotes instrument timbre =>
      startChord p us midiNotes instrument timbre e
  | StopChord | TimerFired => stopChord e
  | Elapsed dt =>
      {| ctx := option_map (tick dt) (ctx e); masterGain := masterGain e;
         reverbNode := reverbNode e; reverbGain := reverbGain e;
         activeNodes := activeNodes e |}
  end.

Definition run (p : Platform) (us : nat -> R) (evs : list Event)
    (e : AudioEngine) : AudioEngine :=
  fold_left (handle p us) evs e.

End Engine.

(** ** Observations of a trace *)

(** The times of the [start] calls, in program order. *)
Fixpoint startTimes (cs : list Call) : list R :=
  match cs with
  | [] => []
  | Start _ t :: rest => t :: startTimes rest
  | _ :: rest => startTimes rest
  end.

(** The nodes a handle's closures captured. *)
Definition stopNodes (f : StopFn) : list NodeId :=
  match f with
  | StopOscillators oscs => oscs
  end.

Definition releaseNodes (f : ReleaseFn) : list NodeId :=
  match f with
  | ReleaseNothing => []
  | ReleaseFade g oscs => g :: oscs
  end.

Definition captured (h : ActiveNode) : list NodeId :=
  stopNodes (stop h) ++ releaseNodes (release h).

(** The calls a [release] closure makes when invoked at [t]. *)
Definition releaseCalls (f : ReleaseFn) (t : R) : list Call :=
  match f with
  | ReleaseNothing => []
  | ReleaseFade g oscs =>
      [ CancelScheduledValues (gain g) t;
        HoldValueAtTime (gain g) t;
        ExponentialRampToValueAtTime (gain g) 0.001 (t + 0.3) ]
      ++ map (fun o => Stop o (t + 0.35)) oscs
  end.

(** A context with nothing in it, whose next node is [base]. *)
Definition blank (base : NodeId) : AudioContext :=
  {| currentTime := 0; state := suspended; sampleRate := 1%positive;
     fresh := base; calls := [] |}.

(** [k] after the nodes and calls of [k'] are added to it. *)
Definition graft (k k' : AudioContext) : AudioContext :=
  {| currentTime := currentTime k; state := state k; sampleRate := sampleRate k;
     fresh := fresh k'; calls := calls k ++ calls k' |}.

(** Code that only creates nodes and makes calls: what it does to a context
    is what it does to a blank one, grafted. *)
Definition uniform {A} (m : Audio A) : Prop :=
  forall k, m k = (fst (m (blank (fresh k))), graft k (snd (m (blank (fresh k))))).

Definition result {A} (m : Audio A) (base : NodeId) : A := fst (m (blank base)).
Definition effects {A} (m : Audio A) (base : NodeId) : list Call :=
  calls (snd (m (blank base))).
Definition next {A} (m : Audio A) (base : NodeId) : NodeId :=
  fresh (snd (m (blank base))).

(** *** Shapes of a chord, per variant *)

(** Entries [Legacy.voice] pushes onto [activeNodes] for one note. *)
Definition legacyEntries (instrument : InstrumentType) : nat :=
  match instrument with
  | Violin => 2
  | _ => 1
  end.

(** Oscillators started for one note. *)
Definition legacyOscillators (instrument : InstrumentType) : nat :=
  match instrument with
  | Violin => 2
  | _ => 1
  end.

Definition engineOscillators (instrument : InstrumentType)
    (timbre : PianoTimbre) : nat :=
  match instrument, timbre with
  | Piano, Electric => 3
  | Piano, HonkyTonk => 2
  | Piano, Grand => 3
  | Guitar, _ => 1
  | Violin, _ => 2
  end.

(** Every node a registered handle captured exists in the context, and the
    fields of the engine are set together. *)
Definition known (k : AudioContext) (h : ActiveNode) : Prop :=
  Forall (fun n => (n < fresh k)%nat) (captured h).

(** A handle made while the context grew from [lo] to [hi]. *)
Definition madeBetween (lo hi : NodeId) (h : ActiveNode) : Prop :=
  captured h <> [] /\ Forall (fun n => (lo <= n < hi)%nat) (captured h).

Definition legacyWellFormed (e : Legacy.AudioEngine) : Prop :=
  match Legacy.ctx e with
  | None => Legacy.masterGain e = None /\ Legacy.activeNodes e = []
  | Some k =>
      (exists m, Legacy.masterGain e = Some m /\ (m < fresh k)%nat)
      /\ Forall (known k) (Legacy.activeNodes e)
  end.

(** The engine [seconds] later, nothing having been called. *)
Definition legacyLater (seconds : R) (e : Legacy.AudioEngine)
    : Legacy.AudioEngine :=
  {| Legacy.ctx := option_map (tick seconds) (Legacy.ctx e);
     Legacy.masterGain := Legacy.masterGain e;
     Legacy.activeNodes := Legacy.activeNodes e |}.

(** *** The mix bus of [Engine] *)

Definition engineCalls (e : Engine.AudioEngine) : list Call :=
  match Engine.ctx e with
  | Some k => calls k
  | None => []
  end.

Definition engineNow (e : Engine.AudioEngine) : R :=
  match Engine.ctx e with
  | Some k => currentTime k
  | None => 0
  end.

Definition owner (p : AudioParam) : NodeId :=
  match p with
  | gain n | frequency n | detune n | Q n => n
  end.

(** The node a call acts on: the one created, configured, scheduled,
    started or stopped, or the source of a connection. *)
Definition subject (c : Call) : option NodeId :=
  match c with
  | CreateGain n | CreateOscillator n | CreateBiquadFilter n | CreateConvolver n
  | SetOscillatorType n _ | SetFilterType n _ | SetBuffer n _
  | Connect n _ | Disconnect n | Start n _ | Stop n _ => Some n
  | SetValue p _ | SetValueAtTime p _ _ | HoldValueAtTime p _
  | LinearRampToValueAtTime p _ _ | ExponentialRampToValueAtTime p _ _
  | CancelScheduledValues p _ => Some (owner p)
  | Resume => None
  end.

Definition isSetBuffer (c : Call) : bool :=
  match c with SetBuffer _ _ => true | _ => false end.

Definition isCreateConvolver (c : Call) : bool :=
  match c with CreateConvolver _ => true | _ => false end.

(** The calls of the first [init]: master gain (node 0), convolver (node 1)
    with its impulse, reverb send gain (node 2), and the routing. *)
Definition mixBus (p : Platform) (us : nat -> R) : list Call :=
  [ CreateGain 0%nat;
    SetValue (gain 0%nat) 0.3;
    CreateConvolver 1%nat;
    SetBuffer 1%nat (Engine.generateReverbImpulse (newAudioContext p) us 2.0 2.0);
    CreateGain 2%nat;
    SetValue (gain 2%nat) 0.35;
    Connect 0%nat destination;
    Connect 0%nat (node 2%nat);
    Connect 2%nat (node 1%nat);
    Connect 1%nat destination ].

(** A call whose subject is not a node of the mix bus: it computes no
    buffer, creates no convolver, and the node it acts on is not node 0, 1
    or 2. What a connection leads to is the matter of [sealed], below. *)
Definition quiet (c : Call) : bool :=
  negb (isSetBuffer c) && negb (isCreateConvolver c)
  && match subject c with
     | Some n => (3 <=? n)%nat
     | None => true
     end.

(** A call of a voice built from node [base] on. *)
Definition voiceCall (base : NodeId) (c : Call) : Prop :=
  isSetBuffer c = false /\ isCreateConvolver c = false
  /\ exists n, subject c = Some n /\ (base <= n)%nat.

(** [startChord] or [playNotes]: the events that trigger [init]. *)
Definition triggers (ev : Engine.Event) : bool :=
  match ev with
  | Engine.StartChord _ _ _ | Engine.PlayNotes _ _ _ => true
  | _ => false
  end.

Definition engineWellFormed (p : Platform) (us : nat -> R)
    (e : Engine.AudioEngine) : Prop :=
  match Engine.ctx e with
  | None => e = Engine.audioEngine
  | Some k =>
      Engine.masterGain e = Some 0%nat
      /\ Engine.reverbNode e = Some 1%nat
      /\ Engine.reverbGain e = Some 2%nat
      /\ (3 <= fresh k)%nat
      /\ (exists rest, calls k = mixBus p us ++ rest /\ forallb quiet rest = true)
      /\ Forall (madeBetween 3%nat (fresh k)) (Engine.activeNodes e)
  end.

(** *** The mix bus, in both variants *)

(** The calls of the first [init] of [part_001]: the master gain (node 0),
    and nothing else. *)
Definition legacyMixBus : list Call :=
  [ CreateGain 0%nat;
    SetValue (gain 0%nat) 0.4;
    Connect 0%nat destination ].

(** A call that leaves alone a mix bus made of the nodes below [bus]: it
    computes no buffer, creates no convolver, does not act on a node of the
    bus, and connects nothing to the destination, to a parameter of a node
    of the bus, or to a node of the bus other than the input of the master
    gain (node 0), where the voices go. *)
Definition sealed (bus : NodeId) (c : Call) : bool :=
  negb (isSetBuffer c) && negb (isCreateConvolver c)
  && match subject c with
     | Some n => (bus <=? n)%nat
     | None => true
     end
  && match c with
     | Connect _ (node n) => (n =? 0)%nat || (bus <=? n)%nat
     | Connect _ (param q) => (bus <=? owner q)%nat
     | Connect _ destination => false
     | _ => true
     end.

(** [startChord] or [playNotes]: the events that trigger [init]. *)
Definition legacyTriggers (ev : Legacy.Event) : bool :=
  match ev with
  | Legacy.StartChord _ _ _ | Legacy.PlayNotes _ _ _ => true
  | _ => false
  end.

(** The engine of [part_001] with its bus as built, and the engine of
    [audioEngine.ts] with its bus as built. *)
Definition legacySealed (e : Legacy.AudioEngine) : Prop :=
  match Legacy.ctx e with
  | None => e = Legacy.audioEngine
  | Some k =>
      Legacy.masterGain e = Some 0%nat
      /\ (1 <= fresh k)%nat
      /\ (exists rest, calls k = legacyMixBus ++ rest
                       /\ forallb (sealed 1%nat) rest = true)
      /\ Forall (madeBetween 1%nat (fresh k)) (Legacy.activeNodes e)
  end.

Definition engineSealed (p : Platform) (us : nat -> R)
    (e : Engine.AudioEngine) : Prop :=
  match Engine.ctx e with
  | None => True
  | Some k =>
      exists rest, calls k = mixBus p us ++ rest
                   /\ forallb (sealed 3%nat) rest = true
  end.

(** The timers pending on the page of [part_001] are all due within the
    next 1200 ms. *)
Definition pendingSoon (r : Legacy.Runtime) : Prop :=
  Forall (fun due => (Legacy.clock r < due <= Legacy.clock r + 1200)%N)
         (Legacy.timers r).

(** *** Comparing two runs *)

(** Two calls that are the same, or set the detune of the same oscillator. *)
Definition sameButDetune (c1 c2 : Call) : Prop :=
  c1 = c2
  \/ exists o v1 v2, c1 = SetValue (detune o) v1 /\ c2 = SetValue (detune o) v2.

(** A call that sets a detune sets it within [-5, 5). *)
Definition detuneWithin (c : Call) : Prop :=
  match c with
  | SetValue (detune _) v => -5 <= v < 5
  | _ => True
  end.

(** The detune values set, in program order. *)
Fixpoint detunes (cs : list Call) : list R :=
  match cs with
  | [] => []
  | SetValue (detune _) v :: rest => v :: detunes rest
  | _ :: rest => detunes rest
  end.

(** *** Energy of a buffer *)

Definition sumOfSquares (w : list R) : R :=
  fold_right (fun x acc => x * x + acc) 0 w.

(** Mean squared amplitude. *)
Definition energy (w : list R) : R :=
  sumOfSquares w / INR (length w).

(** The [k]-th window of [size] samples. *)
Definition window (size k : nat) (buf : list R) : list R :=
  firstn size (skipn (k * size) buf).

(** The envelope of an impulse, sample by sample. *)
Definition envelopeOf (k : AudioContext) (duration decay : R) : list R :=
  let length := IZR (Zpos (sampleRate k)) * duration in
  map (Engine.envelope length decay) (seq 0 (Z.to_nat (Int_part length))).

(** [Math.random()] returning 0.5 eight times, and 0 from then on. *)
Definition quietThenLoud : nat -> R :=
  fun i => if (i <? 8)%nat then 0.5 else 0.

(** *** A concrete page, for the examples *)

Definition browser : Platform :=
  {| hwRate := 44100%positive; hwState := suspended |}.

(** [Math.random()] returning 0.5 every time, and 0 every time. *)
Definition halves : nat -> R := fun _ => 0.5.
Definition zeros : nat -> R := fun _ => 0.

(** The calls made so far on the engine's context. *)
Definition legacyCalls (e : Legacy.AudioEngine) : list Call :=
  match Legacy.ctx e with
  | Some k => calls k
  | None => []
  end.

(** The audio clock, once there is a context. *)
Definition legacyNow (e : Legacy.AudioEngine) : R :=
  match Legacy.ctx e with
  | Some k => currentTime k
  | None => 0
  end.

Definition page : Legacy.Host :=
  {| Legacy.platform := browser; Legacy.random := halves |}.

(** * The page around the engine *)

(** ** [src/App.tsx]: the chord table

    In this part a JavaScript number is an integer ([Z]), except in the
    accuracy of a saved entry, which is computed in doubles as the page
    computes it ([accuracyOf]); an
    [option] result is [None] where the JavaScript meets [undefined] (a key
    that is not in a map, an index past the end of an array), which no call
    the page makes does. *)

Module App.

(** [enum ChordQuality] and the strings it stands for. *)
Inductive ChordQuality := Major | Minor | Dominant7 | Major7 | Minor7.

Definition qualityString (q : ChordQuality) : String.string :=
  match q with
  | Major => "Major"
  | Minor => "Minor"
  | Dominant7 => "7"
  | Major7 => "Maj7"
  | Minor7 => "Min7"
  end.

(** [Object.values(ChordQuality)] *)
Definition qualities : list ChordQuality :=
  [Major; Minor; Dominant7; Major7; Minor7].

Record Chord := {
  root : String.string;
  quality : ChordQuality;
  inversion : Z;
  displayName : String.string;
  intervals : list Z
}.

Definition ROOTS : list String.string :=
  ["C"; "C#"; "D"; "Eb"; "E"; "F"; "F#"; "G"; "Ab"; "A"; "Bb"; "B"]%string.

Definition ROOT_MIDI_MAP : list (String.string * Z) :=
  [("C", 0); ("C#", 1); ("D", 2); ("Eb", 3); ("E", 4); ("F", 5); ("F#", 6);
   ("G", 7); ("Ab", 8); ("A", 9); ("Bb", 10); ("B", 11)]%string%Z.

(** [map[key]] *)
Fixpoint lookup (key : String.string) (map : list (String.string * Z))
    : option Z :=
  match map with
  | [] => None
  | (k, v) :: rest => if String.eqb key k then Some v else lookup key rest
  end.

Definition QUALITIES (q : ChordQuality) : list Z :=
  match q with
  | Major => [0; 4; 7]
  | Minor => [0; 3; 7]
  | Dominant7 => [0; 4; 7; 10]
  | Major7 => [0; 4; 7; 11]
  | Minor7 => [0; 3; 7; 10]
  end%Z.

(** [%] of JavaScript truncates; a negative index is not in the array. *)
Definition getNoteName (rootIndex interval : Z) : option String.string :=
  let normIndex := Z.rem (rootIndex + interval) 12 in
  if (normIndex <? 0)%Z then None else nth_error ROOTS (Z.to_nat normIndex).

(** [`${root}${quality === Major ? '' : quality === Minor ? 'm' : quality}`] *)
Definition baseName (root : String.string) (quality : ChordQuality)
    : String.string :=
  String.append root
    match quality with
    | Major => ""
    | Minor => "m"
    | _ => qualityString quality
    end%string.

Definition slashName (root : String.string) (quality : ChordQuality)
    (bassNote : String.string) : String.string :=
  String.append (baseName root quality) (String.append "/" bassNote).

(** [[...xs.slice(1), first + 12]] *)
Definition raiseLowest (xs : list Z) (first : Z) : list Z :=
  skipn 1 xs ++ [(first + 12)%Z].

Definition generateVariations (root : String.string) (quality : ChordQuality)
    (baseIntervals : list Z) : option (list Chord) :=
  match lookup root ROOT_MIDI_MAP, baseIntervals with
  | Some rootIndex, b0 :: b1 :: b2 :: _ =>
      let rootPosition :=
        {| root := root; quality := quality; inversion := 0;
           displayName := baseName root quality;
           intervals := baseIntervals |} in
      let firstInvIntervals := raiseLowest baseIntervals b0 in
      match getNoteName rootIndex b1, firstInvIntervals with
      | Some bassNote1, f0 :: _ =>
          let first :=
            {| root := root; quality := quality; inversion := 1;
               displayName := slashName root quality bassNote1;
               intervals := firstInvIntervals |} in
          let secondInvIntervals := raiseLowest firstInvIntervals f0 in
          match getNoteName rootIndex b2, secondInvIntervals with
          | Some bassNote2, s0 :: _ =>
              let second :=
                {| root := root; quality := quality; inversion := 2;
                   displayName := slashName root quality bassNote2;
                   intervals := secondInvIntervals |} in
              if (length baseIntervals =? 4)%nat then
                let thirdInvIntervals := raiseLowest secondInvIntervals s0 in
                match nth_error baseIntervals 3 with
                | Some b3 =>
                    match getNoteName rootIndex b3 with
                    | Some bassNote3 =>
                        Some [rootPosition; first; second;
                              {| root := root; quality := quality; inversion := 3;
                                 displayName := slashName root quality bassNote3;
                                 intervals := thirdInvIntervals |}]
                    | None => None
                    end
                | None => None
                end
              else Some [rootPosition; first; second]
          | _, _ => None
          end
      | _, _ => None
      end
  | _, _ => None
  end.

(** [xs.flatMap(f)], where [f] is partial. *)
Fixpoint flatMapDefined {A B} (f : A -> option (list B)) (xs : list A)
    : option (list B) :=
  match xs with
  | [] => Some []
  | x :: rest =>
      match f x, flatMapDefined f rest with
      | Some ys, Some more => Some (ys ++ more)
      | _, _ => None
      end
  end.

(** The chords of one root: every quality, with its inversions. *)
Definition chordsOf (root : String.string) : option (list Chord) :=
  flatMapDefined (fun quality => generateVariations root quality (QUALITIES quality))
                 qualities.

(** [CHORD_GROUPS], as pairs [(root, chords)]. *)
Definition CHORD_GROUPS : list (String.string * list Chord) :=
  map (fun root => (root, match chordsOf root with
                          | Some chords => chords
                          | None => []
                          end)) ROOTS.

Definition ALL_CHORDS_FLAT : list Chord :=
  flat_map snd CHORD_GROUPS.

(** [getChordNotes], for the instrument selected. *)
Definition getChordNotes (instrument : InstrumentType) (chord : Chord)
    : option (list Z) :=
  match lookup (root chord) ROOT_MIDI_MAP with
  | Some baseRoot =>
      let baseOctave :=
        match instrument with
        | Piano => 60
        | Violin => 67
        | Guitar => 52
        end%Z in
      let rootMidi := (baseOctave + baseRoot)%Z in
      let rootMidi := if (76 <? rootMidi)%Z then (rootMidi - 12)%Z else rootMidi in
      Some (map (fun interval => (rootMidi + interval)%Z) (intervals chord))
  | None => None
  end.

(** [type PracticeFilter] *)
Inductive PracticeFilter := All | Triads | Sevenths.

(** The pool of [startPracticeRound]. *)
Definition pool (practiceFilter : PracticeFilter) (showInversions : bool)
    : list Chord :=
  let pool := ALL_CHORDS_FLAT in
  let pool :=
    match practiceFilter with
    | Triads =>
        filter (fun c => match quality c with
                         | Major | Minor => true
                         | _ => false
                         end) pool
    | Sevenths =>
        filter (fun c => match quality c with
                         | Dominant7 | Major7 | Minor7 => true
                         | _ => false
                         end) pool
    | All => pool
    end in
  if showInversions then pool
  else filter (fun c => (inversion c =? 0)%Z) pool.

(** [pool[Math.floor(Math.random() * pool.length)]], with [u] the result
    of [Math.random()]; [None] stands for [undefined]. *)
Definition randomChord (practiceFilter : PracticeFilter) (showInversions : bool)
    (u : R) : option Chord :=
  let pool := pool practiceFilter showInversions in
  let i := Int_part (u * INR (length pool)) in
  if (i <? 0)%Z then None else nth_error pool (Z.to_nat i).

(** *** The state of the [App] component

    The component's [useState] cells, together with what its callbacks
    reach outside React: the interval of [timerRef], the pending
    [setTimeout] callbacks and the calls made on [audioEngine]. A callback
    reads the cells of the render it was created in ([rendered] below) and
    queues its updates, which React applies in order; every callback is run
    on the state the previous one left, and an updater function is run
    once. The AI tip request and [localStorage] are left out. *)

Inductive FeedbackStatus := Idle | Correct | Wrong | Timeout.

Record PracticeSession := {
  isActive : bool;
  targetChord : option Chord;
  revealed : bool;
  timer : Z;
  timerSetting : Z;
  hasMadeMistake : bool
}.

Record Score := {
  correct : Z;
  wrong : Z;
  startTime : Z
}.

Record HistoryEntry := {
  id : String.string;
  timestamp : Z;
  durationSeconds : Z;
  mode : PracticeFilter;
  isScored : bool;
  correctCount : Z;
  totalAttempts : Z;
  accuracy : Z
}.

(** A call of a method of [audioEngine]; the notes are [None] where
    [getChordNotes] has none to give. *)
Inductive EngineCall :=
| StartChord (notes : option (list Z)) (instrument : InstrumentType)
             (timbre : PianoTimbre)
| StopChord
| PlayNotes (notes : option (list Z)) (instrument : InstrumentType)
            (timbre : PianoTimbre).

Record State := {
  instrument : InstrumentType;
  pianoTimbre : PianoTimbre;
  currentChord : option Chord;
  activeNotes : option (list Z);
    (* [None]: the notes of a chord whose root is not in [ROOT_MIDI_MAP] *)
  practiceFilter : PracticeFilter;
  showInversions : bool;
  practice : PracticeSession;
  isScoreMode : bool;
  currentScore : Score;
  history : list HistoryEntry;
  feedbackStatus : FeedbackStatus;
  pressedChordName : option String.string;
  aiTip : String.string;
  interval : option bool;
    (* the interval [timerRef.current] names, until it is cleared, with the
       [isScoreMode] its callback has captured *)
  timeouts : nat;
    (* the feedback resets scheduled with [setTimeout] and not run yet *)
  audio : list EngineCall
    (* the calls made on [audioEngine], in order *)
}.

(** The setters of the [useState] cells. *)
Definition setInstrument (value : InstrumentType) (s : State) : State :=
  {| instrument := value; pianoTimbre := pianoTimbre s;
     currentChord := currentChord s; activeNotes := activeNotes s;
     practiceFilter := practiceFilter s; showInversions := showInversions s;
     practice := practice s; isScoreMode := isScoreMode s;
     currentScore := currentScore s; history := history s;
     feedbackStatus := feedbackStatus s;
     pressedChordName := pressedChordName s; aiTip := aiTip s;
     interval := interval s; timeouts := timeouts s; audio := audio s |}.

Definition setPianoTimbre (value : PianoTimbre) (s : State) : State :=
  {| instrument := instrument s; pianoTimbre := value;
     currentChord := currentChord s; activeNotes := activeNotes s;
     practiceFilter := practiceFilter s; showInversions := showInversions s;
     practice := practice s; isScoreMode := isScoreMode s;
     currentScore := currentScore s; history := history s;
     feedbackStatus := feedbackStatus s;
     pressedChordName := pressedChordName s; aiTip := aiTip s;
     interval := interval s; timeouts := timeouts s; audio := audio s |}.

Definition setCurrentChord (value : option Chord) (s : State) : State :=
  {| instrument := instrument s; pianoTimbre := pianoTimbre s;
     currentChord := value; activeNotes := activeNotes s;
     practiceFilter := practiceFilter s; showInversions := showInversions s;
     practice := practice s; isScoreMode := isScoreMode s;
     currentScore := currentScore s; history := history s;
     feedbackStatus := feedbackStatus s;
     pressedChordName := pressedChordName s; aiTip := aiTip s;
     interval := interval s; timeouts := timeouts s; audio := audio s |}.

Definition setActiveNotes (value : option (list Z)) (s : State) : State :=
  {| instrument := instrument s; pianoTimbre := pianoTimbre s;
     currentChord := currentChord s; activeNotes := value;
     practiceFilter := practiceFilter s; showInversions := showInversions s;
     practice := practice s; isScoreMode := isScoreMode s;
     currentScore := currentScore s; history := history s;
     feedbackStatus := feedbackStatus s;
     pressedChordName := pressedChordName s; aiTip := aiTip s;
     interval := interval s; timeouts := timeouts s; audio := audio s |}.

Definition setPracticeFilter (value : PracticeFilter) (s : State) : State :=
  {| instrument := instrument s; pianoTimbre := pianoTimbre s;
     currentChord := currentChord s; activeNotes := activeNotes s;
     practiceFilter := value; showInversions := showInversions s;
     practice := practice s; isScoreMode := isScoreMode s;
     currentScore := currentScore s; history := history s;
     feedbackStatus := feedbackStatus s;
     pressedChordName := pressedChordName s; aiTip := aiTip s;
     interval := interval s; timeouts := timeouts s; audio := audio s |}.

Definition setShowInversions (value : bool) (s : State) : State :=
  {| instrument := instrument s; pianoTimbre := pianoTimbre s;
     currentChord := currentChord s; activeNotes := activeNotes s;
     practiceFilter := practiceFilter s; showInversions := value;
     practice := practice s; isScoreMode := isScoreMode s;
     currentScore := currentScore s; history := history s;
     feedbackStatus := feedbackStatus s;
     pressedChordName := pressedChordName s; aiTip := aiTip s;
     interval := interval s; timeouts := timeouts s; audio := audio s |}.

Definition setPractice (update : PracticeSession -> PracticeSession) (s : State) : State :=
  {| instrument := instrument s; pianoTimbre := pianoTimbre s;
     currentChord := currentChord s; activeNotes := activeNotes s;
     practiceFilter := practiceFilter s; showInversions := showInversions s;
     practice := update (practice s); isScoreMode := isScoreMode s;
     currentScore := currentScore s; history := history s;
     feedbackStatus := feedbackStatus s;
     pressedChordName := pressedChordName s; aiTip := aiTip s;
     interval := interval s; timeouts := timeouts s; audio := audio s |}.

Definition setIsScoreMode (value : bool) (s : State) : State :=
  {| instrument := instrument s; pianoTimbre := pianoTimbre s;
     currentChord := currentChord s; activeNotes := activeNotes s;
     practiceFilter := practiceFilter s; showInversions := showInversions s;
     practice := practice s; isScoreMode := value;
     currentScore := currentScore s; history := history s;
     feedbackStatus := feedbackStatus s;
     pressedChordName := pressedChordName s; aiTip := aiTip s;
     interval := interval s; timeouts := timeouts s; audio := audio s |}.

Definition setCurrentScore (update : Score -> Score) (s : State) : State :=
  {| instrument := instrument s; pianoTimbre := pianoTimbre s;
     currentChord := currentChord s; activeNotes := activeNotes s;
     practiceFilter := practiceFilter s; showInversions := showInversions s;
     practice := practice s; isScoreMode := isScoreMode s;
     currentScore := update (currentScore s); history := history s;
     feedbackStatus := feedbackStatus s;
     pressedChordName := pressedChordName s; aiTip := aiTip s;
     interval := interval s; timeouts := timeouts s; audio := audio s |}.

Definition setHistory (update : list HistoryEntry -> list HistoryEntry) (s : State) : State :=
  {| instrument := instrument s; pianoTimbre := pianoTimbre s;
     currentChord := currentChord s; activeNotes := activeNotes s;
     practiceFilter := practiceFilter s; showInversions := showInversions s;
     practice := practice s; isScoreMode := isScoreMode s;
     currentScore := currentScore s; history := update (history s);
     feedbackStatus := feedbackStatus s;
     pressedChordName := pressedChordName s; aiTip := aiTip s;
     interval := interval s; timeouts := timeouts s; audio := audio s |}.

Definition setFeedbackStatus (value : FeedbackStatus) (s : State) : State :=
  {| instrument := instrument s; pianoTimbre := pianoTimbre s;
     currentChord := currentChord s; activeNotes := activeNotes s;
     practiceFilter := practiceFilter s; showInversions := showInversions s;
     practice := practice s; isScoreMode := isScoreMode s;
     currentScore := currentScore s; history := history s;
     feedbackStatus := value; pressedChordName := pressedChordName s;
     aiTip := aiTip s; interval := interval s; timeouts := timeouts s;
     audio := audio s |}.

Definition setPressedChordName (value : option String.string) (s : State) : State :=
  {| instrument := instrument s; pianoTimbre := pianoTimbre s;
     currentChord := currentChord s; activeNotes := activeNotes s;
     practiceFilter := practiceFilter s; showInversions := showInversions s;
     practice := practice s; isScoreMode := isScoreMode s;
     currentScore := currentScore s; history := history s;
     feedbackStatus := feedbackStatus s; pressedChordName := value;
     aiTip := aiTip s; interval := interval s; timeouts := timeouts s;
     audio := audio s |}.

Definition setAiTip (value : String.string) (s : State) : State :=
  {| instrument := instrument s; pianoTimbre := pianoTimbre s;
     currentChord := currentChord s; activeNotes := activeNotes s;
     practiceFilter := practiceFilter s; showInversions := showInversions s;
     practice := practice s; isScoreMode := isScoreMode s;
     currentScore := currentScore s; history := history s;
     feedbackStatus := feedbackStatus s;
     pressedChordName := pressedChordName s; aiTip := value;
     interval := interval s; timeouts := timeouts s; audio := audio s |}.

(** [timerRef.current = window.setInterval(...)], for a callback that has
    captured [scoreMode]; [clearInterval(timerRef.current)]. *)
Definition setInterval (scoreMode : bool) (s : State) : State :=
  {| instrument := instrument s; pianoTimbre := pianoTimbre s;
     currentChord := currentChord s; activeNotes := activeNotes s;
     practiceFilter := practiceFilter s; showInversions := showInversions s;
     practice := practice s; isScoreMode := isScoreMode s;
     currentScore := currentScore s; history := history s;
     feedbackStatus := feedbackStatus s;
     pressedChordName := pressedChordName s; aiTip := aiTip s;
     interval := Some scoreMode; timeouts := timeouts s; audio := audio s |}.

Definition clearInterval (s : State) : State :=
  {| instrument := instrument s; pianoTimbre := pianoTimbre s;
     currentChord := currentChord s; activeNotes := activeNotes s;
     practiceFilter := practiceFilter s; showInversions := showInversions s;
     practice := practice s; isScoreMode := isScoreMode s;
     currentScore := currentScore s; history := history s;
     feedbackStatus := feedbackStatus s;
     pressedChordName := pressedChordName s; aiTip := aiTip s;
     interval := None; timeouts := timeouts s; audio := audio s |}.

(** [setTimeout(() => setFeedbackStatus('idle'), 800)] *)
Definition setTimeout (s : State) : State :=
  {| instrument := instrument s; pianoTimbre := pianoTimbre s;
     currentChord := currentChord s; activeNotes := activeNotes s;
     practiceFilter := practiceFilter s; showInversions := showInversions s;
     practice := practice s; isScoreMode := isScoreMode s;
     currentScore := currentScore s; history := history s;
     feedbackStatus := feedbackStatus s;
     pressedChordName := pressedChordName s; aiTip := aiTip s;
     interval := interval s; timeouts := S (timeouts s); audio := audio s |}.

(** A call on [audioEngine]. *)
Definition call (c : EngineCall) (s : State) : State :=
  {| instrument := instrument s; pianoTimbre := pianoTimbre s;
     currentChord := currentChord s; activeNotes := activeNotes s;
     practiceFilter := practiceFilter s; showInversions := showInversions s;
     practice := practice s; isScoreMode := isScoreMode s;
     currentScore := currentScore s; history := history s;
     feedbackStatus := feedbackStatus s;
     pressedChordName := pressedChordName s; aiTip := aiTip s;
     interval := interval s; timeouts := timeouts s;
     audio := audio s ++ [c] |}.


(** A whole number as a JavaScript number, which is a double (IEEE 754
    binary64): exactly that number, below 2^53 in size. *)
Definition toNumber (n : Z) : PrimFloat.float :=
  if (n <? 0)%Z then PrimFloat.opp (PrimFloat.of_uint63 (Uint63.of_Z (- n)))
  else PrimFloat.of_uint63 (Uint63.of_Z n).

(** [Math.round] of a double, as a whole number: the whole number nearest
    to it, and of two that are equally near the one above. The double
    [m * 2^e] is rounded without error. (On infinities and NaN, which a
    division by a count above 0 does not give, [Math.round] returns its
    argument; 0 stands for that here.) *)
Definition round (x : PrimFloat.float) : Z :=
  match FloatOps.Prim2SF x with
  | SpecFloat.S754_finite s m e =>
      let n := if s then Z.neg m else Z.pos m in
      if (0 <=? e)%Z then Z.shiftl n e
      else Z.shiftr (2 * n + Z.shiftl 1 (- e)) (- e + 1)
  | _ => 0%Z
  end.

(** [Math.round((correct / totalAttempts) * 100)], in doubles. *)
Definition accuracyOf (correct totalAttempts : Z) : Z :=
  round (PrimFloat.mul (PrimFloat.div (toNumber correct) (toNumber totalAttempts))
                       (toNumber 100)).

(** [n.toString()] for a whole number. *)
Definition toString (n : Z) : String.string :=
  DecimalString.NilZero.string_of_int (Z.to_int n).

(** [!pressedChordName]: [null] and the empty string are falsy. *)
Definition falsy (name : option String.string) : bool :=
  match name with
  | None => true
  | Some name => String.eqb name String.EmptyString
  end.

(** [chord.displayName === practice.targetChord?.displayName] *)
Definition namesTarget (chord : Chord) (p : PracticeSession) : bool :=
  match targetChord p with
  | Some target => String.eqb (displayName chord) (displayName target)
  | None => false
  end.

(** [handleNoteStart] *)
Definition handleNoteStart (midi : Z) (rendered s : State) : State :=
  let s := setActiveNotes (Some [midi]) s in
  call (StartChord (Some [midi]) (instrument rendered) (pianoTimbre rendered)) s.

(** [handleNoteStop] *)
Definition handleNoteStop (rendered s : State) : State :=
  if falsy (pressedChordName rendered) && negb (revealed (practice rendered))
  then
    let s := call StopChord s in
    if match targetChord (practice rendered) with
       | None => true
       | Some _ => false
       end || negb (revealed (practice rendered))
    then setActiveNotes (Some []) s
    else s
  else s.

(** [revealAnswer] *)
Definition revealAnswer (rendered s : State) : State :=
  let s := clearInterval s in
  let s :=
    setPractice
      (fun prev =>
         {| isActive := isActive prev; targetChord := targetChord prev;
            revealed := true; timer := 0; timerSetting := timerSetting prev;
            hasMadeMistake := hasMadeMistake prev |}) s in
  match targetChord (practice rendered) with
  | Some target =>
      let s := setCurrentChord (Some target) s in
      let notes := getChordNotes (instrument rendered) target in
      let s := setActiveNotes notes s in
      call (PlayNotes notes (instrument rendered) (pianoTimbre rendered)) s
  | None => s
  end.

(** [handlePracticeGuess] *)
Definition handlePracticeGuess (chord : Chord) (rendered s : State) : State :=
  if revealed (practice rendered) then s
  else if namesTarget chord (practice rendered) then
    let s := setFeedbackStatus Correct s in
    let s :=
      if isScoreMode rendered && negb (hasMadeMistake (practice rendered))
      then setCurrentScore
             (fun prev => {| correct := correct prev + 1; wrong := wrong prev;
                             startTime := startTime prev |}) s
      else s in
    revealAnswer rendered s
  else
    let s := setFeedbackStatus Wrong s in
    let s :=
      if isScoreMode rendered && negb (hasMadeMistake (practice rendered))
      then
        let s :=
          setCurrentScore
            (fun prev => {| correct := correct prev; wrong := wrong prev + 1;
                            startTime := startTime prev |}) s in
        setPractice
          (fun prev =>
             {| isActive := isActive prev; targetChord := targetChord prev;
                revealed := revealed prev; timer := timer prev;
                timerSetting := timerSetting prev; hasMadeMistake := true |}) s
      else s in
    let s := setTimeout s in
    let notes := getChordNotes (instrument rendered) chord in
    call (PlayNotes notes (instrument rendered) (pianoTimbre rendered)) s.

(** [handleChordPress] *)
Definition handleChordPress (chord : Chord) (rendered s : State) : State :=
  if isActive (practice rendered) && negb (revealed (practice rendered))
  then handlePracticeGuess chord rendered s
  else
    let notes := getChordNotes (instrument rendered) chord in
    let s := setCurrentChord (Some chord) s in
    let s := setActiveNotes notes s in
    let s := setPressedChordName (Some (displayName chord)) s in
    let s := call (StartChord notes (instrument rendered) (pianoTimbre rendered)) s in
    setAiTip String.EmptyString s.

(** [handleChordRelease] *)
Definition handleChordRelease (s : State) : State :=
  let s := setPressedChordName None s in
  call StopChord s.

(** The callback [startPracticeRound] hands to [setInterval]. A cleared
    interval does not fire. *)
Definition tick (s : State) : State :=
  match interval s with
  | None => s
  | Some scoreMode =>
      let prev := practice s in
      if (timer prev <=? 1)%Z then
        let s := clearInterval s in
        let s := setFeedbackStatus Timeout s in
        let s :=
          if scoreMode && negb (hasMadeMistake prev)
          then setCurrentScore
                 (fun prevScore =>
                    {| correct := correct prevScore;
                       wrong := wrong prevScore + 1;
                       startTime := startTime prevScore |}) s
          else s in
        setPractice
          (fun prev =>
             {| isActive := isActive prev; targetChord := targetChord prev;
                revealed := true; timer := 0; timerSetting := timerSetting prev;
                hasMadeMistake := hasMadeMistake prev |}) s
      else
        setPractice
          (fun prev =>
             {| isActive := isActive prev; targetChord := targetChord prev;
                revealed := revealed prev; timer := timer prev - 1;
                timerSetting := timerSetting prev;
                hasMadeMistake := hasMadeMistake prev |}) s
  end.

(** [startPracticeRound], with [u] the result of [Math.random()]. Where no
    chord is drawn, [getChordNotes(undefined)] throws and the callback
    ends there. *)
Definition startPracticeRound (u : R) (rendered s : State) : State :=
  let randomChord :=
    randomChord (practiceFilter rendered) (showInversions rendered) u in
  let s :=
    setPractice
      (fun prev =>
         {| isActive := isActive prev; targetChord := randomChord;
            revealed := false; timer := timerSetting prev;
            timerSetting := timerSetting prev; hasMadeMistake := false |}) s in
  let s := setFeedbackStatus Idle s in
  let s := setCurrentChord None s in
  match randomChord with
  | Some chord =>
      let notes := getChordNotes (instrument rendered) chord in
      let s := call (PlayNotes notes (instrument rendered) (pianoTimbre rendered)) s in
      let s := clearInterval s in
      setInterval (isScoreMode rendered) s
  | None => s
  end.

(** The entry [togglePracticeMode] saves; [now] and [later] are the results
    of its two calls of [Date.now()]. *)
Definition newEntry (now later : Z) (rendered : State) : HistoryEntry :=
  let totalAttempts :=
    (correct (currentScore rendered) + wrong (currentScore rendered))%Z in
  {| id := toString now;
     timestamp := startTime (currentScore rendered);
     durationSeconds := ((later - startTime (currentScore rendered)) / 1000)%Z;
     mode := practiceFilter rendered;
     isScored := isScoreMode rendered;
     correctCount := correct (currentScore rendered);
     totalAttempts := totalAttempts;
     accuracy := accuracyOf (correct (currentScore rendered)) totalAttempts |}.

(** [togglePracticeMode]; when practice starts, [now] is the result of
    [Date.now()] and [u] that of [Math.random()]. *)
Definition togglePracticeMode (now later : Z) (u : R) (rendered s : State)
    : State :=
  if isActive (practice rendered) then
    let totalAttempts :=
      (correct (currentScore rendered) + wrong (currentScore rendered))%Z in
    let s :=
      if (0 <? totalAttempts)%Z
      then setHistory (fun prev => newEntry now later rendered :: prev) s
      else s in
    let s :=
      setPractice
        (fun prev =>
           {| isActive := false; targetChord := None; revealed := false;
              timer := timer prev; timerSetting := timerSetting prev;
              hasMadeMistake := false |}) s in
    let s := clearInterval s in
    let s := setCurrentChord None s in
    let s := setActiveNotes (Some []) s in
    let s := setFeedbackStatus Idle s in
    call StopChord s
  else
    let s :=
      setCurrentScore (fun _ => {| correct := 0; wrong := 0; startTime := now |}) s in
    let s :=
      setPractice
        (fun prev =>
           {| isActive := true; targetChord := targetChord prev;
              revealed := revealed prev; timer := timer prev;
              timerSetting := timerSetting prev; hasMadeMistake := false |}) s in
    startPracticeRound u rendered s.

(** [handleReplay] *)
Definition handleReplay (rendered s : State) : State :=
  match targetChord (practice rendered) with
  | Some target =>
      call (PlayNotes (getChordNotes (instrument rendered) target)
                      (instrument rendered) (pianoTimbre rendered)) s
  | None => s
  end.

(** The effect that follows the instrument and the current chord. *)
Definition instrumentEffect (rendered s : State) : State :=
  match currentChord rendered with
  | Some chord =>
      setActiveNotes (getChordNotes (instrument rendered) chord) s
  | None => s
  end.

(** The effect that shows the answer after a timeout. *)
Definition timeoutEffect (rendered s : State) : State :=
  match targetChord (practice rendered), feedbackStatus rendered,
        currentChord rendered with
  | Some target, Timeout, None =>
      if isActive (practice rendered) && revealed (practice rendered) then
        let s := setCurrentChord (Some target) s in
        let s := setActiveNotes (getChordNotes (instrument rendered) target) s in
        call (PlayNotes (getChordNotes (instrument rendered) target)
                        (instrument rendered) (pianoTimbre rendered)) s
      else s
  | _, _, _ => s
  end.

(** The callback of [setTimeout] in [handlePracticeGuess]. *)
Definition feedbackReset (s : State) : State :=
  match timeouts s with
  | O => s
  | S pending =>
      setFeedbackStatus Idle
        {| instrument := instrument s; pianoTimbre := pianoTimbre s;
           currentChord := currentChord s; activeNotes := activeNotes s;
           practiceFilter := practiceFilter s;
           showInversions := showInversions s; practice := practice s;
           isScoreMode := isScoreMode s; currentScore := currentScore s;
           history := history s; feedbackStatus := feedbackStatus s;
           pressedChordName := pressedChordName s; aiTip := aiTip s;
           interval := interval s; timeouts := pending; audio := audio s |}
  end.

(** [bestRecordId]. [Array.prototype.sort] is a stable sort: [insert] puts
    an entry before the first one it does not come after, and [sort]
    inserts the entries from the last to the first. *)
Fixpoint insert {A} (compare : A -> A -> Z) (a : A) (sorted : list A) : list A :=
  match sorted with
  | [] => [a]
  | b :: rest =>
      if (compare a b <=? 0)%Z then a :: b :: rest
      else b :: insert compare a rest
  end.

Definition sort {A} (compare : A -> A -> Z) (xs : list A) : list A :=
  fold_right (insert compare) [] xs.

Definition byAccuracy (a b : HistoryEntry) : Z :=
  if negb (accuracy b =? accuracy a)%Z then (accuracy b - accuracy a)%Z
  else (totalAttempts b - totalAttempts a)%Z.

Definition bestRecordId (history : list HistoryEntry) : option String.string :=
  match history with
  | [] => None
  | _ =>
      match sort byAccuracy history with
      | best :: _ => Some (id best)
      | [] => None
      end
  end.

(** What the user and the browser do. Each event runs its callback, where
    the element that carries the callback is on the page. The chord buttons
    are always on the page, and their pointer callbacks run whether or not
    the button is disabled. *)
Inductive Event :=
| pressChord (chord : Chord)       (* [onPointerDown] of a chord button *)
| releaseChord                     (* [onPointerUp], [Leave], [Cancel] *)
| pressKey (midi : Z)              (* [onPointerDown] of a piano key *)
| releaseKey                       (* [onPointerUp], [Leave] of a key *)
| mouseUp                          (* the [mouseup] listener of [window] *)
| clickPractice (now later : Z) (u : R)
| clickNextRound (u : R)
| clickReplay
| clickInstrument (value : InstrumentType)
| clickTimbre (value : PianoTimbre)
| clickScoreMode
| clickInversions
| changeFilter (value : PracticeFilter)
| changeTimer (value : Z)
| clickClear
| intervalFires
| timeoutFires
| runInstrumentEffect
| runTimeoutEffect.

Definition handle (e : Event) (s : State) : State :=
  match e with
  | pressChord chord => handleChordPress chord s s
  | releaseChord => handleChordRelease s
  | pressKey midi =>
      match instrument s with
      | Piano => handleNoteStart midi s s
      | _ => s
      end
  | releaseKey =>
      match instrument s with
      | Piano => handleNoteStop s s
      | _ => s
      end
  | mouseUp => call StopChord s
  | clickPractice now later u => togglePracticeMode now later u s s
  | clickNextRound u =>
      if isActive (practice s) && revealed (practice s)
      then startPracticeRound u s s
      else s
  | clickReplay =>
      if isActive (practice s) && negb (revealed (practice s))
      then handleReplay s s
      else s
  | clickInstrument value => setInstrument value s
  | clickTimbre value =>
      match instrument s with
      | Piano => setPianoTimbre value s
      | _ => s
      end
  | clickScoreMode =>
      if negb (isActive (practice s))
      then setIsScoreMode (negb (isScoreMode s)) s
      else s
  | clickInversions =>
      if negb (isActive (practice s))
      then setShowInversions (negb (showInversions s)) s
      else s
  | changeFilter value =>
      if negb (isActive (practice s)) then setPracticeFilter value s else s
  | changeTimer value =>
      if isActive (practice s) then s
      else setPractice
             (fun p =>
                {| isActive := isActive p; targetChord := targetChord p;
                   revealed := revealed p; timer := timer p;
                   timerSetting := value; hasMadeMistake := hasMadeMistake p |}) s
  | clickClear => setHistory (fun _ => []) s
  | intervalFires => tick s
  | timeoutFires => feedbackReset s
  | runInstrumentEffect => instrumentEffect s s
  | runTimeoutEffect => timeoutEffect s s
  end.

(** The component as first rendered; [saved] is the history found in
    [localStorage]. *)
Definition initial (saved : list HistoryEntry) : State :=
  {| instrument := Piano; pianoTimbre := Grand; currentChord := None;
     activeNotes := Some []; practiceFilter := All; showInversions := false;
     practice := {| isActive := false; targetChord := None; revealed := false;
                    timer := 10; timerSetting := 10; hasMadeMistake := false |};
     isScoreMode := false;
     currentScore := {| correct := 0; wrong := 0; startTime := 0 |};
     history := saved; feedbackStatus := Idle; pressedChordName := None;
     aiTip := String.EmptyString; interval := None; timeouts := O;
     audio := [] |}.

Definition run (events : list Event) (s : State) : State :=
  fold_left (fun s e => handle e s) events s.

(** The chord buttons of one group. *)
Definition chordsToDisplay (showInversions : bool) (chords : list Chord)
    : list Chord :=
  filter (fun c => if showInversions then true else (inversion c =? 0)%Z) chords.


End App.

(** The pitch class of a note or of an interval. *)
Definition pitchClass (n : Z) : Z := (n mod 12)%Z.

(** No string occurs twice. *)
Fixpoint distinct (names : list String.string) : bool :=
  match names with
  | [] => true
  | name :: rest => negb (existsb (String.eqb name) rest) && distinct rest
  end.

(** The notes the fretboard can show: from the lowest open string to the
    last fret of the highest string. *)
Definition playable (type : InstrumentType) (noteMidi : Z) : bool :=
  match type with
  | Guitar => (40 <=? noteMidi) && (noteMidi <=? 76)
  | _ => (55 <=? noteMidi) && (noteMidi <=? 86)
  end%Z.

(** How far [getChordNotes] moves the root away from its own pitch class:
    the base note of each instrument, taken from C. *)
Definition transposition (instrument : InstrumentType) : Z :=
  match instrument with
  | Piano => 0
  | Guitar => 4
  | Violin => 7
  end.


(** ** [src/components/StringInstrument.tsx]: dots on the fretboard *)

Module StringInstrument.

(** Top to bottom visually (high pitch to low pitch). *)
Definition stringBaseNotes (type : InstrumentType) : list Z :=
  match type with
  | Guitar => [64; 59; 55; 50; 45; 40]
  | _ => [76; 69; 62; 55]
  end%Z.

Definition frets (type : InstrumentType) : Z :=
  match type with
  | Guitar => 12
  | _ => 10
  end%Z.

Record Position := {
  stringIdx : nat;
  fret : Z
}.

(** The [for] loop over the strings, from string [s] on, up to its
    [break]. *)
Fixpoint firstPosition (frets noteMidi : Z) (strings : list Z) (s : nat)
    : option Position :=
  match strings with
  | [] => None
  | base :: rest =>
      let fret := (noteMidi - base)%Z in
      if ((0 <=? fret) && (fret <=? frets))%Z
      then Some {| stringIdx := s; fret := fret |}
      else firstPosition frets noteMidi rest (S s)
  end.

(** [positions]: each active note pushes at most one position. *)
Definition positions (type : InstrumentType) (activeNotes : list Z)
    : list Position :=
  flat_map
    (fun noteMidi =>
       match firstPosition (frets type) noteMidi (stringBaseNotes type) 0 with
       | Some p => [p]
       | None => []
       end)
    activeNotes.

End StringInstrument.

(** ** [src/unnamed/part_002]: the piano keyboard *)

Module Keyboard.

Definition startNote : Z := 48.
Definition endNote : Z := 84.

Definition isBlackKey (n : Z) : bool :=
  let i := Z.rem n 12 in
  ((i =? 1) || (i =? 3) || (i =? 6) || (i =? 8) || (i =? 10))%Z.

Record Key := {
  midi : Z;
  black : bool;
  isActive : bool
}.

(** The values [i] takes in [for (let i = lo; i <= hi; i++)]. *)
Definition upTo (lo hi : Z) : list Z :=
  map (fun k => (lo + Z.of_nat k)%Z) (seq 0 (Z.to_nat (hi - lo + 1))).

Definition keys (activeNotes : list Z) : list Key :=
  map (fun i => {| midi := i; black := isBlackKey i;
                   isActive := existsb (Z.eqb i) activeNotes |})
      (upTo startNote endNote).

Definition whiteKeys (activeNotes : list Z) : list Key :=
  filter (fun k => negb (black k)) (keys activeNotes).

Definition blackKeys (activeNotes : list Z) : list Key :=
  filter (fun k => black k) (keys activeNotes).

(** [xs.findIndex(p)], counting from [i]; [-1] when there is none. *)
Fixpoint findIndex {A} (p : A -> bool) (xs : list A) (i : Z) : Z :=
  match xs with
  | [] => (-1)%Z
  | x :: rest => if p x then i else findIndex p rest (i + 1)%Z
  end.

(** Where a black key is drawn, in rem: 3 rem per white key, the black key
    2 rem wide. *)
Definition leftPos (activeNotes : list Z) (key : Key) : Z :=
  let whiteIndex :=
    findIndex (fun wk => (midi wk =? midi key - 1)%Z) (whiteKeys activeNotes) 0 in
  ((whiteIndex + 1) * 3 - 1)%Z.

End Keyboard.

(** The notes of the white keys and of the black keys, in order. *)
Definition whiteMidi : list Z :=
  filter (fun i => negb (Keyboard.isBlackKey i))
         (Keyboard.upTo Keyboard.startNote Keyboard.endNote).

Definition blackMidi : list Z :=
  filter Keyboard.isBlackKey (Keyboard.upTo Keyboard.startNote Keyboard.endNote).

(** ** The practice session *)

(** The attempts counted so far. *)
Definition attempts (s : App.State) : Z :=
  (App.correct (App.currentScore s) + App.wrong (App.currentScore s))%Z.

(** [Math.random()] returns a number from 0 up to, not including, 1. *)
Definition drawn (e : App.Event) : Prop :=
  match e with
  | App.clickPractice _ _ u | App.clickNextRound u => 0 <= u < 1
  | _ => True
  end.

(** The events that begin a round, and those that leave it going. *)
Definition startsRound (e : App.Event) (s : App.State) : bool :=
  match e with
  | App.clickPractice _ _ _ => negb (App.isActive (App.practice s))
  | App.clickNextRound _ =>
      App.isActive (App.practice s) && App.revealed (App.practice s)
  | _ => false
  end.

Definition withinRound (e : App.Event) : bool :=
  match e with
  | App.clickPractice _ _ _ | App.clickNextRound _ => false
  | _ => true
  end.

(** What every state of the component satisfies. *)
Definition sound (s : App.State) : Prop :=
  let p := App.practice s in
  (forall scoreMode, App.interval s = Some scoreMode ->
     App.isActive p = true /\ App.revealed p = false
     /\ scoreMode = App.isScoreMode s)
  /\ (0 <= App.correct (App.currentScore s))%Z
  /\ (0 <= App.wrong (App.currentScore s))%Z
  /\ (App.isActive p = true -> App.isScoreMode s = false ->
      App.correct (App.currentScore s) = 0%Z
      /\ App.wrong (App.currentScore s) = 0%Z)
  /\ (App.revealed p = true -> App.isActive p = true /\ App.timer p = 0%Z)
  /\ (App.isActive p = true ->
      exists chord,
        App.targetChord p = Some chord
        /\ In chord (App.pool (App.practiceFilter s) (App.showInversions s)))
  /\ (App.isActive p = true -> App.revealed p = false ->
      App.interval s = Some (App.isScoreMode s)).

(** A round in progress since [s0]: practice is on, the score mode and the
    target are those of [s0], and the round has added one attempt to the
    count if, in score mode, a mistake was made or the answer is shown. *)
Definition inRound (s0 s : App.State) : Prop :=
  App.isActive (App.practice s) = true
  /\ App.isScoreMode s = App.isScoreMode s0
  /\ App.targetChord (App.practice s) = App.targetChord (App.practice s0)
  /\ attempts s
     = (attempts s0
        + if App.isScoreMode s0
             && (App.hasMadeMistake (App.practice s)
                 || App.revealed (App.practice s))
          then 1 else 0)%Z
  /\ (App.correct (App.currentScore s0) <= App.correct (App.currentScore s))%Z
  /\ (App.wrong (App.currentScore s0) <= App.wrong (App.currentScore s))%Z.

(** ** Schedules *)

(** A call that schedules nothing before [now] and ramps exponentially to
    positive values only ([exponentialRampToValueAtTime] throws on 0). *)
Definition scheduledFrom (now : R) (c : Call) : Prop :=
  match c with
  | SetValueAtTime _ _ t | HoldValueAtTime _ t | LinearRampToValueAtTime _ _ t
  | CancelScheduledValues _ t | Start _ t | Stop _ t => now <= t
  | ExponentialRampToValueAtTime _ v t => 0 < v /\ now <= t
  | _ => True
  end.

(** The oscillators a trace creates, and those it starts and stops, with
    the times, in program order. *)
Fixpoint oscillatorsCreated (cs : list Call) : list NodeId :=
  match cs with
  | [] => []
  | CreateOscillator n :: rest => n :: oscillatorsCreated rest
  | _ :: rest => oscillatorsCreated rest
  end.

Fixpoint starts (cs : list Call) : list (NodeId * R) :=
  match cs with
  | [] => []
  | Start n t :: rest => (n, t) :: starts rest
  | _ :: rest => starts rest
  end.

Fixpoint stops (cs : list Call) : list (NodeId * R) :=
  match cs with
  | [] => []
  | Stop n t :: rest => (n, t) :: stops rest
  | _ :: rest => stops rest
  end.

(** The calls of [after] that come after those of [before]. *)
Definition since (before after : list Call) : list Call :=
  skipn (length before) after.

(** ** Straight-line audio code *)

Section Uniform.

Lemma graft_assoc k k1 k2 : graft k (graft k1 k2) = graft (graft k k1) k2.
Proof. unfold graft; cbn. now rewrite app_assoc. Qed.

Lemma uniform_ret {A} (a : A) : uniform (ret a).
Proof. intros k. unfold ret, graft; cbn. rewrite app_nil_r. now destruct k. Qed.

Lemma uniform_emit c : uniform (emit c).
Proof. intros k. reflexivity. Qed.

Lemma uniform_create mk : uniform (create mk).
Proof. intros k. reflexivity. Qed.

Lemma uniform_bind {A B} (m : Audio A) (f : A -> Audio B) :
  uniform m -> (forall a, uniform (f a)) -> uniform (bind m f).
Proof.
  intros Hm Hf k. unfold bind.
  rewrite (Hm k).
  destruct (m (blank (fresh k))) as [a k1] eqn:E.
  pose proof (Hm (blank (fresh k))) as E'. cbn [blank fresh] in E'.
  rewrite E in E'. cbn [fst snd] in *.
  injection E' as E'.
  rewrite (Hf a (graft k k1)). cbn [graft fresh].
  rewrite (Hf a k1). cbn [fst snd].
  now rewrite graft_assoc.
Qed.

Lemma uniform_run {A} (m : Audio A) k :
  uniform m ->
  m k = (result m (fresh k),
         {| currentTime := currentTime k; state := state k;
            sampleRate := sampleRate k; fresh := next m (fresh k);
            calls := calls k ++ effects m (fresh k) |}).
Proof. intros H. now rewrite (H k). Qed.

Lemma bind_run {A B} (m : Audio A) (f : A -> Audio B) base :
  uniform m -> (forall a, uniform (f a)) ->
  result (bind m f) base = result (f (result m base)) (next m base)
  /\ effects (bind m f) base
     = effects m base ++ effects (f (result m base)) (next m base)
  /\ next (bind m f) base = next (f (result m base)) (next m base).
Proof.
  intros Hm Hf. unfold result, effects, next, bind.
  pose proof (Hm (blank base)) as E. cbn [blank fresh] in E.
  destruct (m (blank base)) as [a k1]. cbn [fst snd] in *.
  injection E as E.
  rewrite (Hf a k1). cbn [fst snd graft fresh calls].
  repeat split.
Qed.

End Uniform.

Ltac uniformity :=
  repeat match goal with
  | |- uniform (bind _ _) => apply uniform_bind
  | |- uniform (ret _) => apply uniform_ret
  | |- uniform (emit _) => apply uniform_emit
  | |- uniform (create _) => apply uniform_create
  | |- uniform createGain => apply uniform_create
  | |- uniform createOscillator => apply uniform_create
  | |- uniform createBiquadFilter => apply uniform_create
  | |- uniform createConvolver => apply uniform_create
  | |- forall _, _ => intro
  | |- uniform _ => assumption
  end.

Section Collect.

Lemma collect_run {A} (m1 m2 : Audio (list A)) base :
  uniform m1 -> uniform m2 ->
  let m := bind m1 (fun a => bind m2 (fun b => ret (a ++ b))) in
  result m base = result m1 base ++ result m2 (next m1 base)
  /\ effects m base = effects m1 base ++ effects m2 (next m1 base)
  /\ next m base = next m2 (next m1 base).
Proof.
  intros U1 U2 m. subst m.
  destruct (bind_run m1 (fun a => bind m2 (fun b => ret (a ++ b))) base)
    as (Er & Ee & En); [assumption | intro; uniformity |].
  destruct (bind_run m2 (fun b => ret (result m1 base ++ b)) (next m1 base))
    as (Er' & Ee' & En'); [assumption | intro; uniformity |].
  rewrite Er, Ee, En, Er', Ee', En'.
  unfold result, effects, next, ret; cbn. now rewrite app_nil_r.
Qed.

Lemma startTimes_app a b : startTimes (a ++ b) = startTimes a ++ startTimes b.
Proof.
  induction a as [|c a IH]; [reflexivity|].
  destruct c; cbn; now rewrite ?IH.
Qed.

Lemma madeBetween_widen lo hi lo' hi' h :
  (lo' <= lo)%nat -> (hi <= hi')%nat -> madeBetween lo hi h -> madeBetween lo' hi' h.
Proof.
  intros Hlo Hhi [Hne Hall]. split; [assumption|].
  eapply Forall_impl; [|exact Hall]. cbn; intros; lia.
Qed.

End Collect.

(** Running straight-line code on a context, by computation. *)
Ltac run_audio :=
  cbv [result effects next exec bind emit create ret blank graft
       createOscillator createGain createBiquadFilter createConvolver
       Legacy.voice Engine.voice Engine.synthesis Engine.cleanupHandlers
       fst snd calls fresh currentTime state sampleRate app].

(** ** The handles *)

Section Handles.

Lemma uniform_stopAll oscs t : uniform (stopAll oscs t).
Proof. induction oscs; cbn [stopAll]; uniformity. Qed.

Lemma uniform_invokeRelease f t : uniform (invokeRelease f t).
Proof.
  destruct f; cbn [invokeRelease]; uniformity. apply uniform_stopAll.
Qed.

Lemma uniform_releaseEach nodes t : uniform (releaseEach nodes t).
Proof.
  induction nodes; cbn [releaseEach]; uniformity.
  apply uniform_invokeRelease.
Qed.

Lemma stopAll_run oscs t base :
  effects (stopAll oscs t) base = map (fun o => Stop o t) oscs
  /\ next (stopAll oscs t) base = base.
Proof.
  revert base. induction oscs as [|o rest IH]; intros base; cbn [stopAll map].
  - now split.
  - destruct (bind_run (emit (Stop o t)) (fun _ => stopAll rest t) base)
      as (_ & E & N); [uniformity | intro; apply uniform_stopAll |].
    rewrite E, N. destruct (IH (next (emit (Stop o t)) base)) as (E' & N').
    rewrite E', N'. now split.
Qed.

Lemma invokeRelease_run f t base :
  effects (invokeRelease f t) base = releaseCalls f t
  /\ next (invokeRelease f t) base = base.
Proof.
  destruct f as [|g oscs]; cbn [invokeRelease releaseCalls].
  - now split.
  - unfold effects, next, bind, emit. cbn.
    pose proof (uniform_stopAll oscs (t + 0.35)) as U.
    rewrite U. cbn.
    destruct (stopAll_run oscs (t + 0.35) base) as (E & N).
    unfold effects, next in E, N. now rewrite E, N.
Qed.

Lemma releaseEach_run nodes t base :
  effects (releaseEach nodes t) base
  = flat_map (fun h => releaseCalls (release h) t) nodes
  /\ next (releaseEach nodes t) base = base.
Proof.
  revert base. induction nodes as [|h rest IH]; intros base;
    cbn [releaseEach flat_map].
  - now split.
  - destruct (bind_run (invokeRelease (release h) t)
                (fun _ => releaseEach rest t) base) as (_ & E & N);
      [apply uniform_invokeRelease | intro; apply uniform_releaseEach |].
    rewrite E, N.
    destruct (invokeRelease_run (release h) t base) as (E1 & N1).
    rewrite E1, N1. destruct (IH base) as (E2 & N2). now rewrite E2, N2.
Qed.

(** Draining a registry: the calls of each [release], in registration
    order, and nothing else. *)
Lemma releaseEach_exec nodes t k :
  exec (releaseEach nodes t) k
  = {| currentTime := currentTime k; state := state k;
       sampleRate := sampleRate k; fresh := fresh k;
       calls := calls k ++ flat_map (fun h => releaseCalls (release h) t) nodes |}.
Proof.
  unfold exec. rewrite (uniform_run _ k (uniform_releaseEach nodes t)).
  destruct (releaseEach_run nodes t (fresh k)) as (E & N).
  cbn [snd]. now rewrite E, N.
Qed.

End Handles.

(** ** [Legacy]: one note, then one chord *)

Section LegacyVoice.

Variables (master : NodeId) (now : R) (instrument : InstrumentType)
  (timbre : PianoTimbre) (us : nat -> R).

Lemma legacy_uniform_voice freq startTime u :
  uniform (Legacy.voice master freq startTime instrument timbre u).
Proof.
  unfold Legacy.voice. destruct instrument, timbre; uniformity.
Qed.

Lemma legacy_voice_run freq startTime u base :
  let m := Legacy.voice master freq startTime instrument timbre u in
  length (result m base) = legacyEntries instrument
  /\ startTimes (effects m base) = repeat startTime (legacyOscillators instrument)
  /\ (base < next m base)%nat
  /\ Forall (madeBetween base (next m base)) (result m base).
Proof.
  destruct instrument, timbre; run_audio;
    cbv [madeBetween captured stopNodes releaseNodes stop release app];
    repeat split; try lia; repeat constructor; try discriminate; lia.
Qed.

Lemma legacy_uniform_forEach midiNotes index :
  uniform (Legacy.forEach master now instrument timbre us midiNotes index).
Proof.
  revert index. induction midiNotes; intros index; cbn [Legacy.forEach];
    uniformity.
  - apply legacy_uniform_voice.
  - apply IHmidiNotes.
Qed.

Lemma legacy_forEach_run midiNotes index base :
  let m := Legacy.forEach master now instrument timbre us midiNotes index in
  length (result m base) = (legacyEntries instrument * length midiNotes)%nat
  /\ startTimes (effects m base)
     = flat_map (fun i => repeat (now + Legacy.stagger instrument i)
                                (legacyOscillators instrument))
                (seq index (length midiNotes))
  /\ (base <= next m base)%nat
  /\ Forall (madeBetween base (next m base)) (result m base).
Proof.
  revert index base.
  induction midiNotes as [|note rest IH]; intros index base.
  - cbn. repeat split; try lia. constructor.
  - cbn [Legacy.forEach].
    set (v := Legacy.voice master (midiToFreq note)
                (now + Legacy.stagger instrument index) instrument timbre (us index)).
    destruct (collect_run v
                (Legacy.forEach master now instrument timbre us rest (S index)) base)
      as (Er & Ee & En);
      [apply legacy_uniform_voice | apply legacy_uniform_forEach |].
    cbv zeta in Er, Ee, En. rewrite Er, Ee, En. clear Er Ee En.
    destruct (legacy_voice_run (midiToFreq note)
                (now + Legacy.stagger instrument index) (us index) base)
      as (L1 & S1 & N1 & M1). fold v in L1, S1, N1, M1.
    destruct (IH (S index) (next v base)) as (L2 & S2 & N2 & M2).
    cbv zeta in L2, S2, N2, M2.
    repeat split.
    + rewrite length_app, L1, L2. cbn [length]. lia.
    + rewrite startTimes_app, S1, S2. reflexivity.
    + lia.
    + apply Forall_app. split.
      * eapply Forall_impl; [|exact M1]. intros h. apply madeBetween_widen; lia.
      * eapply Forall_impl; [|exact M2]. intros h. apply madeBetween_widen; lia.
Qed.

End LegacyVoice.

(** ** [Legacy]: the engine's three entry points *)

Ltac run_legacy :=
  cbv [Legacy.startChord Legacy.stopChord Legacy.init Legacy.forEach
       Legacy.audioEngine Legacy.ctx Legacy.masterGain Legacy.activeNodes
       Legacy.voice Legacy.callStartChord Legacy.callStopChord Legacy.playNotes
       Legacy.boot Legacy.this Legacy.drawn Legacy.timers Legacy.clock
       Legacy.platform Legacy.random Legacy.draws
       legacyLater legacyCalls legacyNow option_map tick browser page
       halves zeros
       newAudioContext hwState hwRate resume releaseEach invokeRelease stopAll
       release stop
       result effects next exec bind emit create ret blank graft
       createOscillator createGain createBiquadFilter createConvolver
       fst snd calls fresh currentTime state sampleRate app length].

Section LegacyEngine.

Variable p : Platform.

Lemma legacy_init_running e k :
  Legacy.ctx e = Some k -> state k = running -> Legacy.init p e = e.
Proof.
  intros Hk Hs. unfold Legacy.init. rewrite Hk. cbn. rewrite Hk, Hs. reflexivity.
Qed.

Lemma legacy_init_ready e :
  legacyWellFormed e ->
  exists k m,
    Legacy.ctx (Legacy.init p e) = Some k
    /\ Legacy.masterGain (Legacy.init p e) = Some m
    /\ (m < fresh k)%nat
    /\ state k = running
    /\ Legacy.activeNodes (Legacy.init p e) = Legacy.activeNodes e
    /\ Forall (known k) (Legacy.activeNodes e).
Proof.
  unfold legacyWellFormed, Legacy.init. intros W.
  destruct (Legacy.ctx e) as [k|] eqn:Hk.
  - destruct W as ((m & Hm & Hlt) & Hall). cbn. rewrite Hk.
    destruct (state k) eqn:Hs.
    + exists (exec resume k), m. cbn. repeat split; assumption.
    + exists k, m. rewrite Hk. repeat split; assumption.
  - destruct W as (Hm & Ha). cbn.
    destruct (hwState p) eqn:Hs; cbn;
      eexists; exists 0%nat; cbn; rewrite ?Hs, Ha; repeat split;
        try reflexivity; try lia; constructor.
Qed.

Lemma legacy_stopChord_drain e k :
  Legacy.ctx e = Some k ->
  Legacy.stopChord e
  = {| Legacy.ctx := Some (exec (releaseEach (Legacy.activeNodes e) (currentTime k)) k);
       Legacy.masterGain := Legacy.masterGain e;
       Legacy.activeNodes := [] |}.
Proof.
  intros Hk. unfold Legacy.stopChord. rewrite Hk.
  destruct e as [c m a]; cbn in *. subst c.
  destruct a; reflexivity.
Qed.

(** [startChord] once the engine is initialized: drain, then build. *)
Lemma legacy_startChord_built us midiNotes instrument timbre e k m :
  Legacy.ctx (Legacy.init p e) = Some k ->
  Legacy.masterGain (Legacy.init p e) = Some m ->
  let now := currentTime k in
  let drained :=
    exec (releaseEach (Legacy.activeNodes (Legacy.init p e)) now) k in
  let build := Legacy.forEach m now instrument timbre us midiNotes 0 in
  Legacy.startChord p us midiNotes instrument timbre e
  = {| Legacy.ctx := Some (exec build drained);
       Legacy.masterGain := Some m;
       Legacy.activeNodes := fst (build drained) |}.
Proof.
  intros Hk Hm now drained build. unfold Legacy.startChord.
  rewrite (legacy_stopChord_drain _ k Hk). cbn [Legacy.ctx Legacy.masterGain Legacy.activeNodes].
  rewrite Hm. fold now. fold drained.
  assert (Hnow : currentTime drained = now).
  { unfold drained. now rewrite releaseEach_exec. }
  rewrite Hnow. fold build. unfold exec.
  destruct (build drained) as [pushed k']. reflexivity.
Qed.

End LegacyEngine.

Section LegacyChord.

Variables (p : Platform) (us : nat -> R) (midiNotes : list Z)
  (instrument : InstrumentType) (timbre : PianoTimbre).

(** The whole effect of [startChord] on a well-formed engine. *)
Lemma legacy_startChord_run e :
  legacyWellFormed e ->
  exists k m,
    Legacy.ctx (Legacy.init p e) = Some k
    /\ Legacy.masterGain (Legacy.init p e) = Some m
    /\ state k = running
    /\ (m < fresh k)%nat
    /\ Forall (known k) (Legacy.activeNodes e)
    /\ let now := currentTime k in
       let build := Legacy.forEach m now instrument timbre us midiNotes 0 in
       Legacy.startChord p us midiNotes instrument timbre e
       = {| Legacy.ctx :=
              Some {| currentTime := now; state := running;
                      sampleRate := sampleRate k;
                      fresh := next build (fresh k);
                      calls := calls k
                               ++ flat_map (fun h => releaseCalls (release h) now)
                                           (Legacy.activeNodes e)
                               ++ effects build (fresh k) |};
            Legacy.masterGain := Some m;
            Legacy.activeNodes := result build (fresh k) |}.
Proof.
  intros W.
  destruct (legacy_init_ready p e W) as (k & m & Hk & Hm & Hlt & Hs & Ha & Hall).
  exists k, m. repeat split; try assumption.
  intros now build.
  rewrite (legacy_startChord_built p us midiNotes instrument timbre e k m Hk Hm).
  rewrite Ha. fold now. fold build.
  rewrite releaseEach_exec.
  unfold exec.
  rewrite (uniform_run build _
             (legacy_uniform_forEach m now instrument timbre us midiNotes 0)).
  cbn [fst snd fresh calls currentTime state sampleRate].
  rewrite Hs, <- app_assoc. reflexivity.
Qed.

Lemma legacy_startChord_length e :
  legacyWellFormed e ->
  length (Legacy.activeNodes (Legacy.startChord p us midiNotes instrument timbre e))
  = (legacyEntries instrument * length midiNotes)%nat.
Proof.
  intros W.
  destruct (legacy_startChord_run e W) as (k & m & _ & _ & _ & _ & _ & E).
  cbv zeta in E. rewrite E. cbn [Legacy.activeNodes].
  apply (legacy_forEach_run m (currentTime k) instrument timbre us midiNotes 0 (fresh k)).
Qed.

Lemma legacy_startChord_wellFormed e :
  legacyWellFormed e ->
  legacyWellFormed (Legacy.startChord p us midiNotes instrument timbre e).
Proof.
  intros W.
  destruct (legacy_startChord_run e W) as (k & m & _ & _ & _ & Hlt & _ & E).
  cbv zeta in E. rewrite E. unfold legacyWellFormed.
  cbn [Legacy.ctx Legacy.masterGain Legacy.activeNodes fresh].
  destruct (legacy_forEach_run m (currentTime k) instrument timbre us midiNotes 0 (fresh k))
    as (_ & _ & Hn & Hm).
  cbv zeta in Hn, Hm. split.
  - exists m. split; [reflexivity | lia].
  - eapply Forall_impl; [|exact Hm].
    intros h [_ Hh]. unfold known. cbn [fresh].
    eapply Forall_impl; [|exact Hh]. cbn; intros; lia.
Qed.

End LegacyChord.

Section LegacyInvariant.

Lemma legacy_audioEngine_wellFormed : legacyWellFormed Legacy.audioEngine.
Proof. cbv. now split. Qed.

Lemma legacy_stopChord_wellFormed e :
  legacyWellFormed e -> legacyWellFormed (Legacy.stopChord e).
Proof.
  unfold legacyWellFormed. intros W.
  destruct (Legacy.ctx e) as [k|] eqn:Hk.
  - rewrite (legacy_stopChord_drain e k Hk). cbn [Legacy.ctx Legacy.masterGain Legacy.activeNodes].
    rewrite releaseEach_exec. cbn [fresh]. split; [apply W | constructor].
  - unfold Legacy.stopChord. now rewrite Hk, Hk.
Qed.

Lemma legacy_later_wellFormed dt e :
  legacyWellFormed e -> legacyWellFormed (legacyLater dt e).
Proof.
  unfold legacyWellFormed, legacyLater. cbn [Legacy.ctx Legacy.masterGain Legacy.activeNodes].
  destruct (Legacy.ctx e) as [k|]; cbn [option_map]; [|exact (fun W => W)].
  assert (F : fresh (tick dt k) = fresh k) by (unfold tick; now destruct (state k)).
  unfold known. now rewrite F.
Qed.

End LegacyInvariant.

(** ** The single active chord *)

Section SingleActiveChord.

Variable p : Platform.

Lemma legacy_started_running us midiNotes instrument timbre dt e :
  legacyWellFormed e ->
  exists k m,
    Legacy.ctx (legacyLater dt (Legacy.startChord p us midiNotes instrument timbre e))
    = Some k
    /\ Legacy.masterGain
         (legacyLater dt (Legacy.startChord p us midiNotes instrument timbre e))
       = Some m
    /\ state k = running.
Proof.
  intros W.
  destruct (legacy_startChord_run p us midiNotes instrument timbre e W)
    as (k & m & _ & _ & _ & _ & _ & E).
  cbv zeta in E. rewrite E. unfold legacyLater.
  cbn [Legacy.ctx Legacy.masterGain option_map]. unfold tick. cbn [state].
  eexists; exists m. repeat split.
Qed.

Lemma known_not_made k hi h : known k h -> ~ madeBetween (fresh k) hi h.
Proof.
  unfold known, madeBetween. intros K [Hne M].
  destruct (captured h) as [|n rest]; [now apply Hne|].
  inversion K; inversion M; subst. lia.
Qed.

End SingleActiveChord.



(** ** How many handles a chord registers *)

(** C3, as the code has it. [startChord] registers one handle per note for
    Piano and Guitar, whatever the timbre, and two per note for Violin: the
    LFO cleanup entry, then the entry of the note's oscillator. So
    [startChord([60, 64, 67], Piano, Grand)] leaves 3 entries, and an empty
    note list leaves none. *)
Theorem voice_count p us midiNotes instrument timbre e :
  legacyWellFormed e ->
  length (Legacy.activeNodes (Legacy.startChord p us midiNotes instrument timbre e))
  = (legacyEntries instrument * length midiNotes)%nat.
Proof. apply legacy_startChord_length. Qed.

Lemma voice_count_witness :
  legacyWellFormed Legacy.audioEngine
  /\ length (Legacy.activeNodes
       (Legacy.startChord browser halves [60; 64; 67]%Z Piano Grand Legacy.audioEngine))
     = 3%nat
  /\ length (Legacy.activeNodes
       (Legacy.startChord browser halves [] Violin Electric Legacy.audioEngine))
     = 0%nat.
Proof.
  split; [exact legacy_audioEngine_wellFormed|]. split.
  - exact (voice_count browser halves [60; 64; 67]%Z Piano Grand Legacy.audioEngine
             legacy_audioEngine_wellFormed).
  - exact (voice_count browser halves [] Violin Electric Legacy.audioEngine
             legacy_audioEngine_wellFormed).
Defined.

(** C3, as stated, fails for Violin: one note leaves two entries. *)
Lemma voice_count_violin :
  length (Legacy.activeNodes
    (Legacy.startChord browser halves [60]%Z Violin Grand Legacy.audioEngine))
  <> length [60%Z].
Proof. run_legacy. discriminate. Qed.

(** ** [stopChord] *)

(** C4, as the code has it. [stopChord] on an empty registry changes
    nothing and makes no call; a second [stopChord] in a row changes nothing
    more; on an initialized engine it makes the calls of every registered
    [release], at the current clock time and in registration order, and
    clears the registry; before initialization it is a no-op. [startChord]
    returns after [init] and [stopChord], building nothing, when there is no
    master gain; on the engine as constructed it is not a no-op: it creates
    the context and builds the chord. Every operation is a total function:
    nothing can throw. *)
Theorem stopChord_idempotent
    (c : option AudioContext) (m : option NodeId) (a : list ActiveNode)
    (k : AudioContext) (p : Platform) (us : nat -> R) (midiNotes : list Z)
    (instrument : InstrumentType) (timbre : PianoTimbre) :
  let engine c a := {| Legacy.ctx := c; Legacy.masterGain := m;
                       Legacy.activeNodes := a |} in
  Legacy.stopChord (engine c []) = engine c []
  /\ Legacy.stopChord (Legacy.stopChord (engine c a)) = Legacy.stopChord (engine c a)
  /\ Legacy.stopChord (engine (Some k) a)
     = engine
         (Some {| currentTime := currentTime k; state := state k;
                  sampleRate := sampleRate k; fresh := fresh k;
                  calls := calls k
                           ++ flat_map (fun h => releaseCalls (release h) (currentTime k)) a |})
         []
  /\ Legacy.stopChord (engine None a) = engine None a
  /\ Legacy.startChord p us midiNotes instrument timbre
       {| Legacy.ctx := Some k; Legacy.masterGain := None; Legacy.activeNodes := a |}
     = Legacy.stopChord
         (Legacy.init p
            {| Legacy.ctx := Some k; Legacy.masterGain := None;
               Legacy.activeNodes := a |})
  /\ exists k',
       Legacy.ctx (Legacy.startChord p us midiNotes instrument timbre Legacy.audioEngine)
       = Some k'
       /\ In (CreateGain 0%nat) (calls k')
       /\ length (Legacy.activeNodes
            (Legacy.startChord p us midiNotes instrument timbre Legacy.audioEngine))
          = (legacyEntries instrument * length midiNotes)%nat.
Proof.
  intros engine.
  assert (D : forall k0 a0, Legacy.stopChord (engine (Some k0) a0)
     = engine
         (Some {| currentTime := currentTime k0; state := state k0;
                  sampleRate := sampleRate k0; fresh := fresh k0;
                  calls := calls k0
                           ++ flat_map (fun h => releaseCalls (release h) (currentTime k0)) a0 |})
         []).
  { intros k0 a0. rewrite (legacy_stopChord_drain (engine (Some k0) a0) k0 eq_refl).
    cbn [Legacy.activeNodes Legacy.masterGain engine].
    now rewrite releaseEach_exec. }
  assert (E : forall c0, Legacy.stopChord (engine c0 []) = engine c0 []).
  { intros [k0|]; reflexivity. }
  split; [apply E|]. split.
  { destruct c as [k0|]; [|reflexivity]. rewrite D. apply E. }
  split; [apply D|]. split; [reflexivity|]. split.
  { set (e0 := {| Legacy.ctx := Some k; Legacy.masterGain := None;
                  Legacy.activeNodes := a |}).
    assert (M : Legacy.masterGain (Legacy.stopChord (Legacy.init p e0)) = None).
    { unfold Legacy.init. cbn [Legacy.ctx e0].
      destruct (state k); cbn [Legacy.ctx Legacy.masterGain Legacy.activeNodes];
        unfold Legacy.stopChord; cbn [Legacy.ctx Legacy.activeNodes];
        destruct a; reflexivity. }
    unfold Legacy.startChord. rewrite M.
    now destruct (Legacy.ctx (Legacy.stopChord (Legacy.init p e0))). }
  destruct (legacy_startChord_run p us midiNotes instrument timbre Legacy.audioEngine
              legacy_audioEngine_wellFormed) as (k0 & m0 & Hk & _ & _ & _ & _ & R0).
  cbv zeta in R0. rewrite R0. cbn [Legacy.ctx Legacy.activeNodes].
  eexists. split; [reflexivity|]. split.
  - cbn [calls]. apply in_or_app. left.
    revert Hk. unfold Legacy.init. cbn.
    destruct (hwState p); cbn; intros [= <-]; cbn; auto.
  - apply (legacy_forEach_run m0 (currentTime k0) instrument timbre us midiNotes 0 (fresh k0)).
Qed.

(** C4, as stated, fails for [startChord]: called before the engine has
    initialized, it is not a no-op. *)
Lemma startChord_before_init_not_noop :
  Legacy.ctx Legacy.audioEngine = None
  /\ Legacy.startChord browser halves [60]%Z Piano Grand Legacy.audioEngine
     <> Legacy.audioEngine.
Proof.
  split; [reflexivity|]. intros H.
  apply (f_equal (fun e => length (Legacy.activeNodes e))) in H.
  revert H. run_legacy. discriminate.
Qed.

(** ** Release and disposal *)

(** C8 at its failing input. A Violin note is played and the chord is
    stopped [dt] seconds later: the note's oscillator (node 1) is stopped
    0.35 s after the release, and the registry is empty, but the vibrato LFO
    (node 3), started with the note, is never stopped, since the [release]
    of its registry entry does nothing and nothing calls its [stop]. *)
Theorem violin_lfo_never_stopped (dt : R) :
  let e := Legacy.stopChord
             (legacyLater dt
                (Legacy.startChord browser halves [60]%Z Violin Grand
                   Legacy.audioEngine)) in
  Legacy.activeNodes e = []
  /\ (exists t0, In (Start 3%nat t0) (legacyCalls e))
  /\ In (Stop 1%nat (legacyNow e + 0.35)) (legacyCalls e)
  /\ forall t, ~ In (Stop 3%nat t) (legacyCalls e).
Proof.
  run_legacy. cbn [In].
  split; [reflexivity|].
  split; [eexists; repeat first [left; reflexivity | right]|].
  split; [repeat first [left; reflexivity | right]|].
  intros t H.
  repeat (destruct H as [H|H]; [discriminate H|]). exact H.
Qed.

(** ** One-shot playback and its timer *)

Section Timer.

Lemma legacy_stopChord_empties e :
  legacyWellFormed e -> Legacy.activeNodes (Legacy.stopChord e) = [].
Proof.
  unfold legacyWellFormed. intros W.
  destruct (Legacy.ctx e) as [k|] eqn:Hk.
  - now rewrite (legacy_stopChord_drain e k Hk).
  - unfold Legacy.stopChord. rewrite Hk. apply W.
Qed.

Lemma legacy_stopChord_calls e :
  legacyCalls (Legacy.stopChord e)
  = legacyCalls e
    ++ match Legacy.ctx e with
       | Some _ => flat_map (fun h => releaseCalls (release h) (legacyNow e))
                            (Legacy.activeNodes e)
       | None => []
       end.
Proof.
  unfold legacyCalls, legacyNow.
  destruct (Legacy.ctx e) as [k|] eqn:Hk.
  - rewrite (legacy_stopChord_drain e k Hk). cbn [Legacy.ctx].
    now rewrite releaseEach_exec.
  - unfold Legacy.stopChord. rewrite Hk, Hk. now rewrite app_nil_r.
Qed.

Lemma advanceTo_this t r :
  Legacy.activeNodes (Legacy.this (Legacy.advanceTo t r))
  = Legacy.activeNodes (Legacy.this r)
  /\ legacyCalls (Legacy.this (Legacy.advanceTo t r)) = legacyCalls (Legacy.this r)
  /\ Legacy.timers (Legacy.advanceTo t r) = Legacy.timers r
  /\ Legacy.drawn (Legacy.advanceTo t r) = Legacy.drawn r
  /\ (legacyWellFormed (Legacy.this r) ->
      legacyWellFormed (Legacy.this (Legacy.advanceTo t r))).
Proof.
  unfold Legacy.advanceTo. destruct (Legacy.clock r <? t)%N; [|tauto].
  cbn [Legacy.this Legacy.timers Legacy.drawn Legacy.activeNodes].
  repeat split.
  - unfold legacyCalls. cbn [Legacy.ctx].
    destruct (Legacy.ctx (Legacy.this r)) as [k|]; [|reflexivity].
    cbn [option_map]. unfold tick. now destruct (state k).
  - apply (legacy_later_wellFormed _ (Legacy.this r)).
Qed.

Lemma advanceTo_clock t r :
  Legacy.clock (Legacy.advanceTo t r) = N.max (Legacy.clock r) t.
Proof.
  unfold Legacy.advanceTo. destruct (Legacy.clock r <? t)%N eqn:E.
  - apply N.ltb_lt in E. cbn. lia.
  - apply N.ltb_ge in E. lia.
Qed.

End Timer.

Section OneShot.

Lemma legacy_stopChord_released e :
  legacyWellFormed e ->
  legacyCalls (Legacy.stopChord e)
  = legacyCalls e
    ++ flat_map (fun h => releaseCalls (release h) (legacyNow e)) (Legacy.activeNodes e).
Proof.
  intros W. rewrite legacy_stopChord_calls.
  unfold legacyWellFormed in W.
  destruct (Legacy.ctx e); [reflexivity|].
  destruct W as [_ ->]. reflexivity.
Qed.

End OneShot.

Section Pending.

Lemma find_existsb {A} (f : A -> bool) (xs : list A) :
  match find f xs with
  | None => existsb f xs = false
  | Some _ => existsb f xs = true
  end.
Proof.
  induction xs as [|x rest IH]; [reflexivity|].
  cbn [find existsb]. destruct (f x); [reflexivity | exact IH].
Qed.

(** The timers of [pending] that are due fire: the first of them releases
    what is registered, at its own instant, and the others find the registry
    empty. *)
Lemma fire_spec target pending : forall r,
  legacyWellFormed (Legacy.this r) ->
  let r' := Legacy.fire target pending r in
  Legacy.timers r' = filter (fun due => (target <? due)%N) pending
  /\ Legacy.drawn r' = Legacy.drawn r
  /\ legacyWellFormed (Legacy.this r')
  /\ (Legacy.clock r <= Legacy.clock r')%N
  /\ ((Legacy.clock r <= target)%N -> (Legacy.clock r' <= target)%N)
  /\ match find (fun due => (due <=? target)%N) pending with
     | None => Legacy.this r' = Legacy.this r
     | Some first =>
         Legacy.activeNodes (Legacy.this r') = []
         /\ legacyCalls (Legacy.this r')
            = legacyCalls (Legacy.this r)
              ++ flat_map (fun v => releaseCalls (release v)
                                      (legacyNow (Legacy.this (Legacy.advanceTo first r))))
                          (Legacy.activeNodes (Legacy.this r))
     end.
Proof.
  induction pending as [|due rest IH]; intros r W.
  - cbn. repeat split; try assumption; lia.
  - cbn [Legacy.fire find filter].
    destruct (N.leb_spec due target) as [Hle|Hgt].
    + assert (Hlt : (target <? due)%N = false) by (apply N.ltb_ge; lia).
      rewrite Hlt.
      destruct (advanceTo_this due r) as (A1 & C1 & _ & D1 & W1).
      set (r1 := Legacy.callStopChord (Legacy.advanceTo due r)).
      assert (Wr1 : legacyWellFormed (Legacy.this r1)).
      { apply legacy_stopChord_wellFormed, W1, W. }
      assert (Ar1 : Legacy.activeNodes (Legacy.this r1) = []).
      { apply legacy_stopChord_empties, W1, W. }
      assert (Cr1 : legacyCalls (Legacy.this r1)
                    = legacyCalls (Legacy.this r)
                      ++ flat_map (fun v => releaseCalls (release v)
                                     (legacyNow (Legacy.this (Legacy.advanceTo due r))))
                                  (Legacy.activeNodes (Legacy.this r))).
      { unfold r1. cbn [Legacy.callStopChord Legacy.this].
        rewrite (legacy_stopChord_released _ (W1 W)), C1, A1. reflexivity. }
      assert (Kr1 : Legacy.clock r1 = N.max (Legacy.clock r) due).
      { unfold r1. cbn [Legacy.callStopChord Legacy.clock]. apply advanceTo_clock. }
      destruct (IH r1 Wr1) as (T & D & W' & K1 & K2 & F).
      cbv zeta in T, D, W', K1, K2, F.
      split; [exact T|]. split; [rewrite D; exact D1|]. split; [exact W'|].
      split; [lia|]. split; [intros Hk; apply K2; lia|].
      destruct (find (fun d => (d <=? target)%N) rest) as [second|].
      * destruct F as [A C]. split; [exact A|].
        rewrite C, Ar1, Cr1. cbn [flat_map]. now rewrite app_nil_r.
      * rewrite F. split; [exact Ar1 | exact Cr1].
    + assert (Hlt : (target <? due)%N = true) by (apply N.ltb_lt; lia).
      rewrite Hlt.
      destruct (IH r W) as (T & D & W' & K1 & K2 & F).
      cbv zeta in T, D, W', K1, K2, F.
      cbn [Legacy.timers Legacy.drawn Legacy.this Legacy.clock].
      rewrite T. repeat split; assumption.
Qed.

Lemma elapse_spec ms r :
  legacyWellFormed (Legacy.this r) ->
  let target := (Legacy.clock r + ms)%N in
  let r' := Legacy.elapse ms r in
  Legacy.timers r' = filter (fun due => (target <? due)%N) (Legacy.timers r)
  /\ Legacy.clock r' = target
  /\ Legacy.drawn r' = Legacy.drawn r
  /\ legacyWellFormed (Legacy.this r')
  /\ match find (fun due => (due <=? target)%N) (Legacy.timers r) with
     | None =>
         Legacy.activeNodes (Legacy.this r') = Legacy.activeNodes (Legacy.this r)
         /\ legacyCalls (Legacy.this r') = legacyCalls (Legacy.this r)
     | Some first =>
         Legacy.activeNodes (Legacy.this r') = []
         /\ legacyCalls (Legacy.this r')
            = legacyCalls (Legacy.this r)
              ++ flat_map (fun v => releaseCalls (release v)
                                      (legacyNow (Legacy.this (Legacy.advanceTo first r))))
                          (Legacy.activeNodes (Legacy.this r))
     end.
Proof.
  intros W target r'. subst r'. unfold Legacy.elapse. fold target.
  destruct (fire_spec target (Legacy.timers r) r W) as (T & D & W' & K1 & K2 & F).
  cbv zeta in T, D, W', K1, K2, F.
  destruct (advanceTo_this target (Legacy.fire target (Legacy.timers r) r))
    as (A2 & C2 & T2 & D2 & W2).
  rewrite T2, D2, A2, C2, advanceTo_clock.
  split; [exact T|]. split; [unfold target in *; lia|]. split; [exact D|].
  split; [exact (W2 W')|].
  destruct (find (fun d => (d <=? target)%N) (Legacy.timers r)); [exact F|].
  rewrite F. now split.
Qed.

Lemma legacy_handle_wellFormed h r ev :
  legacyWellFormed (Legacy.this r) ->
  legacyWellFormed (Legacy.this (Legacy.handle h r ev)).
Proof.
  intros W. destruct ev; cbn [Legacy.handle].
  - now apply legacy_startChord_wellFormed.
  - now apply legacy_stopChord_wellFormed.
  - now apply legacy_startChord_wellFormed.
  - now apply elapse_spec.
Qed.

Lemma legacy_handle_pending h r ev :
  legacyWellFormed (Legacy.this r) -> pendingSoon r ->
  pendingSoon (Legacy.handle h r ev).
Proof.
  unfold pendingSoon. intros W P. destruct ev; cbn [Legacy.handle].
  - exact P.
  - exact P.
  - cbn [Legacy.playNotes Legacy.callStartChord Legacy.timers Legacy.clock].
    apply Forall_app. split; [exact P|]. constructor; [lia | constructor].
  - destruct (elapse_spec ms r W) as (T & K & _).
    cbv zeta in T, K. rewrite T, K.
    apply Forall_forall. intros due Hin. apply filter_In in Hin as [Hin Hlt].
    apply N.ltb_lt in Hlt. rewrite Forall_forall in P. specialize (P due Hin). lia.
Qed.

Lemma legacy_run_pending h evs : forall r,
  legacyWellFormed (Legacy.this r) -> pendingSoon r ->
  legacyWellFormed (Legacy.this (Legacy.run h evs r))
  /\ pendingSoon (Legacy.run h evs r).
Proof.
  induction evs as [|ev evs IH]; intros r W P; [now split|].
  cbn [Legacy.run fold_left]. apply IH.
  - now apply legacy_handle_wellFormed.
  - now apply legacy_handle_pending.
Qed.

Lemma legacy_boot_pending :
  legacyWellFormed (Legacy.this Legacy.boot) /\ pendingSoon Legacy.boot.
Proof. split; [exact legacy_audioEngine_wellFormed | constructor]. Qed.

Lemma filter_before (pending : list N) (due target : N) :
  (target < due)%N ->
  filter (fun d => (target <? d)%N) (pending ++ [due])
  = filter (fun d => (target <? d)%N) pending ++ [due].
Proof.
  intros H. rewrite filter_app. cbn [filter].
  apply N.ltb_lt in H. now rewrite H.
Qed.

Lemma find_before (pending : list N) (due target : N) :
  (target < due)%N ->
  find (fun d => (d <=? target)%N) (pending ++ [due])
  = find (fun d => (d <=? target)%N) pending.
Proof.
  intros H. induction pending as [|d ds IH].
  - cbn. apply N.leb_gt in H. now rewrite H.
  - cbn [app find]. destruct (d <=? target)%N; [reflexivity | exact IH].
Qed.

Lemma all_due (pending : list N) (target : N) :
  Forall (fun d => (d <= target)%N) pending ->
  filter (fun d => (target <? d)%N) pending = []
  /\ (pending <> [] ->
      forall d0, find (fun d => (d <=? target)%N) pending = Some (hd d0 pending)).
Proof.
  intros F. split.
  - induction F as [|d ds Hd _ IH]; [reflexivity|]. cbn [filter].
    assert (E : (target <? d)%N = false) by (apply N.ltb_ge; lia).
    now rewrite E.
  - intros Hne d0. destruct pending as [|d ds]; [now elim Hne|].
    inversion F as [|? ? Hd _]; subst.
    cbn [find hd]. apply N.leb_le in Hd. now rewrite Hd.
Qed.

Lemma fire_keeps (Q : Legacy.AudioEngine -> Prop) :
  (forall e, Q e -> Q (Legacy.stopChord e)) ->
  (forall dt e, Q e -> Q (legacyLater dt e)) ->
  forall target pending r,
    Q (Legacy.this r) -> Q (Legacy.this (Legacy.fire target pending r)).
Proof.
  intros Hstop Hlater target pending.
  induction pending as [|due rest IH]; intros r H; [exact H|].
  cbn [Legacy.fire]. destruct (due <=? target)%N.
  - apply IH. cbn [Legacy.callStopChord Legacy.this]. apply Hstop.
    unfold Legacy.advanceTo. destruct (Legacy.clock r <? due)%N; [|exact H].
    cbn [Legacy.this]. exact (Hlater _ _ H).
  - cbn [Legacy.this]. now apply IH.
Qed.

Lemma elapse_keeps (Q : Legacy.AudioEngine -> Prop) :
  (forall e, Q e -> Q (Legacy.stopChord e)) ->
  (forall dt e, Q e -> Q (legacyLater dt e)) ->
  forall ms r, Q (Legacy.this r) -> Q (Legacy.this (Legacy.elapse ms r)).
Proof.
  intros Hstop Hlater ms r H. unfold Legacy.elapse.
  pose proof (fire_keeps Q Hstop Hlater (Legacy.clock r + ms)%N (Legacy.timers r) r H)
    as F.
  unfold Legacy.advanceTo. destruct (_ <? _)%N; [|exact F].
  cbn [Legacy.this]. exact (Hlater _ _ F).
Qed.

End Pending.

(** C6. One-shot playback: [playNotes] is [startChord] at once plus a
    timer due 1200 ms later, added to the timers already pending, which are
    all due within those 1200 ms and which it does not cancel. Once the
    delay has elapsed the registry and the list of timers are empty, with
    no explicit [stopChord]: the first timer to fire has released what was
    registered, at its own instant. Before that the new timer is pending,
    and the registry is unchanged until a timer of an earlier [playNotes]
    falls due, and empty from then on. The timer is unconditional: after an
    explicit [stopChord] it still fires, as a no-op; after an explicit
    [startChord] it still fires, and the newer chord's handles are released
    by the first timer that falls due. *)
Theorem one_shot_playback (h : Legacy.Host) (evs : list Legacy.Event)
    (midiNotes : list Z) (instrument : InstrumentType) (timbre : PianoTimbre) :
  let r := Legacy.run h evs Legacy.boot in
  let r1 := Legacy.playNotes h midiNotes instrument timbre r in
  let due := (Legacy.clock r + 1200)%N in
  Legacy.this r1 = Legacy.this (Legacy.callStartChord h midiNotes instrument timbre r)
  /\ Legacy.timers r1 = Legacy.timers r ++ [due]
  /\ Forall (fun d => (Legacy.clock r < d <= due)%N) (Legacy.timers r)
  /\ (forall ms, (ms < 1200)%N ->
        Legacy.timers (Legacy.elapse ms r1)
        = filter (fun d => (Legacy.clock r + ms <? d)%N) (Legacy.timers r) ++ [due]
        /\ Legacy.activeNodes (Legacy.this (Legacy.elapse ms r1))
           = if existsb (fun d => (d <=? Legacy.clock r + ms)%N) (Legacy.timers r)
             then []
             else Legacy.activeNodes (Legacy.this r1))
  /\ (forall ms, (1200 <= ms)%N ->
        Legacy.activeNodes (Legacy.this (Legacy.elapse ms r1)) = []
        /\ Legacy.timers (Legacy.elapse ms r1) = []
        /\ legacyCalls (Legacy.this (Legacy.elapse ms r1))
           = legacyCalls (Legacy.this r1)
             ++ flat_map (fun v => releaseCalls (release v)
                            (legacyNow (Legacy.this
                               (Legacy.advanceTo (hd due (Legacy.timers r1)) r1))))
                         (Legacy.activeNodes (Legacy.this r1)))
  /\ (forall d1 d2, (d1 < 1200)%N -> (1200 <= d1 + d2)%N ->
        let r2 := Legacy.callStopChord (Legacy.elapse d1 r1) in
        Legacy.timers r2
        = filter (fun d => (Legacy.clock r + d1 <? d)%N) (Legacy.timers r) ++ [due]
        /\ Legacy.timers (Legacy.elapse d2 r2) = []
        /\ Legacy.activeNodes (Legacy.this (Legacy.elapse d2 r2)) = []
        /\ legacyCalls (Legacy.this (Legacy.elapse d2 r2)) = legacyCalls (Legacy.this r2))
  /\ (forall d1 d2 notes' instrument' timbre', (d1 < 1200)%N -> (1200 <= d1 + d2)%N ->
        let r2 := Legacy.callStartChord h notes' instrument' timbre'
                    (Legacy.elapse d1 r1) in
        length (Legacy.activeNodes (Legacy.this r2))
        = (legacyEntries instrument' * length notes')%nat
        /\ Legacy.timers r2
           = filter (fun d => (Legacy.clock r + d1 <? d)%N) (Legacy.timers r) ++ [due]
        /\ Legacy.timers (Legacy.elapse d2 r2) = []
        /\ Legacy.activeNodes (Legacy.this (Legacy.elapse d2 r2)) = []
        /\ legacyCalls (Legacy.this (Legacy.elapse d2 r2))
           = legacyCalls (Legacy.this r2)
             ++ flat_map (fun v => releaseCalls (release v)
                            (legacyNow (Legacy.this
                               (Legacy.advanceTo (hd due (Legacy.timers r2)) r2))))
                         (Legacy.activeNodes (Legacy.this r2))).
Proof.
  intros r r1 due.
  destruct (legacy_run_pending h evs Legacy.boot
              (proj1 legacy_boot_pending) (proj2 legacy_boot_pending)) as [W P].
  fold r in W, P. unfold pendingSoon in P. fold due in P.
  assert (T1 : Legacy.timers r1 = Legacy.timers r ++ [due]) by reflexivity.
  assert (C1 : Legacy.clock r1 = Legacy.clock r) by reflexivity.
  assert (W1 : legacyWellFormed (Legacy.this r1)).
  { unfold r1, Legacy.playNotes, Legacy.callStartChord. cbn [Legacy.this].
    now apply legacy_startChord_wellFormed. }
  assert (Stay : forall ms, (ms < 1200)%N ->
            filter (fun d => (Legacy.clock r + ms <? d)%N) (Legacy.timers r ++ [due])
            = filter (fun d => (Legacy.clock r + ms <? d)%N) (Legacy.timers r) ++ [due]).
  { intros ms Hms. apply filter_before. unfold due. lia. }
  assert (Early : forall ms, (ms < 1200)%N ->
            find (fun d => (d <=? Legacy.clock r + ms)%N) (Legacy.timers r ++ [due])
            = find (fun d => (d <=? Legacy.clock r + ms)%N) (Legacy.timers r)).
  { intros ms Hms. apply find_before. unfold due. lia. }
  pose proof all_due as Gone.
  assert (Bound : forall target, (due <= target)%N ->
            Forall (fun d => (d <= target)%N) (Legacy.timers r ++ [due])).
  { intros target Ht. apply Forall_app. split.
    - eapply Forall_impl; [|exact P]. cbv beta. intros d Hd. lia.
    - constructor; [exact Ht | constructor]. }
  assert (Sub : forall ms target, (due <= target)%N ->
            Forall (fun d => (d <= target)%N)
                   (filter (fun d => (Legacy.clock r + ms <? d)%N) (Legacy.timers r)
                    ++ [due])).
  { intros ms target Ht. apply Forall_app. split.
    - apply Forall_forall. intros d Hin. apply filter_In in Hin as [Hin _].
      rewrite Forall_forall in P. specialize (P d Hin). lia.
    - constructor; [exact Ht | constructor]. }
  split; [reflexivity|]. split; [exact T1|]. split; [exact P|].
  split; [|split; [|split]].
  - intros ms Hms.
    destruct (elapse_spec ms r1 W1) as (T & _ & _ & _ & F).
    cbv zeta in T, F. rewrite C1, T1 in T, F.
    rewrite (Stay ms Hms) in T. rewrite (Early ms Hms) in F.
    split; [exact T|].
    pose proof (find_existsb (fun d => (d <=? Legacy.clock r + ms)%N) (Legacy.timers r))
      as X.
    destruct (find (fun d => (d <=? Legacy.clock r + ms)%N) (Legacy.timers r));
      rewrite X; apply F.
  - intros ms Hms.
    destruct (elapse_spec ms r1 W1) as (T & _ & _ & _ & F).
    cbv zeta in T, F. rewrite C1 in T, F.
    destruct (Gone (Legacy.timers r1) (Legacy.clock r + ms)%N) as [G1 G2].
    { rewrite T1. apply Bound. unfold due. lia. }
    rewrite (G2 ltac:(rewrite T1; now destruct (Legacy.timers r)) due) in F.
    rewrite G1 in T. destruct F as [A C]. now repeat split.
  - intros d1 d2 H1 H2 r2.
    destruct (elapse_spec d1 r1 W1) as (T & K & _ & Wf & _).
    cbv zeta in T, K. rewrite C1 in T, K. rewrite T1, (Stay d1 H1) in T.
    assert (T2 : Legacy.timers r2
                 = filter (fun d => (Legacy.clock r + d1 <? d)%N) (Legacy.timers r)
                   ++ [due]) by exact T.
    assert (K2 : Legacy.clock r2 = (Legacy.clock r + d1)%N) by exact K.
    assert (W2 : legacyWellFormed (Legacy.this r2)).
    { apply legacy_stopChord_wellFormed, Wf. }
    assert (A2 : Legacy.activeNodes (Legacy.this r2) = []).
    { apply legacy_stopChord_empties, Wf. }
    destruct (elapse_spec d2 r2 W2) as (T' & _ & _ & _ & F).
    cbv zeta in T', F. rewrite K2 in T', F.
    destruct (Gone (Legacy.timers r2) (Legacy.clock r + d1 + d2)%N) as [G1 G2].
    { rewrite T2. apply Sub. unfold due. lia. }
    rewrite (G2 ltac:(rewrite T2; now destruct (filter _ (Legacy.timers r))) due) in F.
    rewrite G1 in T'. destruct F as [A C].
    split; [exact T2|]. split; [exact T'|]. split; [exact A|].
    rewrite C, A2. cbn [flat_map]. now rewrite app_nil_r.
  - intros d1 d2 notes' instrument' timbre' H1 H2 r2.
    destruct (elapse_spec d1 r1 W1) as (T & K & _ & Wf & _).
    cbv zeta in T, K. rewrite C1 in T, K. rewrite T1, (Stay d1 H1) in T.
    assert (T2 : Legacy.timers r2
                 = filter (fun d => (Legacy.clock r + d1 <? d)%N) (Legacy.timers r)
                   ++ [due]) by exact T.
    assert (K2 : Legacy.clock r2 = (Legacy.clock r + d1)%N) by exact K.
    assert (W2 : legacyWellFormed (Legacy.this r2)).
    { unfold r2, Legacy.callStartChord. cbn [Legacy.this].
      apply legacy_startChord_wellFormed, Wf. }
    destruct (elapse_spec d2 r2 W2) as (T' & _ & _ & _ & F).
    cbv zeta in T', F. rewrite K2 in T', F.
    destruct (Gone (Legacy.timers r2) (Legacy.clock r + d1 + d2)%N) as [G1 G2].
    { rewrite T2. apply Sub. unfold due. lia. }
    rewrite (G2 ltac:(rewrite T2; now destruct (filter _ (Legacy.timers r))) due) in F.
    rewrite G1 in T'. destruct F as [A C].
    split; [|repeat split; assumption].
    unfold r2, Legacy.callStartChord. cbn [Legacy.this].
    apply legacy_startChord_length, Wf.
Qed.

Lemma one_shot_playback_witness :
  Legacy.timers (Legacy.playNotes page [60]%Z Piano Grand Legacy.boot) = [1200%N]
  /\ Legacy.timers
       (Legacy.playNotes page [62]%Z Piano Grand
          (Legacy.run page [Legacy.PlayNotes [60]%Z Piano Grand; Legacy.Elapsed 500]
                      Legacy.boot))
     = [1200%N; 1700%N]
  /\ Legacy.activeNodes
       (Legacy.this (Legacy.elapse 1200
          (Legacy.playNotes page [60]%Z Piano Grand Legacy.boot))) = []
  /\ Legacy.activeNodes
       (Legacy.this (Legacy.elapse 700
          (Legacy.playNotes page [62]%Z Piano Grand
             (Legacy.run page [Legacy.PlayNotes [60]%Z Piano Grand; Legacy.Elapsed 500]
                         Legacy.boot)))) = [].
Proof.
  destruct (one_shot_playback page [] [60]%Z Piano Grand)
    as (_ & T & _ & _ & After & _).
  destruct (one_shot_playback page
              [Legacy.PlayNotes [60]%Z Piano Grand; Legacy.Elapsed 500]
              [62]%Z Piano Grand)
    as (_ & T' & _ & Before & _).
  split; [exact T|]. split; [|split].
  - rewrite T'. clear. vm_compute. reflexivity.
  - destruct (After 1200%N) as [A _]; [lia|]. exact A.
  - destruct (Before 700%N) as [_ A]; [lia|]. rewrite A. clear.
    vm_compute. reflexivity.
Defined.



(** ** Pitch conversion *)

Section Pitch.

Lemma midiToFreq_positive n : 0 < midiToFreq n.
Proof.
  unfold midiToFreq. apply Rmult_lt_0_compat; [lra|].
  unfold Rpower. apply exp_pos.
Qed.

Lemma midiToFreq_semitone n : midiToFreq (n + 1) = midiToFreq n * Rpower 2 (1 / 12).
Proof.
  unfold midiToFreq. rewrite plus_IZR, Rmult_assoc, <- Rpower_plus.
  do 2 f_equal. lra.
Qed.

End Pitch.

(** C2. Pitch conversion: the frequency of note [n] is
    440 * 2^((n - 69) / 12), for every integer [n]; note 69 gives 440 Hz and
    note 81 gives 880 Hz; an octave up doubles the frequency; and the
    frequency increases strictly with the note index. *)
Theorem pitch_conversion :
  (forall n : Z, midiToFreq n = 440 * Rpower 2 ((IZR n - 69) / 12))
  /\ midiToFreq 69 = 440
  /\ midiToFreq 81 = 880
  /\ (forall n : Z, midiToFreq (n + 12) = 2 * midiToFreq n)
  /\ (forall m n : Z, (m < n)%Z -> midiToFreq m < midiToFreq n).
Proof.
  split; [reflexivity|]. split; [|split; [|split]].
  - unfold midiToFreq. replace ((69 - 69) / 12) with 0 by lra.
    rewrite Rpower_O; lra.
  - unfold midiToFreq. replace ((81 - 69) / 12) with 1 by lra.
    rewrite Rpower_1; lra.
  - intros n. unfold midiToFreq. rewrite plus_IZR.
    replace ((IZR n + 12 - 69) / 12) with ((IZR n - 69) / 12 + 1) by lra.
    rewrite Rpower_plus, Rpower_1; lra.
  - intros m n Hlt. unfold midiToFreq.
    apply Rmult_lt_compat_l; [lra|].
    apply Rpower_lt; [lra|].
    apply IZR_lt in Hlt. lra.
Qed.

Lemma pitch_conversion_witness :
  midiToFreq 60 < midiToFreq 64 /\ midiToFreq 69 < midiToFreq 81.
Proof.
  destruct pitch_conversion as (_ & _ & _ & _ & Mono).
  split; apply Mono; lia.
Defined.

(** ** [Engine]: one note, then one chord *)

Section EngineVoice.

Variables (master : NodeId) (now : R) (instrument : InstrumentType)
  (timbre : PianoTimbre).

Lemma engine_uniform_voice freq startTime :
  uniform (Engine.voice master freq startTime instrument timbre).
Proof.
  unfold Engine.voice, Engine.synthesis. destruct instrument, timbre; uniformity.
Qed.

Lemma engine_voice_run freq startTime base :
  let m := Engine.voice master freq startTime instrument timbre in
  length (result m base) = 1%nat
  /\ startTimes (effects m base)
     = repeat startTime (engineOscillators instrument timbre)
  /\ (base < next m base)%nat
  /\ Forall (madeBetween base (next m base)) (result m base)
  /\ Forall (voiceCall base) (effects m base).
Proof.
  destruct instrument, timbre; run_audio;
    cbv [madeBetween captured stopNodes releaseNodes stop release app
         voiceCall isSetBuffer isCreateConvolver subject owner];
    repeat split; try lia;
    repeat first [ constructor | discriminate | lia
                 | split | eexists; split; [reflexivity | lia] ].
Qed.

Lemma engine_uniform_forEach midiNotes index :
  uniform (Engine.forEach master now instrument timbre midiNotes index).
Proof.
  revert index. induction midiNotes; intros index; cbn [Engine.forEach];
    uniformity.
  - apply engine_uniform_voice.
  - apply IHmidiNotes.
Qed.

Lemma voiceCall_widen lo lo' c : (lo' <= lo)%nat -> voiceCall lo c -> voiceCall lo' c.
Proof.
  intros Hle (B & C & n & Hn & Hlo). repeat split; try assumption.
  exists n. split; [assumption | lia].
Qed.

Lemma engine_forEach_run midiNotes index base :
  let m := Engine.forEach master now instrument timbre midiNotes index in
  length (result m base) = length midiNotes
  /\ startTimes (effects m base)
     = flat_map (fun i => repeat (now + Engine.stagger instrument i)
                                (engineOscillators instrument timbre))
                (seq index (length midiNotes))
  /\ (base <= next m base)%nat
  /\ Forall (madeBetween base (next m base)) (result m base)
  /\ Forall (voiceCall base) (effects m base).
Proof.
  revert index base.
  induction midiNotes as [|note rest IH]; intros index base.
  - cbn. repeat split; try lia; constructor.
  - cbn [Engine.forEach].
    set (v := Engine.voice master (midiToFreq note)
                (now + Engine.stagger instrument index) instrument timbre).
    destruct (collect_run v
                (Engine.forEach master now instrument timbre rest (S index)) base)
      as (Er & Ee & En);
      [apply engine_uniform_voice | apply engine_uniform_forEach |].
    cbv zeta in Er, Ee, En. rewrite Er, Ee, En. clear Er Ee En.
    destruct (engine_voice_run (midiToFreq note)
                (now + Engine.stagger instrument index) base)
      as (L1 & S1 & N1 & M1 & V1). fold v in L1, S1, N1, M1, V1.
    destruct (IH (S index) (next v base)) as (L2 & S2 & N2 & M2 & V2).
    cbv zeta in L2, S2, N2, M2, V2.
    repeat split.
    + rewrite length_app, L1, L2. reflexivity.
    + rewrite startTimes_app, S1, S2. reflexivity.
    + lia.
    + apply Forall_app. split.
      * eapply Forall_impl; [|exact M1]. intros h. apply madeBetween_widen; lia.
      * eapply Forall_impl; [|exact M2]. intros h. apply madeBetween_widen; lia.
    + apply Forall_app. split; [exact V1|].
      eapply Forall_impl; [|exact V2]. intros c. apply voiceCall_widen. lia.
Qed.

End EngineVoice.

(** ** [Engine]: the mix bus and the entry points *)

Ltac run_engine :=
  cbv [Engine.startChord Engine.stopChord Engine.init Engine.forEach
       Engine.audioEngine Engine.ctx Engine.masterGain Engine.reverbNode
       Engine.reverbGain Engine.activeNodes Engine.voice Engine.synthesis
       Engine.cleanupHandlers Engine.handle Engine.run fold_left
       engineCalls engineNow option_map tick browser
       newAudioContext hwState hwRate resume releaseEach invokeRelease stopAll
       release stop
       result effects next exec bind emit create ret blank graft
       createOscillator createGain createBiquadFilter createConvolver
       fst snd calls fresh currentTime state sampleRate app length].

Section EngineBus.

Variables (p : Platform) (us : nat -> R).

Lemma engine_init_first :
  Engine.init p us Engine.audioEngine
  = {| Engine.ctx :=
         Some {| currentTime := 0; state := running; sampleRate := hwRate p;
                 fresh := 3%nat;
                 calls := mixBus p us
                          ++ match hwState p with
                             | suspended => [Resume]
                             | running => []
                             end |};
       Engine.masterGain := Some 0%nat;
       Engine.reverbNode := Some 1%nat;
       Engine.reverbGain := Some 2%nat;
       Engine.activeNodes := [] |}.
Proof.
  unfold Engine.init, mixBus. cbn [Engine.ctx Engine.audioEngine].
  run_audio. cbv [newAudioContext]. cbn [Engine.ctx state calls currentTime sampleRate fresh
    Engine.masterGain Engine.reverbNode Engine.reverbGain Engine.activeNodes].
  destruct (hwState p) eqn:Hs; cbv [exec resume snd]; cbn; rewrite ?Hs; reflexivity.
Qed.

Lemma engine_init_running e k :
  Engine.ctx e = Some k -> state k = running -> Engine.init p us e = e.
Proof.
  intros Hk Hs. unfold Engine.init. rewrite Hk. cbn. rewrite Hk, Hs. reflexivity.
Qed.

Lemma forallb_quiet_app a b :
  forallb quiet a = true -> forallb quiet b = true -> forallb quiet (a ++ b) = true.
Proof. intros A B. now rewrite forallb_app, A, B. Qed.

Lemma releaseCalls_quiet hi h t :
  madeBetween 3%nat hi h -> forallb quiet (releaseCalls (release h) t) = true.
Proof.
  intros [_ M]. unfold captured in M. apply Forall_app in M as [_ M].
  destruct (release h) as [|g oscs]; [reflexivity|].
  cbn [releaseNodes] in M. inversion M as [|? ? Hg Hoscs]; subst.
  assert (G : (3 <=? g)%nat = true) by (apply Nat.leb_le; lia).
  cbn [releaseCalls]. apply forallb_quiet_app.
  - cbv [forallb quiet isSetBuffer isCreateConvolver subject owner negb andb].
    now rewrite G.
  - clear G Hg M. induction Hoscs as [|o rest Ho _ IH]; [reflexivity|].
    cbn [map forallb]. rewrite IH.
    cbv [quiet isSetBuffer isCreateConvolver subject negb andb].
    assert (O : (3 <=? o)%nat = true) by (apply Nat.leb_le; lia).
    now rewrite O.
Qed.

Lemma voiceCall_quiet base c : (3 <= base)%nat -> voiceCall base c -> quiet c = true.
Proof.
  intros Hb (B & C & n & Hn & Hle). unfold quiet. rewrite B, C, Hn.
  cbn [negb andb]. apply Nat.leb_le. lia.
Qed.

Lemma engine_stopChord_drain e k :
  Engine.ctx e = Some k ->
  Engine.stopChord e
  = {| Engine.ctx := Some (exec (releaseEach (Engine.activeNodes e) (currentTime k)) k);
       Engine.masterGain := Engine.masterGain e;
       Engine.reverbNode := Engine.reverbNode e;
       Engine.reverbGain := Engine.reverbGain e;
       Engine.activeNodes := [] |}.
Proof.
  intros Hk. unfold Engine.stopChord. rewrite Hk.
  destruct e as [c m rn rg a]; cbn in *. subst c.
  destruct a; reflexivity.
Qed.

Lemma engine_init_ready e :
  engineWellFormed p us e ->
  exists k,
    Engine.ctx (Engine.init p us e) = Some k
    /\ state k = running
    /\ engineWellFormed p us (Engine.init p us e)
    /\ Engine.activeNodes (Engine.init p us e) = Engine.activeNodes e
    /\ startTimes (calls k) = startTimes (engineCalls e)
    /\ (forall k0, Engine.ctx e = Some k0 ->
          fresh k = fresh k0 /\ currentTime k = currentTime k0
          /\ exists more, calls k = calls k0 ++ more /\ forallb quiet more = true).
Proof.
  unfold engineWellFormed at 1. intros W.
  destruct (Engine.ctx e) as [k0|] eqn:Hk.
  - destruct W as (M & Rn & Rg & F & (rest & Hc & Hq) & A).
    unfold Engine.init. rewrite Hk. cbn [Engine.ctx]. rewrite Hk.
    destruct (state k0) eqn:Hs.
    + exists (exec resume k0). unfold engineWellFormed, engineCalls.
      cbn [Engine.ctx Engine.masterGain Engine.reverbNode Engine.reverbGain
           Engine.activeNodes exec resume snd fresh calls state currentTime].
      rewrite Hk.
      split; [reflexivity|]. split; [reflexivity|].
      split; [|split; [reflexivity|split]].
      * split; [exact M|]. split; [exact Rn|]. split; [exact Rg|].
        split; [exact F|]. split; [|exact A].
        exists (rest ++ [Resume]). rewrite Hc, app_assoc. split; [reflexivity|].
        now apply forallb_quiet_app.
      * rewrite startTimes_app. cbn. now rewrite app_nil_r.
      * intros k1 E1. injection E1 as <-.
        split; [reflexivity|]. split; [reflexivity|]. exists [Resume]. now split.
    + exists k0. unfold engineWellFormed, engineCalls. rewrite Hk.
      split; [reflexivity|]. split; [exact Hs|].
      split; [|split; [reflexivity|split; [reflexivity|]]].
      * split; [exact M|]. split; [exact Rn|]. split; [exact Rg|].
        split; [exact F|]. split; [|exact A]. now exists rest.
      * intros k1 E1. injection E1 as <-.
        split; [reflexivity|]. split; [reflexivity|]. exists [].
        now rewrite app_nil_r.
  - subst e. rewrite engine_init_first. eexists. split; [reflexivity|].
    unfold engineWellFormed, engineCalls.
    cbn [Engine.ctx Engine.masterGain Engine.reverbNode Engine.reverbGain
         Engine.activeNodes fresh calls state currentTime Engine.audioEngine].
    split; [reflexivity|]. split; [|split; [reflexivity|split]].
    + split; [reflexivity|]. split; [reflexivity|]. split; [reflexivity|].
      split; [lia|]. split; [|constructor].
      eexists. split; [reflexivity|]. now destruct (hwState p).
    + rewrite startTimes_app. now destruct (hwState p).
    + discriminate.
Qed.

End EngineBus.

Section EngineChord.

Variables (p : Platform) (us : nat -> R) (midiNotes : list Z)
  (instrument : InstrumentType) (timbre : PianoTimbre).

(** The whole effect of [startChord] on a well-formed engine. *)
Lemma engine_startChord_run e :
  engineWellFormed p us e ->
  exists k,
    Engine.ctx (Engine.init p us e) = Some k
    /\ engineWellFormed p us (Engine.init p us e)
    /\ let now := currentTime k in
       let build := Engine.forEach 0%nat now instrument timbre midiNotes 0 in
       Engine.startChord p us midiNotes instrument timbre e
       = {| Engine.ctx :=
              Some {| currentTime := now; state := running;
                      sampleRate := sampleRate k;
                      fresh := next build (fresh k);
                      calls := calls k
                               ++ flat_map (fun h => releaseCalls (release h) now)
                                           (Engine.activeNodes e)
                               ++ effects build (fresh k) |};
            Engine.masterGain := Some 0%nat;
            Engine.reverbNode := Some 1%nat;
            Engine.reverbGain := Some 2%nat;
            Engine.activeNodes := result build (fresh k) |}.
Proof.
  intros W.
  destruct (engine_init_ready p us e W) as (k & Hk & Hs & W0 & Ha & _ & _).
  exists k. split; [exact Hk|]. split; [exact W0|].
  intros now build.
  pose proof W0 as W0'. unfold engineWellFormed in W0'. rewrite Hk in W0'.
  destruct W0' as (M & Rn & Rg & _).
  unfold Engine.startChord.
  rewrite (engine_stopChord_drain _ k Hk).
  cbn [Engine.ctx Engine.masterGain Engine.reverbNode Engine.reverbGain
       Engine.activeNodes].
  rewrite M, Rn, Rg, Ha, releaseEach_exec.
  cbn [currentTime]. fold now. fold build.
  rewrite (uniform_run build _
             (engine_uniform_forEach 0%nat now instrument timbre midiNotes 0)).
  cbn [fst snd fresh calls currentTime state sampleRate app].
  rewrite Hs, <- app_assoc. reflexivity.
Qed.

Lemma engine_startChord_wellFormed e :
  engineWellFormed p us e ->
  engineWellFormed p us (Engine.startChord p us midiNotes instrument timbre e).
Proof.
  intros W.
  destruct (engine_startChord_run e W) as (k & Hk & W0 & E).
  destruct (engine_init_ready p us e W) as (k' & Hk' & _ & _ & Ha & _ & _).
  rewrite Hk in Hk'. injection Hk' as <-.
  cbv zeta in E. rewrite E. clear E.
  unfold engineWellFormed in W0. rewrite Hk in W0.
  destruct W0 as (_ & _ & _ & F & (rest & Hc & Hq) & A). rewrite Ha in A.
  destruct (engine_forEach_run 0%nat (currentTime k) instrument timbre midiNotes 0 (fresh k))
    as (_ & _ & Hn & Hm & Hv).
  cbv zeta in Hn, Hm, Hv.
  unfold engineWellFormed.
  cbn [Engine.ctx Engine.masterGain Engine.reverbNode Engine.reverbGain
       Engine.activeNodes fresh calls].
  split; [reflexivity|]. split; [reflexivity|]. split; [reflexivity|].
  split; [lia|]. split.
  - eexists. rewrite Hc, <- app_assoc. split; [reflexivity|].
    apply forallb_quiet_app; [exact Hq|]. apply forallb_quiet_app.
    + clear -A. induction A as [|h hs Hh _ IH]; [reflexivity|].
      cbn [flat_map]. apply forallb_quiet_app; [|exact IH].
      exact (releaseCalls_quiet _ h _ Hh).
    + apply forallb_forall. intros c Hin.
      rewrite Forall_forall in Hv.
      exact (voiceCall_quiet (fresh k) c F (Hv c Hin)).
  - eapply Forall_impl; [|exact Hm]. intros h. apply madeBetween_widen; lia.
Qed.

End EngineChord.

(** ** The mix bus is built once *)

Section MixBus.

Variables (p : Platform) (us : nat -> R).

Lemma engine_stopChord_wellFormed e :
  engineWellFormed p us e -> engineWellFormed p us (Engine.stopChord e).
Proof.
  unfold engineWellFormed at 1. intros W.
  destruct (Engine.ctx e) as [k|] eqn:Hk.
  - rewrite (engine_stopChord_drain e k Hk). unfold engineWellFormed.
    cbn [Engine.ctx Engine.masterGain Engine.reverbNode Engine.reverbGain
         Engine.activeNodes].
    rewrite releaseEach_exec. cbn [fresh calls].
    destruct W as (M & Rn & Rg & F & (rest & Hc & Hq) & A).
    split; [exact M|]. split; [exact Rn|]. split; [exact Rg|].
    split; [exact F|]. split; [|constructor].
    eexists. rewrite Hc, <- app_assoc. split; [reflexivity|].
    apply forallb_quiet_app; [exact Hq|].
    clear -A. induction A as [|h hs Hh _ IH]; [reflexivity|].
    cbn [flat_map]. apply forallb_quiet_app; [|exact IH].
    exact (releaseCalls_quiet _ h _ Hh).
  - subst e. reflexivity.
Qed.

Lemma engine_handle_wellFormed e ev :
  engineWellFormed p us e -> engineWellFormed p us (Engine.handle p us e ev).
Proof.
  intros W. destruct ev; cbn [Engine.handle].
  - now apply engine_startChord_wellFormed.
  - now apply engine_stopChord_wellFormed.
  - now apply engine_startChord_wellFormed.
  - now apply engine_stopChord_wellFormed.
  - revert W. unfold engineWellFormed.
    cbn [Engine.ctx Engine.masterGain Engine.reverbNode Engine.reverbGain
         Engine.activeNodes].
    destruct (Engine.ctx e) as [k|]; cbn [option_map].
    + unfold tick. destruct (state k); cbn [fresh calls]; exact (fun W => W).
    + intros ->. reflexivity.
Qed.

Lemma engine_handle_initialized e ev :
  engineWellFormed p us e ->
  (Engine.ctx e <> None \/ triggers ev = true) ->
  Engine.ctx (Engine.handle p us e ev) <> None.
Proof.
  intros W H.
  assert (S0 : forall n i t, Engine.ctx (Engine.startChord p us n i t e) <> None).
  { intros n i t. destruct (engine_startChord_run p us n i t e W) as (k & _ & _ & E).
    cbv zeta in E. now rewrite E. }
  destruct ev; cbn [Engine.handle]; try apply S0;
    destruct H as [H|H]; try discriminate H;
    destruct (Engine.ctx e) as [k|] eqn:Hk; try (now elim H).
  - now rewrite (engine_stopChord_drain e k Hk).
  - now rewrite (engine_stopChord_drain e k Hk).
  - cbn [Engine.ctx option_map]. discriminate.
Qed.

Lemma engine_handle_idle ev :
  triggers ev = false -> Engine.handle p us Engine.audioEngine ev = Engine.audioEngine.
Proof. destruct ev; intros H; try discriminate H; reflexivity. Qed.

Lemma engine_run_wellFormed evs e :
  engineWellFormed p us e -> engineWellFormed p us (Engine.run p us evs e).
Proof.
  revert e. induction evs as [|ev evs IH]; intros e W; [exact W|].
  cbn [Engine.run fold_left]. apply IH, engine_handle_wellFormed, W.
Qed.

Lemma engine_run_initialized evs e :
  engineWellFormed p us e ->
  (Engine.ctx e <> None \/ existsb triggers evs = true) ->
  Engine.ctx (Engine.run p us evs e) <> None.
Proof.
  revert e. induction evs as [|ev evs IH]; intros e W H.
  - destruct H as [H|H]; [exact H | discriminate H].
  - cbn [Engine.run fold_left]. apply IH; [apply engine_handle_wellFormed, W|].
    cbn [existsb] in H. destruct (triggers ev) eqn:T.
    + left. apply engine_handle_initialized; [exact W | now right].
    + destruct H as [H|H]; [|now right].
      left. apply engine_handle_initialized; [exact W | now left].
Qed.

Lemma engine_run_idle evs :
  existsb triggers evs = false ->
  Engine.run p us evs Engine.audioEngine = Engine.audioEngine.
Proof.
  induction evs as [|ev evs IH]; intros H; [reflexivity|].
  cbn [existsb] in H. apply orb_false_iff in H as [T H].
  cbn [Engine.run fold_left]. rewrite (engine_handle_idle ev T). apply IH, H.
Qed.

End MixBus.

(** ** One chord at a time *)

Section SingleChordEngine.

Variables (p : Platform) (us : nat -> R).

Lemma engine_started_running midiNotes instrument timbre dt e :
  engineWellFormed p us e ->
  let e1 := Engine.handle p us (Engine.startChord p us midiNotes instrument timbre e)
                          (Engine.Elapsed dt) in
  engineWellFormed p us e1
  /\ exists k,
       Engine.ctx e1 = Some k /\ Engine.masterGain e1 = Some 0%nat
       /\ state k = running.
Proof.
  intros W e1. split.
  - apply engine_handle_wellFormed, engine_startChord_wellFormed, W.
  - destruct (engine_startChord_run p us midiNotes instrument timbre e W)
      as (k & _ & _ & E).
    cbv zeta in E. subst e1. rewrite E.
    cbn [Engine.handle Engine.ctx Engine.masterGain option_map].
    unfold tick. cbn [state]. eexists. repeat split.
Qed.

Lemma made_not_made lo k hi h :
  madeBetween lo (fresh k) h -> ~ madeBetween (fresh k) hi h.
Proof.
  unfold madeBetween. intros [_ K] [Hne M].
  destruct (captured h) as [|n rest]; [now apply Hne|].
  inversion K; inversion M; subst. lia.
Qed.

End SingleChordEngine.

(** C1. Single-active-chord invariant, in both variants of the engine:
    [startChord A] and then, any time later and with no [stopChord] in
    between, [startChord B] leaves in the registry exactly the handles
    pushed while B was built, none of which is a handle of A; before the
    first node of B is created, the release of every handle of A has been
    invoked at the current clock time, in registration order. The first
    half is [part_001]; the second is [audioEngine.ts], whose [startChord]
    calls [init] and [stopChord] and then builds, as the other does. *)
Theorem single_active_chord (p : Platform) (usA usB us : nat -> R)
    (A : list Z) (iA : InstrumentType) (tA : PianoTimbre)
    (B : list Z) (iB : InstrumentType) (tB : PianoTimbre) (dt : R)
    (e : Legacy.AudioEngine) (f : Engine.AudioEngine) :
  (legacyWellFormed e ->
   let e1 := legacyLater dt (Legacy.startChord p usA A iA tA e) in
   let e2 := Legacy.startChord p usB B iB tB e1 in
   exists k1 k2 m,
     Legacy.ctx e1 = Some k1
     /\ Legacy.masterGain e1 = Some m
     /\ Legacy.ctx e2 = Some k2
     /\ let now := currentTime k1 in
        let build := Legacy.forEach m now iB tB usB B 0 in
        calls k2
        = calls k1
          ++ flat_map (fun h => releaseCalls (release h) now) (Legacy.activeNodes e1)
          ++ effects build (fresh k1)
        /\ Legacy.activeNodes e2 = result build (fresh k1)
        /\ length (Legacy.activeNodes e2) = (legacyEntries iB * length B)%nat
        /\ Forall (madeBetween (fresh k1) (fresh k2)) (Legacy.activeNodes e2)
        /\ (forall h, In h (Legacy.activeNodes e1) -> ~ In h (Legacy.activeNodes e2))
        /\ (forall h c, In h (Legacy.activeNodes e1) ->
                        In c (releaseCalls (release h) now) -> In c (calls k2)))
  /\ (engineWellFormed p us f ->
      let f1 := Engine.handle p us (Engine.startChord p us A iA tA f)
                              (Engine.Elapsed dt) in
      let f2 := Engine.startChord p us B iB tB f1 in
      exists k1 k2,
        Engine.ctx f1 = Some k1
        /\ Engine.masterGain f1 = Some 0%nat
        /\ Engine.ctx f2 = Some k2
        /\ length (Engine.activeNodes f1) = length A
        /\ let now := currentTime k1 in
           let build := Engine.forEach 0%nat now iB tB B 0 in
           calls k2
           = calls k1
             ++ flat_map (fun h => releaseCalls (release h) now) (Engine.activeNodes f1)
             ++ effects build (fresh k1)
           /\ Engine.activeNodes f2 = result build (fresh k1)
           /\ length (Engine.activeNodes f2) = length B
           /\ Forall (madeBetween (fresh k1) (fresh k2)) (Engine.activeNodes f2)
           /\ (forall h, In h (Engine.activeNodes f1) ->
                         ~ In h (Engine.activeNodes f2))
           /\ (forall h c, In h (Engine.activeNodes f1) ->
                           In c (releaseCalls (release h) now) -> In c (calls k2))).
Proof.
  split.
  - intros W e1 e2.
    assert (W1 : legacyWellFormed e1).
    { apply legacy_later_wellFormed, legacy_startChord_wellFormed, W. }
    destruct (legacy_started_running p usA A iA tA dt e W) as (k1 & m & Hk1 & Hm1 & Hs1).
    fold e1 in Hk1, Hm1.
    pose proof (legacy_init_running p e1 k1 Hk1 Hs1) as Hinit.
    destruct (legacy_startChord_run p usB B iB tB e1 W1)
      as (k & m' & Hk & Hm & _ & _ & Hknown & E).
    rewrite Hinit in Hk, Hm. rewrite Hk1 in Hk. rewrite Hm1 in Hm.
    injection Hk as <-. injection Hm as <-.
    cbv zeta in E. fold e2 in E.
    destruct (legacy_forEach_run m (currentTime k1) iB tB usB B 0 (fresh k1))
      as (Hlen & _ & _ & Hmade).
    cbv zeta in Hlen, Hmade.
    eexists k1, _, m. split; [exact Hk1|]. split; [exact Hm1|].
    split; [rewrite E; reflexivity|].
    cbv zeta. cbn [calls fresh]. rewrite E. cbn [Legacy.activeNodes].
    repeat split; try assumption.
    + intros h Hin1 Hin2.
      rewrite Forall_forall in Hknown, Hmade.
      exact (known_not_made k1 _ h (Hknown h Hin1) (Hmade h Hin2)).
    + intros h c Hin Hc. apply in_or_app. right. apply in_or_app. left.
      apply in_flat_map. now exists h.
  - intros W f1 f2.
    destruct (engine_started_running p us A iA tA dt f W)
      as (W1 & k1 & Hk1 & Hm1 & Hs1).
    fold f1 in W1, Hk1, Hm1.
    pose proof (engine_init_running p us f1 k1 Hk1 Hs1) as Hinit.
    destruct (engine_startChord_run p us B iB tB f1 W1) as (k & Hk & _ & E).
    rewrite Hinit, Hk1 in Hk. injection Hk as <-.
    cbv zeta in E. fold f2 in E.
    destruct (engine_forEach_run 0%nat (currentTime k1) iB tB B 0 (fresh k1))
      as (Hlen & _ & _ & Hmade & _).
    cbv zeta in Hlen, Hmade.
    assert (HA : length (Engine.activeNodes f1) = length A).
    { destruct (engine_startChord_run p us A iA tA f W) as (k0 & _ & _ & E0).
      cbv zeta in E0. subst f1. rewrite E0.
      cbn [Engine.handle Engine.activeNodes].
      apply (engine_forEach_run 0%nat (currentTime k0) iA tA A 0 (fresh k0)). }
    pose proof W1 as Hold. unfold engineWellFormed in Hold. rewrite Hk1 in Hold.
    destruct Hold as (_ & _ & _ & _ & _ & Hold).
    eexists k1, _. split; [exact Hk1|]. split; [exact Hm1|].
    split; [rewrite E; reflexivity|]. split; [exact HA|].
    cbv zeta. cbn [calls fresh]. rewrite E. cbn [Engine.activeNodes].
    repeat split; try assumption.
    + intros h Hin1 Hin2.
      rewrite Forall_forall in Hold, Hmade.
      exact (made_not_made _ k1 _ h (Hold h Hin1) (Hmade h Hin2)).
    + intros h c Hin Hc. apply in_or_app. right. apply in_or_app. left.
      apply in_flat_map. now exists h.
Qed.

Lemma single_active_chord_witness :
  legacyWellFormed Legacy.audioEngine
  /\ engineWellFormed browser halves Engine.audioEngine
  /\ length (Legacy.activeNodes
       (Legacy.startChord browser halves [62; 65; 69]%Z Violin Grand
          (legacyLater 1
             (Legacy.startChord browser halves [60; 64; 67]%Z Piano Grand
                Legacy.audioEngine)))) = 6%nat
  /\ length (Engine.activeNodes
       (Engine.startChord browser halves [62; 65; 69]%Z Violin Grand
          (Engine.handle browser halves
             (Engine.startChord browser halves [60; 64; 67]%Z Piano Grand
                Engine.audioEngine)
             (Engine.Elapsed 1)))) = 3%nat.
Proof.
  destruct (single_active_chord browser halves halves halves
              [60; 64; 67]%Z Piano Grand [62; 65; 69]%Z Violin Grand 1
              Legacy.audioEngine Engine.audioEngine) as [L E].
  split; [exact legacy_audioEngine_wellFormed|].
  split; [reflexivity|].
  destruct (L legacy_audioEngine_wellFormed)
    as (k1 & k2 & m & _ & _ & _ & _ & _ & Hlen & _).
  destruct (E eq_refl) as (j1 & j2 & _ & _ & _ & _ & _ & _ & Hlen' & _).
  split; [exact Hlen | exact Hlen'].
Defined.


(** ** The mix bus is left alone

    Calls that leave a mix bus alone ([sealed]), and the two engines making
    no other call once their bus is built. *)

Section Sealed.

Lemma sealed_call bus c :
  isSetBuffer c = false -> isCreateConvolver c = false ->
  (forall n, subject c = Some n -> (bus <= n)%nat) ->
  (forall src dst, c = Connect src dst ->
     match dst with
     | node n => n = 0%nat \/ (bus <= n)%nat
     | param q => (bus <= owner q)%nat
     | destination => False
     end) ->
  sealed bus c = true.
Proof.
  intros B C S0 K. unfold sealed. rewrite B, C. cbn [negb andb].
  apply andb_true_iff. split.
  - destruct (subject c) as [n|]; [|reflexivity]. apply Nat.leb_le. now apply S0.
  - destruct c; try reflexivity. specialize (K _ _ eq_refl).
    destruct dst as [n|q|].
    + apply orb_true_iff. destruct K as [K|K]; [left; now apply Nat.eqb_eq | right; now apply Nat.leb_le].
    + now apply Nat.leb_le.
    + elim K.
Qed.

Lemma sealed_parts bus c :
  sealed bus c = true ->
  isSetBuffer c = false /\ isCreateConvolver c = false
  /\ (forall n, subject c = Some n -> (bus <= n)%nat)
  /\ (forall src dst, c = Connect src dst ->
        match dst with
        | node n => n = 0%nat \/ (bus <= n)%nat
        | param q => (bus <= owner q)%nat
        | destination => False
        end).
Proof.
  unfold sealed. intros H.
  apply andb_true_iff in H as [H K]. apply andb_true_iff in H as [H S0].
  apply andb_true_iff in H as [B C]. apply negb_true_iff in B, C.
  repeat split; try assumption.
  - intros n Hn. rewrite Hn in S0. now apply Nat.leb_le.
  - intros src dst ->. destruct dst as [n|q|].
    + apply orb_true_iff in K as [K|K]; [left; now apply Nat.eqb_eq | right; now apply Nat.leb_le].
    + now apply Nat.leb_le.
    + discriminate K.
Qed.

Lemma sealed_widen bus bus' c :
  (bus' <= bus)%nat -> sealed bus c = true -> sealed bus' c = true.
Proof.
  intros Hle H. apply sealed_parts in H as (B & C & S0 & K).
  apply sealed_call; try assumption.
  - intros n Hn. specialize (S0 n Hn). lia.
  - intros src dst E. specialize (K src dst E).
    destruct dst as [n|q|]; [destruct K; [now left | right; lia] | lia | exact K].
Qed.

Lemma forallb_sealed_app bus a b :
  forallb (sealed bus) a = true -> forallb (sealed bus) b = true ->
  forallb (sealed bus) (a ++ b) = true.
Proof. intros A B. now rewrite forallb_app, A, B. Qed.

Lemma releaseCalls_sealed bus hi h t :
  madeBetween bus hi h -> forallb (sealed bus) (releaseCalls (release h) t) = true.
Proof.
  intros [_ M]. unfold captured in M. apply Forall_app in M as [_ M].
  destruct (release h) as [|g oscs]; [reflexivity|].
  cbn [releaseNodes] in M. inversion M as [|? ? Hg Hoscs]; subst.
  cbn [releaseCalls]. apply forallb_sealed_app.
  - cbn [forallb]. rewrite !andb_true_iff. repeat split;
      (apply sealed_call; [reflexivity | reflexivity | | discriminate]);
      intros n [= <-]; cbn [owner]; lia.
  - clear Hg M. induction Hoscs as [|o rest Ho _ IH]; [reflexivity|].
    cbn [map forallb]. rewrite IH, andb_true_r.
    apply sealed_call; [reflexivity | reflexivity | | discriminate].
    intros n [= <-]. lia.
Qed.

Lemma drain_sealed bus hi nodes t :
  Forall (madeBetween bus hi) nodes ->
  forallb (sealed bus) (flat_map (fun h => releaseCalls (release h) t) nodes) = true.
Proof.
  intros A. induction A as [|h hs Hh _ IH]; [reflexivity|].
  cbn [flat_map]. apply forallb_sealed_app; [|exact IH].
  exact (releaseCalls_sealed _ _ h _ Hh).
Qed.

End Sealed.

(** One call of a voice, whose nodes are numbered from the base on. *)
Ltac seal :=
  apply sealed_call;
  [ reflexivity | reflexivity
  | let n := fresh in let E := fresh in
    intros n E; cbn [subject owner] in E; injection E as <-; lia
  | let E := fresh in
    intros ? ? E; try discriminate E; injection E as <- <-; cbn [owner];
    first [ lia | left; reflexivity | right; lia ] ].

Section SealedVoices.

Variables (now : R) (instrument : InstrumentType) (timbre : PianoTimbre).

Lemma engine_voice_sealed freq startTime base :
  Forall (fun c => sealed base c = true)
         (effects (Engine.voice 0%nat freq startTime instrument timbre) base).
Proof.
  destruct instrument, timbre; run_audio;
    repeat (apply Forall_cons; [seal|]); apply Forall_nil.
Qed.

Lemma legacy_voice_sealed freq startTime u base :
  Forall (fun c => sealed base c = true)
         (effects (Legacy.voice 0%nat freq startTime instrument timbre u) base).
Proof.
  destruct instrument, timbre; run_audio;
    repeat (apply Forall_cons; [seal|]); apply Forall_nil.
Qed.

Lemma engine_forEach_sealed midiNotes : forall index base,
  Forall (fun c => sealed base c = true)
         (effects (Engine.forEach 0%nat now instrument timbre midiNotes index) base).
Proof.
  induction midiNotes as [|note rest IH]; intros index base; [constructor|].
  cbn [Engine.forEach].
  set (v := Engine.voice 0%nat (midiToFreq note)
              (now + Engine.stagger instrument index) instrument timbre).
  destruct (collect_run v
              (Engine.forEach 0%nat now instrument timbre rest (S index)) base)
    as (_ & Ee & _);
    [apply engine_uniform_voice | apply engine_uniform_forEach |].
  cbv zeta in Ee. rewrite Ee. clear Ee.
  destruct (engine_voice_run 0%nat instrument timbre (midiToFreq note)
              (now + Engine.stagger instrument index) base) as (_ & _ & N1 & _).
  fold v in N1.
  apply Forall_app. split; [apply engine_voice_sealed|].
  eapply Forall_impl; [|apply IH]. intros c. apply sealed_widen. lia.
Qed.

Lemma legacy_forEach_sealed us midiNotes : forall index base,
  Forall (fun c => sealed base c = true)
         (effects (Legacy.forEach 0%nat now instrument timbre us midiNotes index) base).
Proof.
  induction midiNotes as [|note rest IH]; intros index base; [constructor|].
  cbn [Legacy.forEach].
  set (v := Legacy.voice 0%nat (midiToFreq note)
              (now + Legacy.stagger instrument index) instrument timbre (us index)).
  destruct (collect_run v
              (Legacy.forEach 0%nat now instrument timbre us rest (S index)) base)
    as (_ & Ee & _);
    [apply legacy_uniform_voice | apply legacy_uniform_forEach |].
  cbv zeta in Ee. rewrite Ee. clear Ee.
  destruct (legacy_voice_run 0%nat instrument timbre (midiToFreq note)
              (now + Legacy.stagger instrument index) (us index) base) as (_ & _ & N1 & _).
  fold v in N1.
  apply Forall_app. split; [apply legacy_voice_sealed|].
  eapply Forall_impl; [|apply IH]. intros c. apply sealed_widen. lia.
Qed.

End SealedVoices.

Section EngineSealed.

Variables (p : Platform) (us : nat -> R).

Lemma engine_init_sealed e :
  engineWellFormed p us e -> engineSealed p us e ->
  engineSealed p us (Engine.init p us e).
Proof.
  unfold engineWellFormed at 1, engineSealed at 1. intros W S0.
  destruct (Engine.ctx e) as [k0|] eqn:Hk.
  - destruct S0 as (rest & Hc & Hs).
    unfold Engine.init. rewrite Hk. cbn [Engine.ctx]. rewrite Hk.
    destruct (state k0) eqn:Hst.
    + unfold engineSealed. cbn [Engine.ctx exec resume snd calls].
      exists (rest ++ [Resume]). rewrite Hc, app_assoc. split; [reflexivity|].
      now apply forallb_sealed_app.
    + unfold engineSealed. rewrite Hk. now exists rest.
  - subst e. rewrite engine_init_first. unfold engineSealed. cbn [Engine.ctx calls].
    eexists. split; [reflexivity|]. now destruct (hwState p).
Qed.

Lemma engine_startChord_sealed midiNotes instrument timbre e :
  engineWellFormed p us e -> engineSealed p us e ->
  engineSealed p us (Engine.startChord p us midiNotes instrument timbre e).
Proof.
  intros W S0.
  destruct (engine_startChord_run p us midiNotes instrument timbre e W)
    as (k & Hk & W0 & E).
  destruct (engine_init_ready p us e W) as (k' & Hk' & _ & _ & Ha & _ & _).
  rewrite Hk in Hk'. injection Hk' as <-.
  pose proof (engine_init_sealed e W S0) as S1.
  cbv zeta in E. rewrite E. clear E.
  unfold engineWellFormed in W0. rewrite Hk in W0.
  destruct W0 as (_ & _ & _ & F & _ & A). rewrite Ha in A.
  unfold engineSealed in S1. rewrite Hk in S1. destruct S1 as (rest & Hc & Hs).
  unfold engineSealed. cbn [Engine.ctx calls].
  eexists. rewrite Hc, <- app_assoc. split; [reflexivity|].
  apply forallb_sealed_app; [exact Hs|]. apply forallb_sealed_app.
  - exact (drain_sealed _ _ _ _ A).
  - apply forallb_forall. apply Forall_forall.
    eapply Forall_impl; [|apply engine_forEach_sealed].
    intros c. apply sealed_widen. exact F.
Qed.

Lemma engine_stopChord_sealed e :
  engineWellFormed p us e -> engineSealed p us e ->
  engineSealed p us (Engine.stopChord e).
Proof.
  unfold engineWellFormed at 1, engineSealed at 1. intros W S0.
  destruct (Engine.ctx e) as [k|] eqn:Hk.
  - rewrite (engine_stopChord_drain e k Hk). unfold engineSealed.
    cbn [Engine.ctx]. rewrite releaseEach_exec. cbn [calls].
    destruct W as (_ & _ & _ & _ & _ & A). destruct S0 as (rest & Hc & Hs).
    eexists. rewrite Hc, <- app_assoc. split; [reflexivity|].
    apply forallb_sealed_app; [exact Hs|]. exact (drain_sealed _ _ _ _ A).
  - subst e. exact I.
Qed.

Lemma engine_handle_sealed e ev :
  engineWellFormed p us e -> engineSealed p us e ->
  engineSealed p us (Engine.handle p us e ev).
Proof.
  intros W S0. destruct ev; cbn [Engine.handle].
  - now apply engine_startChord_sealed.
  - now apply engine_stopChord_sealed.
  - now apply engine_startChord_sealed.
  - now apply engine_stopChord_sealed.
  - revert S0. unfold engineSealed. cbn [Engine.ctx].
    destruct (Engine.ctx e) as [k|]; cbn [option_map]; [|exact (fun S0 => S0)].
    unfold tick. destruct (state k); cbn [calls]; exact (fun S0 => S0).
Qed.

Lemma engine_run_sealed evs : forall e,
  engineWellFormed p us e -> engineSealed p us e ->
  engineSealed p us (Engine.run p us evs e).
Proof.
  induction evs as [|ev evs IH]; intros e W S0; [exact S0|].
  cbn [Engine.run fold_left]. apply IH.
  - now apply engine_handle_wellFormed.
  - now apply engine_handle_sealed.
Qed.

End EngineSealed.

Section LegacySealed.

Lemma legacySealed_wellFormed e : legacySealed e -> legacyWellFormed e.
Proof.
  unfold legacySealed, legacyWellFormed.
  destruct (Legacy.ctx e) as [k|].
  - intros (M & F & _ & A). split; [exists 0%nat; split; [exact M | lia]|].
    eapply Forall_impl; [|exact A]. intros h [_ Hh]. unfold known.
    eapply Forall_impl; [|exact Hh]. cbn; intros; lia.
  - intros ->. now split.
Qed.

Lemma legacy_init_first p :
  Legacy.init p Legacy.audioEngine
  = {| Legacy.ctx :=
         Some {| currentTime := 0; state := running; sampleRate := hwRate p;
                 fresh := 1%nat;
                 calls := legacyMixBus
                          ++ match hwState p with
                             | suspended => [Resume]
                             | running => []
                             end |};
       Legacy.masterGain := Some 0%nat;
       Legacy.activeNodes := [] |}.
Proof.
  unfold Legacy.init, legacyMixBus. cbn [Legacy.ctx Legacy.audioEngine].
  run_audio. cbv [newAudioContext]. cbn [Legacy.ctx state calls currentTime sampleRate fresh
    Legacy.masterGain Legacy.activeNodes].
  destruct (hwState p) eqn:Hs; cbv [exec resume snd]; cbn; rewrite ?Hs; reflexivity.
Qed.

Lemma legacy_init_sealed p e :
  legacySealed e ->
  legacySealed (Legacy.init p e)
  /\ Legacy.activeNodes (Legacy.init p e) = Legacy.activeNodes e.
Proof.
  unfold legacySealed at 1. intros S0.
  destruct (Legacy.ctx e) as [k0|] eqn:Hk.
  - destruct S0 as (M & F & (rest & Hc & Hs) & A).
    unfold Legacy.init. rewrite Hk. cbn [Legacy.ctx]. rewrite Hk.
    destruct (state k0) eqn:Hst.
    + unfold legacySealed.
      cbn [Legacy.ctx Legacy.masterGain Legacy.activeNodes exec resume snd calls fresh].
      split; [|reflexivity]. split; [exact M|]. split; [exact F|]. split; [|exact A].
      exists (rest ++ [Resume]). rewrite Hc, app_assoc. split; [reflexivity|].
      now apply forallb_sealed_app.
    + split; [|reflexivity]. unfold legacySealed. rewrite Hk.
      split; [exact M|]. split; [exact F|]. split; [|exact A]. now exists rest.
  - subst e. rewrite legacy_init_first. split; [|reflexivity].
    unfold legacySealed. cbn [Legacy.ctx Legacy.masterGain Legacy.activeNodes calls fresh].
    split; [reflexivity|]. split; [lia|]. split; [|constructor].
    eexists. split; [reflexivity|]. now destruct (hwState p).
Qed.

Lemma legacy_startChord_sealed p us midiNotes instrument timbre e :
  legacySealed e ->
  legacySealed (Legacy.startChord p us midiNotes instrument timbre e).
Proof.
  intros S0. pose proof (legacySealed_wellFormed e S0) as W.
  destruct (legacy_startChord_run p us midiNotes instrument timbre e W)
    as (k & m & Hk & Hm & _ & _ & _ & E).
  destruct (legacy_init_sealed p e S0) as (S1 & Ha).
  unfold legacySealed in S1. rewrite Hk in S1.
  destruct S1 as (M & F & (rest & Hc & Hs) & A). rewrite Ha in A.
  rewrite Hm in M. injection M as ->.
  cbv zeta in E. rewrite E. clear E.
  destruct (legacy_forEach_run 0%nat (currentTime k) instrument timbre us midiNotes 0 (fresh k))
    as (_ & _ & Hn & Hb).
  cbv zeta in Hn, Hb.
  unfold legacySealed. cbn [Legacy.ctx Legacy.masterGain Legacy.activeNodes calls fresh].
  split; [reflexivity|]. split; [lia|]. split.
  - eexists. rewrite Hc, <- app_assoc. split; [reflexivity|].
    apply forallb_sealed_app; [exact Hs|]. apply forallb_sealed_app.
    + exact (drain_sealed _ _ _ _ A).
    + apply forallb_forall. apply Forall_forall.
      eapply Forall_impl; [|apply legacy_forEach_sealed].
      intros c. apply sealed_widen. exact F.
  - eapply Forall_impl; [|exact Hb]. intros h. apply madeBetween_widen; lia.
Qed.

Lemma legacy_stopChord_sealed e : legacySealed e -> legacySealed (Legacy.stopChord e).
Proof.
  unfold legacySealed at 1. intros S0.
  destruct (Legacy.ctx e) as [k|] eqn:Hk.
  - rewrite (legacy_stopChord_drain e k Hk). unfold legacySealed.
    cbn [Legacy.ctx Legacy.masterGain Legacy.activeNodes].
    rewrite releaseEach_exec. cbn [calls fresh].
    destruct S0 as (M & F & (rest & Hc & Hs) & A).
    split; [exact M|]. split; [exact F|]. split; [|constructor].
    eexists. rewrite Hc, <- app_assoc. split; [reflexivity|].
    apply forallb_sealed_app; [exact Hs|]. exact (drain_sealed _ _ _ _ A).
  - subst e. reflexivity.
Qed.

Lemma legacy_later_sealed dt e : legacySealed e -> legacySealed (legacyLater dt e).
Proof.
  unfold legacySealed, legacyLater. cbn [Legacy.ctx Legacy.masterGain Legacy.activeNodes].
  destruct (Legacy.ctx e) as [k|]; cbn [option_map].
  - unfold tick. destruct (state k); cbn [fresh calls]; exact (fun S0 => S0).
  - intros ->. reflexivity.
Qed.

Lemma legacy_handle_sealed h r ev :
  legacySealed (Legacy.this r) -> legacySealed (Legacy.this (Legacy.handle h r ev)).
Proof.
  intros S0. destruct ev; cbn [Legacy.handle].
  - now apply legacy_startChord_sealed.
  - now apply legacy_stopChord_sealed.
  - now apply legacy_startChord_sealed.
  - apply elapse_keeps; [exact legacy_stopChord_sealed | exact legacy_later_sealed | exact S0].
Qed.

Lemma legacy_run_sealed h evs : forall r,
  legacySealed (Legacy.this r) -> legacySealed (Legacy.this (Legacy.run h evs r)).
Proof.
  induction evs as [|ev evs IH]; intros r S0; [exact S0|].
  cbn [Legacy.run fold_left]. apply IH. now apply legacy_handle_sealed.
Qed.

Lemma legacy_handle_initialized h r ev :
  legacySealed (Legacy.this r) ->
  (Legacy.ctx (Legacy.this r) <> None \/ legacyTriggers ev = true) ->
  Legacy.ctx (Legacy.this (Legacy.handle h r ev)) <> None.
Proof.
  intros S0 H. pose proof (legacySealed_wellFormed _ S0) as W.
  assert (St : forall p us n i t,
            Legacy.ctx (Legacy.startChord p us n i t (Legacy.this r)) <> None).
  { intros p us n i t.
    destruct (legacy_startChord_run p us n i t _ W) as (k & m & _ & _ & _ & _ & _ & E).
    cbv zeta in E. now rewrite E. }
  destruct ev; cbn [Legacy.handle]; try apply St;
    (destruct H as [H|H]; [|discriminate H]).
  - cbn [Legacy.callStopChord Legacy.this].
    destruct (Legacy.ctx (Legacy.this r)) as [k|] eqn:Hk; [|now elim H].
    now rewrite (legacy_stopChord_drain _ k Hk).
  - apply (elapse_keeps (fun e => Legacy.ctx e <> None)); [| |exact H].
    + intros e He. destruct (Legacy.ctx e) as [k|] eqn:Hk; [|now elim He].
      now rewrite (legacy_stopChord_drain _ k Hk).
    + intros dt e He. unfold legacyLater. cbn [Legacy.ctx].
      destruct (Legacy.ctx e); [discriminate | exact He].
Qed.

Lemma legacy_run_initialized h evs : forall r,
  legacySealed (Legacy.this r) ->
  (Legacy.ctx (Legacy.this r) <> None \/ existsb legacyTriggers evs = true) ->
  Legacy.ctx (Legacy.this (Legacy.run h evs r)) <> None.
Proof.
  induction evs as [|ev evs IH]; intros r S0 H.
  - destruct H as [H|H]; [exact H | discriminate H].
  - cbn [Legacy.run fold_left]. apply IH; [apply legacy_handle_sealed, S0|].
    cbn [existsb] in H. destruct (legacyTriggers ev) eqn:T.
    + left. apply legacy_handle_initialized; [exact S0 | now right].
    + destruct H as [H|H]; [|now right].
      left. apply legacy_handle_initialized; [exact S0 | now left].
Qed.

Lemma legacy_handle_idle h r ev :
  legacyTriggers ev = false -> Legacy.this r = Legacy.audioEngine ->
  Legacy.this (Legacy.handle h r ev) = Legacy.audioEngine.
Proof.
  intros T H. destruct ev; try discriminate T; cbn [Legacy.handle].
  - cbn [Legacy.callStopChord Legacy.this]. now rewrite H.
  - apply (elapse_keeps (fun e => e = Legacy.audioEngine)); [| |exact H].
    + now intros e ->.
    + now intros dt e ->.
Qed.

Lemma legacy_run_idle h evs : forall r,
  existsb legacyTriggers evs = false -> Legacy.this r = Legacy.audioEngine ->
  Legacy.this (Legacy.run h evs r) = Legacy.audioEngine.
Proof.
  induction evs as [|ev evs IH]; intros r H E; [exact E|].
  cbn [existsb] in H. apply orb_false_iff in H as [T H].
  cbn [Legacy.run fold_left]. apply IH; [exact H|]. now apply legacy_handle_idle.
Qed.

End LegacySealed.

Section Extends.

Variables (p : Platform) (us : nat -> R).

Lemma engine_init_extends e k0 :
  Engine.ctx e = Some k0 ->
  exists k more,
    Engine.ctx (Engine.init p us e) = Some k
    /\ calls k = calls k0 ++ more
    /\ forallb (sealed 3%nat) more = true.
Proof.
  intros Hk. unfold Engine.init. rewrite Hk. cbn [Engine.ctx]. rewrite Hk.
  destruct (state k0).
  - exists (exec resume k0), [Resume]. now cbn.
  - exists k0, []. rewrite Hk, app_nil_r. now split.
Qed.

Lemma engine_handle_extends e ev :
  engineWellFormed p us e -> Engine.ctx e <> None ->
  exists more,
    engineCalls (Engine.handle p us e ev) = engineCalls e ++ more
    /\ forallb (sealed 3%nat) more = true.
Proof.
  intros W N.
  assert (St : forall n i t, exists more,
            engineCalls (Engine.startChord p us n i t e) = engineCalls e ++ more
            /\ forallb (sealed 3%nat) more = true).
  { intros n i t.
    destruct (engine_startChord_run p us n i t e W) as (k & Hk & W0 & E).
    unfold engineWellFormed in W, W0. unfold engineCalls at 2. rewrite Hk in W0.
    destruct (Engine.ctx e) as [k0|] eqn:Hk0; [|now elim N].
    destruct (engine_init_extends e k0 Hk0) as (k' & more & Hk' & Hc & Hs).
    rewrite Hk in Hk'. injection Hk' as <-.
    destruct W as (_ & _ & _ & _ & _ & A). destruct W0 as (_ & _ & _ & F & _).
    cbv zeta in E. rewrite E. unfold engineCalls. cbn [Engine.ctx calls].
    eexists. rewrite Hc, <- app_assoc. split; [reflexivity|].
    apply forallb_sealed_app; [exact Hs|]. apply forallb_sealed_app.
    - exact (drain_sealed _ _ _ _ A).
    - apply forallb_forall. apply Forall_forall.
      eapply Forall_impl; [|apply engine_forEach_sealed].
      intros c. apply sealed_widen. exact F. }
  assert (Sp : exists more,
            engineCalls (Engine.stopChord e) = engineCalls e ++ more
            /\ forallb (sealed 3%nat) more = true).
  { unfold engineWellFormed in W. unfold engineCalls at 2.
    destruct (Engine.ctx e) as [k0|] eqn:Hk0; [|now elim N].
    rewrite (engine_stopChord_drain e k0 Hk0). unfold engineCalls.
    cbn [Engine.ctx]. rewrite releaseEach_exec. cbn [calls].
    destruct W as (_ & _ & _ & _ & _ & A).
    eexists. split; [reflexivity|]. exact (drain_sealed _ _ _ _ A). }
  destruct ev; cbn [Engine.handle]; try apply St; try exact Sp.
  exists []. rewrite app_nil_r. split; [|reflexivity].
  unfold engineCalls. cbn [Engine.ctx].
  destruct (Engine.ctx e) as [k|]; [|reflexivity].
  cbn [option_map]. unfold tick. now destruct (state k).
Qed.

Lemma legacy_init_extends e k0 :
  Legacy.ctx e = Some k0 ->
  exists k more,
    Legacy.ctx (Legacy.init p e) = Some k
    /\ calls k = calls k0 ++ more
    /\ forallb (sealed 1%nat) more = true.
Proof.
  intros Hk. unfold Legacy.init. rewrite Hk. cbn [Legacy.ctx]. rewrite Hk.
  destruct (state k0).
  - exists (exec resume k0), [Resume]. now cbn.
  - exists k0, []. rewrite Hk, app_nil_r. now split.
Qed.

Lemma legacy_startChord_extends midiNotes instrument timbre e :
  legacySealed e -> Legacy.ctx e <> None ->
  exists more,
    legacyCalls (Legacy.startChord p us midiNotes instrument timbre e)
    = legacyCalls e ++ more
    /\ forallb (sealed 1%nat) more = true.
Proof.
  intros S0 N. pose proof (legacySealed_wellFormed e S0) as W.
  destruct (legacy_startChord_run p us midiNotes instrument timbre e W)
    as (k & m & Hk & Hm & _ & _ & _ & E).
  destruct (legacy_init_sealed p e S0) as (S1 & _).
  unfold legacySealed in S0, S1. rewrite Hk in S1. unfold legacyCalls at 2.
  destruct (Legacy.ctx e) as [k0|] eqn:Hk0; [|now elim N].
  destruct (legacy_init_extends e k0 Hk0) as (k' & more & Hk' & Hc & Hs).
  rewrite Hk in Hk'. injection Hk' as <-.
  destruct S0 as (_ & _ & _ & A). destruct S1 as (M & F & _).
  rewrite Hm in M. injection M as ->.
  cbv zeta in E. rewrite E. unfold legacyCalls. cbn [Legacy.ctx calls].
  eexists. rewrite Hc, <- app_assoc. split; [reflexivity|].
  apply forallb_sealed_app; [exact Hs|]. apply forallb_sealed_app.
  - exact (drain_sealed _ _ _ _ A).
  - apply forallb_forall. apply Forall_forall.
    eapply Forall_impl; [|apply legacy_forEach_sealed].
    intros c. apply sealed_widen. exact F.
Qed.

End Extends.

Section LegacyExtends.

Lemma legacy_handle_extends h r ev :
  legacySealed (Legacy.this r) -> Legacy.ctx (Legacy.this r) <> None ->
  exists more,
    legacyCalls (Legacy.this (Legacy.handle h r ev))
    = legacyCalls (Legacy.this r) ++ more
    /\ forallb (sealed 1%nat) more = true.
Proof.
  intros S0 N. pose proof (legacySealed_wellFormed _ S0) as W.
  assert (A : exists hi, Forall (madeBetween 1%nat hi) (Legacy.activeNodes (Legacy.this r))).
  { unfold legacySealed in S0.
    destruct (Legacy.ctx (Legacy.this r)) as [k|]; [|now elim N].
    exists (fresh k). apply S0. }
  destruct A as (hi & A).
  destruct ev; cbn [Legacy.handle].
  - now apply legacy_startChord_extends.
  - cbn [Legacy.callStopChord Legacy.this].
    rewrite (legacy_stopChord_released _ W).
    eexists. split; [reflexivity|]. exact (drain_sealed _ _ _ _ A).
  - now apply legacy_startChord_extends.
  - destruct (elapse_spec ms r W) as (_ & _ & _ & _ & F). cbv zeta in F.
    destruct (find _ (Legacy.timers r)) as [first|].
    + destruct F as (_ & ->). eexists. split; [reflexivity|].
      exact (drain_sealed _ _ _ _ A).
    + destruct F as (_ & ->). exists []. now rewrite app_nil_r.
Qed.

End LegacyExtends.

(** C9. Mix Bus frame condition, in both variants. Whatever the page
    makes happen, the engine has no context until the first [startChord] or
    [playNotes]; from then on the trace begins with the calls of the one
    [init] that built the bus, and every later call is [sealed]: it computes
    no buffer, creates no convolver, acts on no node of the bus, and
    connects nothing to the destination, to a parameter of a node of the
    bus, or to a node of the bus other than the input of the master gain.
    Whatever happens next only adds such calls to that trace: the context is
    not made anew.
    - [audioEngine.ts]: the master gain, the convolver and the reverb send
      gain are nodes 0, 1 and 2; the impulse is computed once and is the only
      buffer ever set; the master gain is 0.3 and the reverb send gain 0.35,
      at every later moment.
    - [part_001]: the bus is the master gain alone, node 0, whose value is
      0.4 at every later moment; no convolver is ever created and no buffer
      ever set. *)
Theorem mix_bus_built_once (p : Platform) (us : nat -> R)
    (evs : list Engine.Event) (h : Legacy.Host) (levs : list Legacy.Event) :
  let e := Engine.run p us evs Engine.audioEngine in
  let impulse := Engine.generateReverbImpulse (newAudioContext p) us 2.0 2.0 in
  let l := Legacy.this (Legacy.run h levs Legacy.boot) in
  ((existsb triggers evs = false -> e = Engine.audioEngine)
   /\ (existsb triggers evs = true ->
       Engine.masterGain e = Some 0%nat
       /\ Engine.reverbNode e = Some 1%nat
       /\ Engine.reverbGain e = Some 2%nat
       /\ (exists rest, engineCalls e = mixBus p us ++ rest
                        /\ forallb (sealed 3%nat) rest = true)
       /\ length (filter isSetBuffer (engineCalls e)) = 1%nat
       /\ length (filter isCreateConvolver (engineCalls e)) = 1%nat
       /\ (forall n b, In (SetBuffer n b) (engineCalls e) -> n = 1%nat /\ b = impulse)
       /\ (forall v, In (SetValue (gain 0%nat) v) (engineCalls e) -> v = 0.3)
       /\ (forall v, In (SetValue (gain 2%nat) v) (engineCalls e) -> v = 0.35)
       /\ (forall ev, exists more,
             engineCalls (Engine.handle p us e ev) = engineCalls e ++ more
             /\ forallb (sealed 3%nat) more = true)))
  /\ ((existsb legacyTriggers levs = false -> l = Legacy.audioEngine)
      /\ (existsb legacyTriggers levs = true ->
          Legacy.masterGain l = Some 0%nat
          /\ (exists rest, legacyCalls l = legacyMixBus ++ rest
                           /\ forallb (sealed 1%nat) rest = true)
          /\ filter isSetBuffer (legacyCalls l) = []
          /\ filter isCreateConvolver (legacyCalls l) = []
          /\ (forall v, In (SetValue (gain 0%nat) v) (legacyCalls l) -> v = 0.4)
          /\ (forall ev, exists more,
                legacyCalls
                  (Legacy.this (Legacy.handle h (Legacy.run h levs Legacy.boot) ev))
                = legacyCalls l ++ more
                /\ forallb (sealed 1%nat) more = true))).
Proof.
  intros e impulse l.
  assert (F : forall bus (rest : list Call) f,
            forallb (sealed bus) rest = true ->
            (forall c, sealed bus c = true -> f c = false) -> filter f rest = []).
  { intros bus rest f Hs Hf. induction rest as [|c cs IH]; [reflexivity|].
    cbn [forallb] in Hs. apply andb_true_iff in Hs as [Hc Hs].
    cbn [filter]. rewrite (Hf c Hc). exact (IH Hs). }
  assert (Q : forall bus (rest : list Call) c,
            forallb (sealed bus) rest = true -> In c rest ->
            forall n, subject c = Some n -> (bus <= n)%nat).
  { intros bus rest c Hs Hin. rewrite forallb_forall in Hs.
    apply (sealed_parts bus c (Hs c Hin)). }
  split; split.
  - apply engine_run_idle.
  - intros T.
    assert (W0 : engineWellFormed p us Engine.audioEngine) by reflexivity.
    pose proof (engine_run_wellFormed p us evs _ W0) as W. fold e in W.
    pose proof (engine_run_sealed p us evs _ W0 I) as S0. fold e in S0.
    pose proof (engine_run_initialized p us evs _ W0 (or_intror T)) as N. fold e in N.
    pose proof (fun ev => engine_handle_extends p us e ev W N) as X.
    unfold engineWellFormed in W. unfold engineSealed in S0.
    assert (Ec : exists k, Engine.ctx e = Some k /\ engineCalls e = calls k).
    { unfold engineCalls. destruct (Engine.ctx e) as [k|]; [|now elim N].
      now exists k. }
    destruct Ec as (k & Hk & Ec). rewrite Hk in W, S0. clear N.
    destruct W as (M & Rn & Rg & _). destruct S0 as (rest & Hc & Hs).
    split; [exact M|]. split; [exact Rn|]. split; [exact Rg|].
    split; [|split; [|split; [|split; [|split; [|split; [|exact X]]]]]];
      rewrite Ec, Hc; [now exists rest| | | | |].
    + rewrite filter_app, (F 3%nat rest isSetBuffer Hs); [reflexivity|].
      intros c Hc'. apply (sealed_parts _ _ Hc').
    + rewrite filter_app, (F 3%nat rest isCreateConvolver Hs); [reflexivity|].
      intros c Hc'. apply (sealed_parts _ _ Hc').
    + intros n b Hin. apply in_app_or in Hin as [Hin|Hin].
      * unfold mixBus in Hin. cbn [In] in Hin.
        repeat (destruct Hin as [Hin|Hin]; [try discriminate Hin|]);
          [|now elim Hin].
        injection Hin as <- <-. now split.
      * pose proof (proj1 (forallb_forall _ _) Hs _ Hin) as Hc'.
        destruct (sealed_parts _ _ Hc') as (B & _). discriminate B.
    + intros v Hin. apply in_app_or in Hin as [Hin|Hin].
      * unfold mixBus in Hin. cbn [In] in Hin.
        repeat (destruct Hin as [Hin|Hin]; [try discriminate Hin|]);
          [|now elim Hin].
        now injection Hin as <-.
      * specialize (Q _ _ _ Hs Hin 0%nat eq_refl). lia.
    + intros v Hin. apply in_app_or in Hin as [Hin|Hin].
      * unfold mixBus in Hin. cbn [In] in Hin.
        repeat (destruct Hin as [Hin|Hin]; [try discriminate Hin|]);
          [|now elim Hin].
        now injection Hin as <-.
      * specialize (Q _ _ _ Hs Hin 2%nat eq_refl). lia.
  - intros T. now apply legacy_run_idle.
  - intros T.
    assert (S1 : legacySealed (Legacy.this Legacy.boot)) by reflexivity.
    pose proof (legacy_run_sealed h levs _ S1) as S0. fold l in S0.
    pose proof (legacy_run_initialized h levs _ S1 (or_intror T)) as N. fold l in N.
    pose proof (fun ev => legacy_handle_extends h _ ev S0 N) as X.
    unfold legacySealed in S0.
    assert (Ec : exists k, Legacy.ctx l = Some k /\ legacyCalls l = calls k).
    { unfold legacyCalls. destruct (Legacy.ctx l) as [k|]; [|now elim N].
      now exists k. }
    destruct Ec as (k & Hk & Ec). rewrite Hk in S0. clear N.
    destruct S0 as (M & _ & (rest & Hc & Hs) & _).
    split; [exact M|].
    split; [|split; [|split; [|split; [|exact X]]]];
      rewrite Ec, Hc; [now exists rest| | |].
    + rewrite filter_app, (F 1%nat rest isSetBuffer Hs); [reflexivity|].
      intros c Hc'. apply (sealed_parts _ _ Hc').
    + rewrite filter_app, (F 1%nat rest isCreateConvolver Hs); [reflexivity|].
      intros c Hc'. apply (sealed_parts _ _ Hc').
    + intros v Hin. apply in_app_or in Hin as [Hin|Hin].
      * unfold legacyMixBus in Hin. cbn [In] in Hin.
        repeat (destruct Hin as [Hin|Hin]; [try discriminate Hin|]);
          [|now elim Hin].
        now injection Hin as <-.
      * specialize (Q _ _ _ Hs Hin 0%nat eq_refl). lia.
Qed.

Lemma mix_bus_built_once_witness :
  Engine.run browser halves [Engine.StopChord; Engine.Elapsed 1] Engine.audioEngine
  = Engine.audioEngine
  /\ length (filter isSetBuffer
       (engineCalls
          (Engine.run browser halves
             [Engine.PlayNotes [60]%Z Piano Grand; Engine.Elapsed 1.2;
              Engine.TimerFired; Engine.StartChord [60; 64]%Z Violin Grand;
              Engine.StopChord]
             Engine.audioEngine))) = 1%nat
  /\ Legacy.this (Legacy.run page [Legacy.StopChord; Legacy.Elapsed 5] Legacy.boot)
     = Legacy.audioEngine
  /\ filter isCreateConvolver
       (legacyCalls
          (Legacy.this
             (Legacy.run page
                [Legacy.PlayNotes [60]%Z Piano Grand; Legacy.Elapsed 1200;
                 Legacy.StartChord [60; 64]%Z Violin Grand; Legacy.StopChord]
                Legacy.boot))) = [].
Proof.
  split; [|split; [|split]].
  - exact (proj1 (proj1 (mix_bus_built_once browser halves
                    [Engine.StopChord; Engine.Elapsed 1] page [])) eq_refl).
  - exact (proj1 (proj2 (proj2 (proj2 (proj2
             (proj2 (proj1 (mix_bus_built_once browser halves
                [Engine.PlayNotes [60]%Z Piano Grand; Engine.Elapsed 1.2;
                 Engine.TimerFired; Engine.StartChord [60; 64]%Z Violin Grand;
                 Engine.StopChord] page [])) eq_refl)))))).
  - exact (proj1 (proj2 (mix_bus_built_once browser halves [] page
                    [Legacy.StopChord; Legacy.Elapsed 5])) eq_refl).
  - exact (proj1 (proj2 (proj2 (proj2
             (proj2 (proj2 (mix_bus_built_once browser halves [] page
                [Legacy.PlayNotes [60]%Z Piano Grand; Legacy.Elapsed 1200;
                 Legacy.StartChord [60; 64]%Z Violin Grand; Legacy.StopChord]))
                eq_refl))))).
Defined.

(** C9, as stated, fails for [part_001]: its [init] sets the master gain
    to 0.4, and builds no reverb chain and no impulse. *)
Lemma mix_bus_legacy_differs :
  In (SetValue (gain 0%nat) 0.4)
     (legacyCalls
        (Legacy.startChord browser halves [60]%Z Piano Grand Legacy.audioEngine))
  /\ 0.4 <> 0.3
  /\ filter isCreateConvolver
       (legacyCalls
          (Legacy.startChord browser halves [60]%Z Piano Grand Legacy.audioEngine))
     = []
  /\ filter isSetBuffer
       (legacyCalls
          (Legacy.startChord browser halves [60]%Z Piano Grand Legacy.audioEngine))
     = [].
Proof.
  run_legacy. cbn [In filter isCreateConvolver isSetBuffer].
  split; [right; left; reflexivity|]. split; [lra|]. split; reflexivity.
Qed.

(** ** Staggered onsets *)

Section Stagger.

Lemma startTimes_releases nodes t :
  startTimes (flat_map (fun h => releaseCalls (release h) t) nodes) = [].
Proof.
  induction nodes as [|h hs IH]; [reflexivity|].
  cbn [flat_map]. rewrite startTimes_app, IH, app_nil_r.
  destruct (release h) as [|g oscs]; [reflexivity|].
  cbn. induction oscs; [reflexivity | assumption].
Qed.

Lemma legacy_init_starts p e k :
  Legacy.ctx (Legacy.init p e) = Some k ->
  startTimes (calls k) = startTimes (legacyCalls e).
Proof.
  unfold Legacy.init, legacyCalls.
  destruct (Legacy.ctx e) as [k0|] eqn:Hk.
  - cbn [Legacy.ctx]. rewrite Hk. destruct (state k0).
    + cbn [Legacy.ctx]. intros [= <-]. cbn. rewrite startTimes_app. cbn.
      now rewrite app_nil_r.
    + rewrite Hk. now intros [= <-].
  - run_audio. cbn [Legacy.ctx newAudioContext state calls].
    destruct (hwState p); cbn; now intros [= <-].
Qed.

Lemma legacy_startChord_starts p us midiNotes instrument timbre e :
  legacyWellFormed e ->
  let e' := Legacy.startChord p us midiNotes instrument timbre e in
  startTimes (legacyCalls e')
  = startTimes (legacyCalls e)
    ++ flat_map (fun i => repeat (legacyNow e' + Legacy.stagger instrument i)
                                 (legacyOscillators instrument))
                (seq 0 (length midiNotes)).
Proof.
  intros W e'.
  destruct (legacy_startChord_run p us midiNotes instrument timbre e W)
    as (k & m & Hk & _ & _ & _ & _ & E).
  cbv zeta in E. unfold e'. rewrite E. unfold legacyCalls at 1, legacyNow.
  cbn [Legacy.ctx calls currentTime].
  rewrite !startTimes_app, startTimes_releases, (legacy_init_starts p e k Hk).
  cbn [app]. f_equal.
  apply (legacy_forEach_run m (currentTime k) instrument timbre us midiNotes 0 (fresh k)).
Qed.

Lemma engine_startChord_starts p us midiNotes instrument timbre e :
  engineWellFormed p us e ->
  let e' := Engine.startChord p us midiNotes instrument timbre e in
  startTimes (engineCalls e')
  = startTimes (engineCalls e)
    ++ flat_map (fun i => repeat (engineNow e' + Engine.stagger instrument i)
                                 (engineOscillators instrument timbre))
                (seq 0 (length midiNotes)).
Proof.
  intros W e'.
  destruct (engine_startChord_run p us midiNotes instrument timbre e W)
    as (k & Hk & _ & E).
  destruct (engine_init_ready p us e W) as (k' & Hk' & _ & _ & _ & St & _).
  rewrite Hk in Hk'. injection Hk' as <-.
  cbv zeta in E. unfold e'. rewrite E. unfold engineCalls at 1, engineNow.
  cbn [Engine.ctx calls currentTime].
  rewrite !startTimes_app, startTimes_releases, St.
  cbn [app]. f_equal.
  apply (engine_forEach_run 0%nat (currentTime k) instrument timbre midiNotes 0 (fresh k)).
Qed.

End Stagger.

(** C5. Staggering: the oscillators of the note at index [i] of a chord
    are started at [now + stagger i], in both variants. For Guitar and for
    Violin the stagger grows by a fixed constant from one index to the
    next, 0.03 s in [part_001] and 0.04 s in [audioEngine.ts]; for Piano it
    is 0, so all notes start at [now]. *)
Theorem staggering (p : Platform) (us : nat -> R) (midiNotes : list Z)
    (instrument : InstrumentType) (timbre : PianoTimbre) :
  (forall e, legacyWellFormed e ->
     let e' := Legacy.startChord p us midiNotes instrument timbre e in
     startTimes (legacyCalls e')
     = startTimes (legacyCalls e)
       ++ flat_map (fun i => repeat (legacyNow e' + Legacy.stagger instrument i)
                                    (legacyOscillators instrument))
                   (seq 0 (length midiNotes)))
  /\ (forall e, engineWellFormed p us e ->
     let e' := Engine.startChord p us midiNotes instrument timbre e in
     startTimes (engineCalls e')
     = startTimes (engineCalls e)
       ++ flat_map (fun i => repeat (engineNow e' + Engine.stagger instrument i)
                                    (engineOscillators instrument timbre))
                   (seq 0 (length midiNotes)))
  /\ (forall now i,
        (now + Legacy.stagger Guitar (S i)) - (now + Legacy.stagger Guitar i) = 0.03
        /\ (now + Legacy.stagger Violin (S i)) - (now + Legacy.stagger Violin i) = 0.03
        /\ now + Legacy.stagger Piano i = now
        /\ (now + Engine.stagger Guitar (S i)) - (now + Engine.stagger Guitar i) = 0.04
        /\ (now + Engine.stagger Violin (S i)) - (now + Engine.stagger Violin i) = 0.04
        /\ now + Engine.stagger Piano i = now).
Proof.
  split; [intros e W; now apply legacy_startChord_starts|].
  split; [intros e W; now apply engine_startChord_starts|].
  intros now i. unfold Legacy.stagger, Engine.stagger. rewrite S_INR.
  repeat split; lra.
Qed.

Lemma staggering_witness :
  legacyWellFormed Legacy.audioEngine
  /\ engineWellFormed browser halves Engine.audioEngine
  /\ startTimes (legacyCalls
       (Legacy.startChord browser halves [60; 64; 67]%Z Guitar Grand Legacy.audioEngine))
     = [0 + INR 0 * 0.03; 0 + INR 1 * 0.03; 0 + INR 2 * 0.03]
  /\ startTimes (engineCalls
       (Engine.startChord browser halves [60; 64]%Z Piano Grand Engine.audioEngine))
     = [0 + 0; 0 + 0; 0 + 0; 0 + 0; 0 + 0; 0 + 0].
Proof.
  destruct (staggering browser halves [60; 64; 67]%Z Guitar Grand) as (L & _).
  destruct (staggering browser halves [60; 64]%Z Piano Grand) as (_ & E & _).
  specialize (L Legacy.audioEngine legacy_audioEngine_wellFormed).
  specialize (E Engine.audioEngine eq_refl).
  split; [exact legacy_audioEngine_wellFormed|].
  split; [reflexivity|]. split.
  - rewrite L. clear. run_legacy. reflexivity.
  - rewrite E. clear. run_engine. reflexivity.
Defined.

(** ** Two runs with the same arguments *)

Section Determinism.

Variables (master : NodeId) (now : R) (instrument : InstrumentType)
  (timbre : PianoTimbre).

Lemma Forall2_same (cs : list Call) : Forall2 sameButDetune cs cs.
Proof. induction cs; constructor; [now left | assumption]. Qed.

Lemma legacy_voice_indep freq startTime u1 u2 :
  (instrument, timbre) <> (Piano, HonkyTonk) ->
  Legacy.voice master freq startTime instrument timbre u1
  = Legacy.voice master freq startTime instrument timbre u2.
Proof.
  destruct instrument, timbre; intros H;
    first [now elim H | unfold Legacy.voice; reflexivity].
Qed.

Lemma legacy_forEach_indep us1 us2 midiNotes index :
  (instrument, timbre) <> (Piano, HonkyTonk) ->
  Legacy.forEach master now instrument timbre us1 midiNotes index
  = Legacy.forEach master now instrument timbre us2 midiNotes index.
Proof.
  intros H. revert index. induction midiNotes as [|note rest IH]; intros index.
  - reflexivity.
  - cbn [Legacy.forEach].
    rewrite (legacy_voice_indep _ _ (us1 index) (us2 index) H), IH. reflexivity.
Qed.

Lemma legacy_voice_similar freq startTime u1 u2 base :
  let m1 := Legacy.voice master freq startTime instrument timbre u1 in
  let m2 := Legacy.voice master freq startTime instrument timbre u2 in
  result m1 base = result m2 base
  /\ next m1 base = next m2 base
  /\ Forall2 sameButDetune (effects m1 base) (effects m2 base)
  /\ (0 <= u1 < 1 -> Forall detuneWithin (effects m1 base)).
Proof.
  destruct instrument, timbre; run_audio;
    (split; [reflexivity|]); (split; [reflexivity|]);
    (split;
     [ repeat (apply Forall2_cons;
               [first [left; reflexivity | right; eexists _, _, _; split; reflexivity]|]);
       apply Forall2_nil
     | intros Hu;
       repeat (apply Forall_cons; [first [exact I | cbn; lra]|]);
       apply Forall_nil ]).
Qed.

End Determinism.

Section Runs.

Variables (p : Platform) (midiNotes : list Z) (instrument : InstrumentType)
  (timbre : PianoTimbre).

Lemma legacy_forEach_similar master now us1 us2 notes index base :
  let m1 := Legacy.forEach master now instrument timbre us1 notes index in
  let m2 := Legacy.forEach master now instrument timbre us2 notes index in
  result m1 base = result m2 base
  /\ next m1 base = next m2 base
  /\ Forall2 sameButDetune (effects m1 base) (effects m2 base)
  /\ ((forall i, 0 <= us1 i < 1) -> Forall detuneWithin (effects m1 base)).
Proof.
  revert index base. induction notes as [|note rest IH]; intros index base.
  - cbn. repeat split; constructor.
  - cbn [Legacy.forEach].
    set (st := now + Legacy.stagger instrument index).
    set (v1 := Legacy.voice master (midiToFreq note) st instrument timbre (us1 index)).
    set (v2 := Legacy.voice master (midiToFreq note) st instrument timbre (us2 index)).
    destruct (collect_run v1
                (Legacy.forEach master now instrument timbre us1 rest (S index)) base)
      as (Er1 & Ee1 & En1);
      [apply legacy_uniform_voice | apply legacy_uniform_forEach |].
    destruct (collect_run v2
                (Legacy.forEach master now instrument timbre us2 rest (S index)) base)
      as (Er2 & Ee2 & En2);
      [apply legacy_uniform_voice | apply legacy_uniform_forEach |].
    cbv zeta in Er1, Ee1, En1, Er2, Ee2, En2.
    rewrite Er1, Ee1, En1, Er2, Ee2, En2. clear Er1 Ee1 En1 Er2 Ee2 En2.
    destruct (legacy_voice_similar master instrument timbre (midiToFreq note) st
                (us1 index) (us2 index) base) as (R0 & N0 & F0 & D0).
    fold v1 in R0, N0, F0, D0. fold v2 in R0, N0, F0.
    destruct (IH (S index) (next v1 base)) as (R1 & N1 & F1 & D1).
    cbv zeta in R1, N1, F1, D1. rewrite <- N0.
    split; [now rewrite R0, R1|]. split; [exact N1|]. split.
    + apply Forall2_app; assumption.
    + intros Hu. apply Forall_app. split; [apply D0, Hu | apply D1, Hu].
Qed.

End Runs.

Section TwoRuns.

Variables (p : Platform) (us1 us2 : nat -> R) (midiNotes : list Z)
  (instrument : InstrumentType) (timbre : PianoTimbre).

Lemma engine_startChord_indep e :
  Engine.ctx e <> None ->
  Engine.startChord p us1 midiNotes instrument timbre e
  = Engine.startChord p us2 midiNotes instrument timbre e.
Proof.
  intros H. unfold Engine.startChord.
  replace (Engine.init p us2 e) with (Engine.init p us1 e); [reflexivity|].
  unfold Engine.init. destruct (Engine.ctx e); [reflexivity | now elim H].
Qed.

Lemma engine_first_run us :
  let build := Engine.forEach 0%nat 0 instrument timbre midiNotes 0 in
  Engine.startChord p us midiNotes instrument timbre Engine.audioEngine
  = {| Engine.ctx :=
         Some {| currentTime := 0; state := running; sampleRate := hwRate p;
                 fresh := next build 3%nat;
                 calls := mixBus p us
                          ++ match hwState p with
                             | suspended => [Resume]
                             | running => []
                             end
                          ++ effects build 3%nat |};
       Engine.masterGain := Some 0%nat;
       Engine.reverbNode := Some 1%nat;
       Engine.reverbGain := Some 2%nat;
       Engine.activeNodes := result build 3%nat |}.
Proof.
  intros build. unfold Engine.startChord. rewrite engine_init_first.
  unfold Engine.stopChord.
  cbn [Engine.ctx Engine.activeNodes Engine.masterGain Engine.reverbNode
       Engine.reverbGain currentTime].
  fold build.
  rewrite (uniform_run build _
             (engine_uniform_forEach 0%nat 0 instrument timbre midiNotes 0)).
  cbn [fst snd fresh calls currentTime state sampleRate].
  now rewrite <- app_assoc.
Qed.

Lemma legacy_init_calls e k :
  Legacy.ctx (Legacy.init p e) = Some k ->
  exists more, calls k = legacyCalls e ++ more /\ Forall detuneWithin more.
Proof.
  unfold Legacy.init, legacyCalls.
  destruct (Legacy.ctx e) as [k0|] eqn:Hk.
  - cbn [Legacy.ctx]. rewrite Hk. destruct (state k0).
    + cbn [Legacy.ctx]. intros [= <-]. exists [Resume]. split; [reflexivity|].
      repeat constructor.
    + rewrite Hk. intros [= <-]. exists []. split; [now rewrite app_nil_r|constructor].
  - run_audio. cbn [Legacy.ctx newAudioContext state calls].
    destruct (hwState p); cbn; intros [= <-]; eexists; (split; [reflexivity|]);
      repeat (apply Forall_cons; [exact I|]); apply Forall_nil.
Qed.

Lemma releases_detuneWithin nodes t :
  Forall detuneWithin (flat_map (fun h => releaseCalls (release h) t) nodes).
Proof.
  induction nodes as [|h hs IH]; [constructor|].
  cbn [flat_map]. apply Forall_app. split; [|exact IH].
  destruct (release h) as [|g oscs]; [constructor|].
  cbn [releaseCalls]. apply Forall_app. split.
  - repeat (apply Forall_cons; [exact I|]). apply Forall_nil.
  - induction oscs; cbn; constructor; [exact I | assumption].
Qed.

Lemma legacy_startChord_similar e :
  legacyWellFormed e ->
  let r1 := Legacy.startChord p us1 midiNotes instrument timbre e in
  let r2 := Legacy.startChord p us2 midiNotes instrument timbre e in
  Legacy.activeNodes r1 = Legacy.activeNodes r2
  /\ Forall2 sameButDetune (legacyCalls r1) (legacyCalls r2)
  /\ ((forall i, 0 <= us1 i < 1) ->
      exists made, legacyCalls r1 = legacyCalls e ++ made
                   /\ Forall detuneWithin made).
Proof.
  intros W r1 r2.
  destruct (legacy_startChord_run p us1 midiNotes instrument timbre e W)
    as (k & m & Hk & Hm & _ & _ & _ & E1).
  destruct (legacy_startChord_run p us2 midiNotes instrument timbre e W)
    as (k' & m' & Hk' & Hm' & _ & _ & _ & E2).
  rewrite Hk in Hk'. injection Hk' as <-. rewrite Hm in Hm'. injection Hm' as <-.
  cbv zeta in E1, E2. unfold r1, r2. rewrite E1, E2. unfold legacyCalls at 1 2 3.
  cbn [Legacy.ctx Legacy.activeNodes calls].
  destruct (legacy_forEach_similar instrument timbre m (currentTime k) us1 us2
              midiNotes 0 (fresh k)) as (R0 & _ & F0 & D0).
  cbv zeta in R0, F0, D0.
  split; [exact R0|]. split.
  - apply Forall2_app; [apply Forall2_same|].
    apply Forall2_app; [apply Forall2_same | exact F0].
  - intros Hu. destruct (legacy_init_calls e k Hk) as (more & Hc & Hd).
    eexists. rewrite Hc, <- app_assoc. split; [reflexivity|].
    apply Forall_app. split; [exact Hd|].
    apply Forall_app. split; [apply releases_detuneWithin | apply D0, Hu].
Qed.

End TwoRuns.

(** C10, as the code has it. In [audioEngine.ts] the voices do not depend
    on [Math.random]: on an initialized engine two runs of [startChord] with
    the same arguments are identical, and on first use they differ in the
    random impulse of [init] only. In [part_001] two runs are identical for
    every instrument and timbre but Piano/HonkyTonk; there they register
    the same handles and make the same calls up to the values of the
    detunes, which are drawn from [-5, 5). *)
Theorem voice_construction_runs (p : Platform) (us1 us2 : nat -> R)
    (midiNotes : list Z) (instrument : InstrumentType) (timbre : PianoTimbre) :
  (forall e, Engine.ctx e <> None ->
     Engine.startChord p us1 midiNotes instrument timbre e
     = Engine.startChord p us2 midiNotes instrument timbre e)
  /\ (let r1 := Engine.startChord p us1 midiNotes instrument timbre Engine.audioEngine in
      let r2 := Engine.startChord p us2 midiNotes instrument timbre Engine.audioEngine in
      Engine.activeNodes r1 = Engine.activeNodes r2
      /\ exists voices, engineCalls r1 = mixBus p us1 ++ voices
                        /\ engineCalls r2 = mixBus p us2 ++ voices)
  /\ ((instrument, timbre) <> (Piano, HonkyTonk) ->
      forall e, Legacy.startChord p us1 midiNotes instrument timbre e
                = Legacy.startChord p us2 midiNotes instrument timbre e)
  /\ (forall e, legacyWellFormed e ->
      let r1 := Legacy.startChord p us1 midiNotes instrument timbre e in
      let r2 := Legacy.startChord p us2 midiNotes instrument timbre e in
      Legacy.activeNodes r1 = Legacy.activeNodes r2
      /\ Forall2 sameButDetune (legacyCalls r1) (legacyCalls r2)
      /\ ((forall i, 0 <= us1 i < 1) ->
          exists made, legacyCalls r1 = legacyCalls e ++ made
                       /\ Forall detuneWithin made)).
Proof.
  split; [apply engine_startChord_indep|]. split; [|split].
  - cbv zeta. rewrite !engine_first_run. unfold engineCalls.
    cbn [Engine.ctx Engine.activeNodes calls].
    split; [reflexivity|]. eexists. split; reflexivity.
  - intros H e. unfold Legacy.startChord.
    destruct (Legacy.ctx (Legacy.stopChord (Legacy.init p e))) as [k|]; [|reflexivity].
    destruct (Legacy.masterGain (Legacy.stopChord (Legacy.init p e))) as [m|];
      [|reflexivity].
    now rewrite (legacy_forEach_indep m (currentTime k) instrument timbre us1 us2
                   midiNotes 0 H).
  - intros e W. now apply legacy_startChord_similar.
Qed.

Lemma voice_construction_runs_witness :
  Legacy.startChord browser zeros [60; 64]%Z Guitar Grand Legacy.audioEngine
  = Legacy.startChord browser halves [60; 64]%Z Guitar Grand Legacy.audioEngine
  /\ (exists made,
        legacyCalls (Legacy.startChord browser halves [60]%Z Piano HonkyTonk
                       Legacy.audioEngine)
        = legacyCalls Legacy.audioEngine ++ made
        /\ Forall detuneWithin made)
  /\ Engine.startChord browser zeros [60]%Z Piano HonkyTonk
       (Engine.startChord browser zeros [] Piano Grand Engine.audioEngine)
     = Engine.startChord browser halves [60]%Z Piano HonkyTonk
         (Engine.startChord browser zeros [] Piano Grand Engine.audioEngine).
Proof.
  split; [|split].
  - apply (voice_construction_runs browser zeros halves [60; 64]%Z Guitar Grand).
    discriminate.
  - apply (voice_construction_runs browser halves zeros [60]%Z Piano HonkyTonk).
    + exact legacy_audioEngine_wellFormed.
    + intros i. unfold halves. lra.
  - apply (voice_construction_runs browser zeros halves [60]%Z Piano HonkyTonk).
    rewrite engine_first_run. discriminate.
Defined.

(** C10, as stated, fails in [part_001]: with the same arguments and
    another result of [Math.random()], the HonkyTonk oscillator is detuned
    by -5 cents in one run and by 0 cents in the other. *)
Lemma honkytonk_runs_differ :
  detunes (legacyCalls
    (Legacy.startChord browser zeros [60]%Z Piano HonkyTonk Legacy.audioEngine))
  = [0 * 10 - 5]
  /\ detunes (legacyCalls
       (Legacy.startChord browser halves [60]%Z Piano HonkyTonk Legacy.audioEngine))
     = [0.5 * 10 - 5]
  /\ Legacy.startChord browser zeros [60]%Z Piano HonkyTonk Legacy.audioEngine
     <> Legacy.startChord browser halves [60]%Z Piano HonkyTonk Legacy.audioEngine.
Proof.
  assert (A : detunes (legacyCalls
    (Legacy.startChord browser zeros [60]%Z Piano HonkyTonk Legacy.audioEngine))
    = [0 * 10 - 5]) by (run_legacy; reflexivity).
  assert (B : detunes (legacyCalls
    (Legacy.startChord browser halves [60]%Z Piano HonkyTonk Legacy.audioEngine))
    = [0.5 * 10 - 5]) by (run_legacy; reflexivity).
  split; [exact A|]. split; [exact B|].
  intros H. rewrite H, B in A. injection A as A. lra.
Qed.

(** ** The reverb impulse *)

Section Windows.

Lemma window_map_seq (f : nat -> R) size k n :
  (k * size + size <= n)%nat ->
  window size k (map f (seq 0 n)) = map f (seq (k * size) size).
Proof.
  intros H. unfold window. rewrite skipn_map, firstn_map, skipn_seq. f_equal.
  replace (n - k * size)%nat with (size + (n - k * size - size))%nat by lia.
  rewrite seq_app, firstn_app, length_seq, Nat.sub_diag, firstn_O, app_nil_r.
  rewrite <- (length_seq size (0 + k * size)) at 1. apply firstn_all.
Qed.

Lemma map_seq_shift (f : nat -> R) a d n :
  map f (seq (a + d) n) = map (fun i => f (i + d)%nat) (seq a n).
Proof.
  revert a. induction n as [|n IH]; intros a; [reflexivity|].
  cbn [seq map]. f_equal. apply (IH (S a)).
Qed.

Lemma sumOfSquares_map_le (f g : nat -> R) a n :
  (forall i, (a <= i < a + n)%nat -> Rabs (f i) <= g i) ->
  sumOfSquares (map f (seq a n)) <= sumOfSquares (map g (seq a n)).
Proof.
  revert a. induction n as [|n IH]; intros a H; [cbn; lra|].
  cbn [seq map sumOfSquares fold_right].
  assert (H0 : Rabs (f a) <= g a) by (apply H; lia).
  assert (H1 : sumOfSquares (map f (seq (S a) n)) <= sumOfSquares (map g (seq (S a) n))).
  { apply IH. intros i Hi. apply H. lia. }
  unfold sumOfSquares in H1.
  assert (H2 : f a * f a <= g a * g a).
  { destruct (Rcase_abs (f a)) as [Hn|Hp].
    - rewrite (Rabs_left _ Hn) in H0. nra.
    - rewrite (Rabs_right _ Hp) in H0. nra. }
  lra.
Qed.

Lemma energy_map_seq (f : nat -> R) a n :
  energy (map f (seq a n)) = sumOfSquares (map f (seq a n)) / INR n.
Proof. unfold energy. now rewrite length_map, length_seq. Qed.

End Windows.

Section Impulse.

Variables (k : AudioContext) (us : nat -> R) (duration decay : R).

Let span := IZR (Zpos (sampleRate k)) * duration.

Lemma impulse_frames n : span = INR n -> Z.to_nat (Int_part span) = n.
Proof. intros ->. now rewrite Int_part_INR, Nat2Z.id. Qed.

Lemma impulse_frame_inside i :
  (i < Z.to_nat (Int_part span))%nat -> INR i < span.
Proof.
  intros H. destruct (base_Int_part span) as [Hle _].
  assert (Hz : (Z.of_nat i < Int_part span)%Z) by lia.
  apply IZR_lt in Hz. rewrite <- INR_IZR_INZ in Hz. lra.
Qed.

Lemma envelope_positive i : 0 < Engine.envelope span decay i.
Proof. unfold Engine.envelope, Rpower. apply exp_pos. Qed.

Lemma envelope_base i : INR i < span -> 0 < 1 - INR i / span <= 1.
Proof.
  intros H. pose proof (pos_INR i) as P.
  assert (L : 0 < span) by lra.
  pose proof (Rinv_0_lt_compat _ L) as I.
  assert (E : span * / span = 1) by (apply Rinv_r; lra).
  unfold Rdiv. split; nra.
Qed.

Lemma envelope_decreasing i j :
  0 <= decay -> (i <= j)%nat -> INR j < span ->
  Engine.envelope span decay j <= Engine.envelope span decay i.
Proof.
  intros D Hij Hj. unfold Engine.envelope.
  apply Rle_Rpower_l; [exact D|].
  split; [apply envelope_base, Hj|].
  apply le_INR in Hij. pose proof (pos_INR i) as P.
  assert (L : 0 < span) by lra.
  pose proof (Rinv_0_lt_compat _ L) as I.
  unfold Rdiv. nra.
Qed.

Lemma sample_bounded u i :
  0 <= u < 1 ->
  Rabs ((u * 2 - 1) * Engine.envelope span decay i)
  <= Engine.envelope span decay i.
Proof.
  intros Hu. pose proof (envelope_positive i) as P.
  rewrite Rabs_mult, (Rabs_right (Engine.envelope span decay i)) by lra.
  assert (A : Rabs (u * 2 - 1) <= 1) by (apply Rabs_le; lra).
  pose proof (Rabs_pos (u * 2 - 1)). nra.
Qed.

End Impulse.

Section ImpulseBuffer.

Lemma nth_map_seq (f : nat -> R) n i d :
  (i < n)%nat -> nth i (map f (seq 0 n)) d = f i.
Proof.
  intros H. rewrite (nth_indep _ d (f 0%nat)) by now rewrite length_map, length_seq.
  now rewrite map_nth, seq_nth.
Qed.

Lemma energy_le_map (f g : nat -> R) a size :
  (0 < size)%nat ->
  (forall i, (a <= i < a + size)%nat -> Rabs (f i) <= g i) ->
  energy (map f (seq a size)) <= energy (map g (seq a size)).
Proof.
  intros Hs H. rewrite !energy_map_seq.
  apply Rmult_le_compat_r; [|now apply sumOfSquares_map_le].
  apply Rlt_le, Rinv_0_lt_compat, lt_0_INR, Hs.
Qed.

End ImpulseBuffer.

(** C7, as the code has it. Each channel of the impulse has as many
    samples as there are whole frames in [duration * sampleRate], which is
    [duration * sampleRate] itself when that is a whole number; sample [i]
    of the left channel is [(u * 2 - 1) * (1 - i / length) ^ decay] for one
    result [u] of [Math.random()], and sample [i] of the right channel is
    the same for the next result. The envelope [(1 - i / length) ^ decay]
    does not increase with [i] when [decay >= 0], and bounds the magnitude
    of each sample; so the energy of a window of either channel is at most
    the energy of the same window of the envelope, and the energy of the
    envelope over successive equal-length windows is non-increasing. *)
Theorem impulse_generator (k : AudioContext) (us : nat -> R)
    (duration decay : R) :
  let span := IZR (Zpos (sampleRate k)) * duration in
  let frames := Z.to_nat (Int_part span) in
  let buf := Engine.generateReverbImpulse k us duration decay in
  let env := envelopeOf k duration decay in
  length (left buf) = frames /\ length (right buf) = frames
  /\ (forall n, span = INR n -> frames = n)
  /\ (forall i, (i < frames)%nat ->
        nth i (left buf) 0
        = (us (2 * i)%nat * 2 - 1) * Rpower (1 - INR i / span) decay
        /\ nth i (right buf) 0
           = (us (2 * i + 1)%nat * 2 - 1) * Rpower (1 - INR i / span) decay)
  /\ (0 <= decay ->
      forall i j, (i <= j)%nat -> (j < frames)%nat -> nth j env 0 <= nth i env 0)
  /\ ((forall i, 0 <= us i < 1) ->
      forall i, (i < frames)%nat ->
        Rabs (nth i (left buf) 0) <= nth i env 0
        /\ Rabs (nth i (right buf) 0) <= nth i env 0)
  /\ ((forall i, 0 <= us i < 1) ->
      forall size w, (0 < size)%nat -> (w * size + size <= frames)%nat ->
        energy (window size w (left buf)) <= energy (window size w env)
        /\ energy (window size w (right buf)) <= energy (window size w env))
  /\ (0 <= decay ->
      forall size w, (0 < size)%nat -> (S w * size + size <= frames)%nat ->
        energy (window size (S w) env) <= energy (window size w env)).
Proof.
  intros span frames buf env.
  pose proof (impulse_frame_inside k duration) as In. fold span frames in In.
  unfold buf, env, envelopeOf, Engine.generateReverbImpulse.
  cbn [left right]. cbv zeta. fold span. fold frames.
  split; [now rewrite length_map, length_seq|].
  split; [now rewrite length_map, length_seq|].
  split; [exact (impulse_frames k duration)|].
  split; [|split; [|split; [|split]]].
  - intros i Hi. rewrite !nth_map_seq by exact Hi. now split.
  - intros D i j Hij Hj. rewrite !nth_map_seq by lia.
    apply envelope_decreasing; [exact D | exact Hij | apply In, Hj].
  - intros Hu i Hi. rewrite !nth_map_seq by exact Hi.
    split; apply sample_bounded, Hu.
  - intros Hu size w Hs Hw. rewrite !window_map_seq by exact Hw.
    split; apply energy_le_map; try exact Hs; intros i _; apply sample_bounded, Hu.
  - intros D size w Hs Hw. rewrite !window_map_seq by lia.
    replace (S w * size)%nat with (w * size + size)%nat by lia.
    rewrite map_seq_shift. apply energy_le_map; [exact Hs|].
    intros i Hi. rewrite Rabs_right by (apply Rle_ge, Rlt_le, envelope_positive).
    apply envelope_decreasing; [exact D | lia | apply In; lia].
Qed.

Section ImpulseExamples.

Lemma browser_frames :
  IZR (Zpos (sampleRate (newAudioContext browser))) * 2.0 = INR (Z.to_nat 88200).
Proof.
  cbn [sampleRate newAudioContext browser hwRate].
  rewrite INR_IZR_INZ, Z2Nat.id by lia. lra.
Qed.

Lemma quietThenLoud_range i : 0 <= quietThenLoud i < 1.
Proof. unfold quietThenLoud. destruct (i <? 8)%nat; lra. Qed.

End ImpulseExamples.

Lemma impulse_generator_witness :
  let buf := Engine.generateReverbImpulse (newAudioContext browser) halves 2.0 2.0 in
  let env := envelopeOf (newAudioContext browser) 2.0 2.0 in
  IZR (Zpos (sampleRate (newAudioContext browser))) * 2.0 = INR (Z.to_nat 88200)
  /\ length (left buf) = Z.to_nat 88200
  /\ nth 1 env 0 <= nth 0 env 0
  /\ Rabs (nth 5 (right buf) 0) <= nth 5 env 0
  /\ energy (window 4 0 (left buf)) <= energy (window 4 0 env)
  /\ energy (window 4 1 env) <= energy (window 4 0 env).
Proof.
  destruct (impulse_generator (newAudioContext browser) halves 2.0 2.0)
    as (L & _ & F & _ & Mono & Bound & Under & Decay).
  specialize (F _ browser_frames). rewrite F in L, Mono, Bound, Under, Decay.
  assert (U : forall i, 0 <= halves i < 1) by (intros i; unfold halves; lra).
  split; [exact browser_frames|]. split; [exact L|].
  split; [apply Mono; [lra | lia | lia]|].
  split; [apply (Bound U); lia|].
  split; [apply (Under U); lia|].
  apply Decay; [lra | lia | lia].
Defined.

(** C7, as stated, fails: the content is random, and the energy of a
    window can exceed that of the window before it. Here the first eight
    results of [Math.random()] are 0.5, which makes the first four samples
    of each channel 0, and the following results are 0. *)
Lemma impulse_energy_can_increase :
  let buf := Engine.generateReverbImpulse (newAudioContext browser)
               quietThenLoud 2.0 2.0 in
  (forall i, 0 <= quietThenLoud i < 1)
  /\ energy (window 4 0 (left buf)) = 0
  /\ energy (window 4 0 (left buf)) < energy (window 4 1 (left buf)).
Proof.
  cbv zeta. split; [exact quietThenLoud_range|].
  unfold Engine.generateReverbImpulse. cbn [left]. cbv zeta.
  rewrite (impulse_frames _ _ _ browser_frames).
  rewrite !window_map_seq by lia. rewrite !energy_map_seq.
  cbn [Nat.mul Nat.add seq map sumOfSquares fold_right].
  unfold quietThenLoud. cbn [Nat.mul Nat.add Nat.ltb Nat.leb].
  set (span := IZR (Zpos (sampleRate (newAudioContext browser))) * 2.0).
  pose proof (envelope_positive (newAudioContext browser) 2.0 2.0 4) as P4.
  pose proof (envelope_positive (newAudioContext browser) 2.0 2.0 5) as P5.
  pose proof (envelope_positive (newAudioContext browser) 2.0 2.0 6) as P6.
  pose proof (envelope_positive (newAudioContext browser) 2.0 2.0 7) as P7.
  fold span in P4, P5, P6, P7.
  assert (I4 : INR 4 = 4) by (cbn; lra).
  rewrite I4. split; [lra|]. nra.
Qed.

(** * The chord table *)

Section ChordTable.

Lemma lookup_in key map v :
  App.lookup key map = Some v -> In (key, v) map.
Proof.
  induction map as [|[k w] rest IH]; [discriminate|].
  cbn [App.lookup]. destruct (String.eqb_spec key k) as [->|_].
  - intros [= ->]. now left.
  - intros H. right. exact (IH H).
Qed.

Lemma root_index_range key v :
  App.lookup key App.ROOT_MIDI_MAP = Some v -> (0 <= v <= 11)%Z.
Proof.
  intros H. apply lookup_in in H. unfold App.ROOT_MIDI_MAP in H. cbn [In] in H.
  repeat (destruct H as [H|H]; [injection H as _ <-; lia|]). now elim H.
Qed.

Lemma getNoteName_defined rootIndex interval :
  (0 <= rootIndex + interval)%Z ->
  exists name, App.getNoteName rootIndex interval = Some name.
Proof.
  intros H. unfold App.getNoteName. cbv zeta.
  rewrite Z.rem_mod_nonneg by lia.
  pose proof (Z.mod_pos_bound (rootIndex + interval) 12 ltac:(lia)) as B.
  destruct (Z.ltb_spec ((rootIndex + interval) mod 12) 0) as [L|_]; [lia|].
  destruct (nth_error App.ROOTS (Z.to_nat ((rootIndex + interval) mod 12))) eqn:E.
  - now eexists.
  - apply nth_error_None in E. cbn in E. lia.
Qed.

(** An interval and the same interval an octave up have the same name. *)
Lemma raised_pitch_class i : ((i + 12) mod 12 = i mod 12)%Z.
Proof.
  replace (i + 12)%Z with (i + 1 * 12)%Z by lia. apply Z.mod_add. lia.
Qed.

End ChordTable.

Section Inversions.

Lemma pitchClass_raised i : pitchClass (i + 12) = pitchClass i.
Proof. apply raised_pitch_class. Qed.

Lemma raiseLowest_pitch_classes x xs :
  Permutation (map pitchClass (App.raiseLowest (x :: xs) x))
              (map pitchClass (x :: xs)).
Proof.
  unfold App.raiseLowest. cbn [skipn map]. rewrite map_app. cbn [map].
  rewrite pitchClass_raised. symmetry. apply Permutation_cons_append.
Qed.

End Inversions.

(** X1. [generateVariations] on a root of the map and three or four
    ascending intervals within an octave, the lowest not negative: there
    are as many variations as intervals; variation [k] is inversion [k], has
    interval [k] of the base in the bass, is again ascending and within an
    octave, has the pitch classes of the base, and is named after the note
    in its bass (the plain chord name for the root position). *)
Theorem generateVariations_inversions (root : String.string)
    (quality : App.ChordQuality) (base : list Z) (rootIndex : Z) :
  App.lookup root App.ROOT_MIDI_MAP = Some rootIndex ->
  (length base = 3 \/ length base = 4)%nat ->
  StronglySorted Z.lt base ->
  (0 <= hd 0 base)%Z ->
  (last base 0 < hd 0 base + 12)%Z ->
  exists vs,
    App.generateVariations root quality base = Some vs
    /\ length vs = length base
    /\ forall k v, nth_error vs k = Some v ->
         App.root v = root /\ App.quality v = quality
         /\ App.inversion v = Z.of_nat k
         /\ length (App.intervals v) = length base
         /\ hd 0%Z (App.intervals v) = nth k base 0%Z
         /\ StronglySorted Z.lt (App.intervals v)
         /\ (last (App.intervals v) 0 < hd 0 (App.intervals v) + 12)%Z
         /\ Permutation (map pitchClass (App.intervals v)) (map pitchClass base)
         /\ exists bass,
              App.getNoteName rootIndex (hd 0%Z (App.intervals v)) = Some bass
              /\ App.displayName v
                 = if (k =? 0)%nat then App.baseName root quality
                   else App.slashName root quality bass.
Proof.
  intros Hroot Hlen Hsorted Hlow Hspan.
  pose proof (root_index_range _ _ Hroot) as Hr.
  destruct base as [|b0 [|b1 [|b2 [|b3 [|b4 rest]]]]];
    cbn [length] in Hlen; try (exfalso; lia); clear Hlen.
  - (* a triad *)
    cbn [hd last] in Hlow, Hspan.
    apply StronglySorted_inv in Hsorted as [Hs1 H0]. inversion H0 as [|? ? H01 H0']; subst.
    apply StronglySorted_inv in Hs1 as [_ H1]. inversion H1 as [|? ? H12 _]; subst.
    inversion H0' as [|? ? H02 _]; subst.
    destruct (getNoteName_defined rootIndex b0) as [n0 E0]; [lia|].
    destruct (getNoteName_defined rootIndex b1) as [n1 E1]; [lia|].
    destruct (getNoteName_defined rootIndex b2) as [n2 E2]; [lia|].
    unfold App.generateVariations. rewrite Hroot.
    cbn [App.raiseLowest skipn app length Nat.eqb]. rewrite E1, E2.
    eexists. split; [reflexivity|]. split; [reflexivity|].
    intros k v Hk.
    destruct k as [|[|[|k]]]; cbn [nth_error] in Hk;
      [injection Hk as <-.. | destruct k; discriminate Hk];
      cbn [App.root App.quality App.inversion App.intervals App.displayName
           length hd last nth Nat.eqb];
      (split; [reflexivity|]); (split; [reflexivity|]); (split; [reflexivity|]);
      (split; [reflexivity|]); (split; [reflexivity|]);
      (split; [repeat constructor; lia|]); (split; [lia|]); split.
    + apply Permutation_refl.
    + exists n0. now split.
    + apply (raiseLowest_pitch_classes b0 [b1; b2]).
    + exists n1. now split.
    + etransitivity; [apply (raiseLowest_pitch_classes b1 [b2; (b0 + 12)%Z])|].
      apply (raiseLowest_pitch_classes b0 [b1; b2]).
    + exists n2. now split.
  - (* a seventh chord *)
    cbn [hd last] in Hlow, Hspan.
    apply StronglySorted_inv in Hsorted as [Hs1 H0].
    inversion H0 as [|? ? H01 H0']; subst.
    inversion H0' as [|? ? H02 H0'']; subst.
    inversion H0'' as [|? ? H03 _]; subst.
    apply StronglySorted_inv in Hs1 as [Hs2 H1].
    inversion H1 as [|? ? H12 H1']; subst.
    inversion H1' as [|? ? H13 _]; subst.
    apply StronglySorted_inv in Hs2 as [_ H2].
    inversion H2 as [|? ? H23 _]; subst.
    destruct (getNoteName_defined rootIndex b0) as [n0 E0]; [lia|].
    destruct (getNoteName_defined rootIndex b1) as [n1 E1]; [lia|].
    destruct (getNoteName_defined rootIndex b2) as [n2 E2]; [lia|].
    destruct (getNoteName_defined rootIndex b3) as [n3 E3]; [lia|].
    unfold App.generateVariations. rewrite Hroot.
    cbn [App.raiseLowest skipn app length Nat.eqb nth_error]. rewrite E1, E2, E3.
    eexists. split; [reflexivity|]. split; [reflexivity|].
    intros k v Hk.
    destruct k as [|[|[|[|k]]]]; cbn [nth_error] in Hk;
      [injection Hk as <-.. | destruct k; discriminate Hk];
      cbn [App.root App.quality App.inversion App.intervals App.displayName
           length hd last nth Nat.eqb];
      (split; [reflexivity|]); (split; [reflexivity|]); (split; [reflexivity|]);
      (split; [reflexivity|]); (split; [reflexivity|]);
      (split; [repeat constructor; lia|]); (split; [lia|]); split.
    + apply Permutation_refl.
    + exists n0. now split.
    + apply (raiseLowest_pitch_classes b0 [b1; b2; b3]).
    + exists n1. now split.
    + etransitivity; [apply (raiseLowest_pitch_classes b1 [b2; b3; (b0 + 12)%Z])|].
      apply (raiseLowest_pitch_classes b0 [b1; b2; b3]).
    + exists n2. now split.
    + etransitivity;
        [apply (raiseLowest_pitch_classes b2 [b3; (b0 + 12)%Z; (b1 + 12)%Z])|].
      etransitivity; [apply (raiseLowest_pitch_classes b1 [b2; b3; (b0 + 12)%Z])|].
      apply (raiseLowest_pitch_classes b0 [b1; b2; b3]).
    + exists n3. now split.
Qed.

Lemma generateVariations_inversions_witness :
  exists vs,
    App.generateVariations "C" App.Major7 [0; 4; 7; 11]%Z = Some vs
    /\ length vs = 4%nat
    /\ forall k v, nth_error vs k = Some v ->
         hd 0%Z (App.intervals v) = nth k [0; 4; 7; 11]%Z 0%Z
         /\ StronglySorted Z.lt (App.intervals v).
Proof.
  destruct (generateVariations_inversions "C" App.Major7 [0; 4; 7; 11]%Z 0)
    as (vs & E & L & H).
  - reflexivity.
  - now right.
  - repeat constructor.
  - cbn. lia.
  - cbn. lia.
  - exists vs. split; [exact E|]. split; [exact L|].
    intros k v Hk. destruct (H k v Hk) as (_ & _ & _ & _ & B & S & _).
    now split.
Defined.

Section Names.

Lemma distinct_NoDup names : distinct names = true -> NoDup names.
Proof.
  induction names as [|name rest IH]; [constructor|].
  cbn [distinct]. intros H. apply andb_true_iff in H as [H1 H2].
  constructor; [|exact (IH H2)].
  intros Hin. apply negb_true_iff in H1.
  assert (E : existsb (String.eqb name) rest = true).
  { apply existsb_exists. exists name. split; [exact Hin | apply String.eqb_refl]. }
  congruence.
Qed.

Lemma NoDup_map_injective {A B} (f : A -> B) (xs : list A) :
  NoDup xs -> NoDup (map f xs) ->
  forall a b, In a xs -> In b xs -> f a = f b -> a = b.
Proof.
  induction xs as [|x rest IH]; [now intros _ _ a b []|].
  cbn [map]. intros Hx Hf a b Ha Hb E.
  inversion Hx as [|? ? Hnx Hrest]; inversion Hf as [|? ? Hn Hd]; subst.
  destruct Ha as [<-|Ha], Hb as [<-|Hb].
  - reflexivity.
  - elim Hn. rewrite E. now apply in_map.
  - elim Hn. rewrite <- E. now apply in_map.
  - now apply IH.
Qed.

Lemma NoDup_of_map {A B} (f : A -> B) (xs : list A) : NoDup (map f xs) -> NoDup xs.
Proof.
  induction xs as [|x rest IH]; [constructor|].
  cbn [map]. intros H. inversion H as [|? ? Hn Hd]; subst.
  constructor; [|exact (IH Hd)]. intros Hin. apply Hn. now apply in_map.
Qed.

End Names.

(** X2. The chord table: building it never meets [undefined]; every root
    has 18 chords and there are 216 in all; no two chords have the same
    [displayName], so comparing names, as a guess does, compares chords. *)
Theorem chord_names_identify :
  (forall root, In root App.ROOTS ->
     exists chords, App.chordsOf root = Some chords /\ length chords = 18%nat)
  /\ length App.ALL_CHORDS_FLAT = 216%nat
  /\ (forall c1 c2, In c1 App.ALL_CHORDS_FLAT -> In c2 App.ALL_CHORDS_FLAT ->
        App.displayName c1 = App.displayName c2 -> c1 = c2).
Proof.
  split; [|split].
  - intros root H. unfold App.ROOTS in H. cbn [In] in H.
    repeat (destruct H as [<-|H];
            [eexists; split; [vm_compute; reflexivity | reflexivity]|]).
    now elim H.
  - vm_compute. reflexivity.
  - assert (D : NoDup (map App.displayName App.ALL_CHORDS_FLAT)).
    { apply distinct_NoDup. vm_compute. reflexivity. }
    apply NoDup_map_injective; [|exact D]. exact (NoDup_of_map _ _ D).
Qed.

Lemma chord_names_identify_witness :
  (exists chords, App.chordsOf "Eb" = Some chords /\ length chords = 18%nat)
  /\ forall c, In c App.ALL_CHORDS_FLAT ->
       App.displayName c = "C/E"%string ->
       c = {| App.root := "C"; App.quality := App.Major; App.inversion := 1;
              App.displayName := "C/E"; App.intervals := [4; 7; 12]%Z |}.
Proof.
  destruct chord_names_identify as (G & _ & I). split.
  - apply G. vm_compute. tauto.
  - intros c Hc E. apply (I c _ Hc); [|exact E]. vm_compute. tauto.
Defined.

(** X3. [getChordNotes] on a chord whose root is in the map: the notes are
    the intervals added to one base note, between 52 and 76 (60 to 71 on
    Piano, 52 to 63 on Guitar, 65 to 76 on Violin), so they ascend when the
    intervals do. The pitch class of the base note is that of the root on
    Piano only: on Guitar it is 4 semitones above the root and on Violin 7
    semitones above, since the chord is built on E3 or G4 instead of a C. *)
Theorem getChordNotes_transposed (instrument : InstrumentType)
    (chord : App.Chord) (baseRoot : Z) :
  App.lookup (App.root chord) App.ROOT_MIDI_MAP = Some baseRoot ->
  exists rootMidi,
    App.getChordNotes instrument chord
    = Some (map (fun interval => (rootMidi + interval)%Z) (App.intervals chord))
    /\ match instrument with
       | Piano => 60 <= rootMidi <= 71
       | Guitar => 52 <= rootMidi <= 63
       | Violin => 65 <= rootMidi <= 76
       end%Z
    /\ pitchClass rootMidi = pitchClass (baseRoot + transposition instrument)
    /\ (StronglySorted Z.lt (App.intervals chord) ->
        forall notes, App.getChordNotes instrument chord = Some notes ->
                      StronglySorted Z.lt notes).
Proof.
  intros Hroot. pose proof (root_index_range _ _ Hroot) as Hr.
  unfold App.getChordNotes. rewrite Hroot. cbv zeta.
  assert (P : forall a k, pitchClass (a + k * 12) = pitchClass a).
  { intros a k. unfold pitchClass. apply Z.mod_add. lia. }
  assert (S0 : forall r xs, StronglySorted Z.lt xs ->
                 StronglySorted Z.lt (map (fun i => (r + i)%Z) xs)).
  { intros r xs H. induction H as [|x xs Hs IH Hx]; cbn [map]; constructor.
    - exact IH.
    - rewrite Forall_forall in *. intros y Hy. apply in_map_iff in Hy as (z & <- & Hz).
      specialize (Hx z Hz). lia. }
  eexists. split; [reflexivity|].
  split; [|split].
  - destruct instrument;
      match goal with |- context [(76 <? ?x)%Z] => destruct (Z.ltb_spec 76 x) end;
      lia.
  - unfold transposition.
    destruct instrument;
      match goal with |- context [(76 <? ?x)%Z] => destruct (Z.ltb_spec 76 x) end;
      try lia.
    + replace (60 + baseRoot)%Z with (baseRoot + 0 + 5 * 12)%Z by lia. apply P.
    + replace (52 + baseRoot)%Z with (baseRoot + 4 + 4 * 12)%Z by lia. apply P.
    + replace (67 + baseRoot - 12)%Z with (baseRoot + 7 + 4 * 12)%Z by lia. apply P.
    + replace (67 + baseRoot)%Z with (baseRoot + 7 + 5 * 12)%Z by lia. apply P.
  - intros Hs notes [= <-]. now apply S0.
Qed.

Lemma getChordNotes_transposed_witness :
  App.getChordNotes Violin
    {| App.root := "C"; App.quality := App.Major; App.inversion := 0;
       App.displayName := "C"; App.intervals := [0; 4; 7]%Z |}
  = Some [67; 71; 74]%Z
  /\ pitchClass 67 = pitchClass (0 + 7).
Proof.
  destruct (getChordNotes_transposed Violin
              {| App.root := "C"; App.quality := App.Major; App.inversion := 0;
                 App.displayName := "C"; App.intervals := [0; 4; 7]%Z |} 0 eq_refl)
    as (rootMidi & E & _ & P & _).
  split; reflexivity.
Defined.

(** * The fretboard *)

Section Fretboard.

Lemma firstPosition_found frets noteMidi strings s p :
  StringInstrument.firstPosition frets noteMidi strings s = Some p ->
  exists i base,
    StringInstrument.stringIdx p = (s + i)%nat
    /\ nth_error strings i = Some base
    /\ (base + StringInstrument.fret p = noteMidi)%Z
    /\ (0 <= StringInstrument.fret p <= frets)%Z
    /\ forall j other, (j < i)%nat -> nth_error strings j = Some other ->
         (noteMidi < other \/ other + frets < noteMidi)%Z.
Proof.
  revert s. induction strings as [|base rest IH]; intros s; [discriminate|].
  cbn [StringInstrument.firstPosition]. cbv zeta.
  destruct (Z.leb_spec 0 (noteMidi - base)) as [L|L];
    destruct (Z.leb_spec (noteMidi - base) frets) as [U|U]; cbn [andb].
  1: { intros [= <-]. exists 0%nat, base.
       cbn [StringInstrument.stringIdx StringInstrument.fret nth_error].
       repeat split; try lia. }
  all: intros H; destruct (IH _ H) as (i & b & Hs & Hn & Hf & Hr & Hfirst);
    exists (S i), b; cbn [nth_error];
    (split; [lia|]); (split; [exact Hn|]); (split; [exact Hf|]);
    (split; [exact Hr|]);
    intros [|j] other Hj Ho; cbn [nth_error] in Ho;
    [injection Ho as <-; lia | apply (Hfirst j other); [lia | exact Ho]].
Qed.

Lemma firstPosition_none frets noteMidi strings s :
  StringInstrument.firstPosition frets noteMidi strings s = None ->
  Forall (fun base => noteMidi < base \/ base + frets < noteMidi)%Z strings.
Proof.
  revert s. induction strings as [|base rest IH]; intros s; [constructor|].
  cbn [StringInstrument.firstPosition]. cbv zeta.
  destruct (Z.leb_spec 0 (noteMidi - base)) as [L|L];
    destruct (Z.leb_spec (noteMidi - base) frets) as [U|U]; cbn [andb];
    try discriminate; intros H; constructor; try lia; exact (IH _ H).
Qed.

Lemma firstPosition_playable type noteMidi :
  (exists p, StringInstrument.firstPosition (StringInstrument.frets type) noteMidi
               (StringInstrument.stringBaseNotes type) 0 = Some p)
  <-> playable type noteMidi = true.
Proof.
  destruct (StringInstrument.firstPosition (StringInstrument.frets type) noteMidi
              (StringInstrument.stringBaseNotes type) 0) as [p|] eqn:E.
  - split; [intros _ | now exists p].
    destruct (firstPosition_found _ _ _ _ _ E) as (i & base & _ & Hn & Hf & Hr & _).
    apply nth_error_In in Hn. unfold playable.
    destruct type; cbn [StringInstrument.stringBaseNotes StringInstrument.frets In] in Hn, Hr;
      apply andb_true_iff; split; apply Z.leb_le; lia.
  - split; [now intros [p Hp]|]. intros P. exfalso.
    apply firstPosition_none in E. unfold playable in P.
    destruct type; cbn [StringInstrument.stringBaseNotes StringInstrument.frets] in E;
      apply andb_true_iff in P as [P1 P2]; apply Z.leb_le in P1, P2;
      repeat match goal with
      | H : Forall _ (_ :: _) |- _ => inversion H; subst; clear H
      end; lia.
Qed.

End Fretboard.

(** X4. The dots on the fretboard: every dot is on a string of the
    instrument, at a fret from 0 to the last one, and the open string plus
    the fret is one of the active notes; no string drawn above it could
    have shown that note. There is one dot for each active note from the
    lowest open string to the last fret of the highest string (40 to 76 on
    the guitar, 55 to 86 otherwise) and none for any other note. *)
Theorem positions_sound (type : InstrumentType) (activeNotes : list Z) :
  (forall p, In p (StringInstrument.positions type activeNotes) ->
     exists noteMidi base,
       In noteMidi activeNotes
       /\ nth_error (StringInstrument.stringBaseNotes type)
                    (StringInstrument.stringIdx p) = Some base
       /\ (base + StringInstrument.fret p = noteMidi)%Z
       /\ (0 <= StringInstrument.fret p <= StringInstrument.frets type)%Z
       /\ forall j other, (j < StringInstrument.stringIdx p)%nat ->
            nth_error (StringInstrument.stringBaseNotes type) j = Some other ->
            (noteMidi < other \/ other + StringInstrument.frets type < noteMidi)%Z)
  /\ length (StringInstrument.positions type activeNotes)
     = length (filter (playable type) activeNotes).
Proof.
  split.
  - intros p Hp. unfold StringInstrument.positions in Hp.
    apply in_flat_map in Hp as (noteMidi & Hin & Hp).
    destruct (StringInstrument.firstPosition _ noteMidi _ 0) as [q|] eqn:E;
      [|now elim Hp].
    destruct Hp as [<-|[]].
    destruct (firstPosition_found _ _ _ _ _ E) as (i & base & Hs & Hn & Hf & Hr & Hfirst).
    cbn [Nat.add] in Hs. rewrite Hs.
    exists noteMidi, base. repeat split; try assumption; apply Hr.
  - unfold StringInstrument.positions.
    induction activeNotes as [|n rest IH]; [reflexivity|].
    cbn [flat_map filter]. rewrite length_app, IH.
    pose proof (firstPosition_playable type n) as P.
    destruct (StringInstrument.firstPosition _ n _ 0) as [q|].
    + replace (playable type n) with true; [reflexivity|].
      symmetry. apply P. now exists q.
    + destruct (playable type n); [|reflexivity].
      destruct (proj2 P eq_refl) as [q Hq]. discriminate Hq.
Qed.

Lemma positions_sound_witness :
  StringInstrument.positions Guitar [52; 56; 59; 79]%Z
  = [ {| StringInstrument.stringIdx := 3; StringInstrument.fret := 2 |};
      {| StringInstrument.stringIdx := 2; StringInstrument.fret := 1 |};
      {| StringInstrument.stringIdx := 1; StringInstrument.fret := 0 |} ]
  /\ exists noteMidi base,
       In noteMidi [52; 56; 59; 79]%Z
       /\ nth_error (StringInstrument.stringBaseNotes Guitar) 3 = Some base
       /\ (base + 2 = noteMidi)%Z.
Proof.
  split; [reflexivity|].
  destruct (proj1 (positions_sound Guitar [52; 56; 59; 79]%Z)
              {| StringInstrument.stringIdx := 3; StringInstrument.fret := 2 |})
    as (n & b & Hin & Hb & Hf & _).
  - vm_compute. tauto.
  - exists n, b. repeat split; assumption.
Defined.

(** * The keyboard *)

Section Keys.

Variable activeNotes : list Z.

Let key (i : Z) : Keyboard.Key :=
  {| Keyboard.midi := i; Keyboard.black := Keyboard.isBlackKey i;
     Keyboard.isActive := existsb (Z.eqb i) activeNotes |}.

Lemma filter_map_swap {A B} (p : B -> bool) (f : A -> B) (xs : list A) :
  filter p (map f xs) = map f (filter (fun x => p (f x)) xs).
Proof.
  induction xs as [|x rest IH]; [reflexivity|].
  cbn [map filter]. destruct (p (f x)); cbn [map]; now rewrite IH.
Qed.

Lemma whiteKeys_midi : Keyboard.whiteKeys activeNotes = map key whiteMidi.
Proof. unfold Keyboard.whiteKeys, Keyboard.keys. now rewrite filter_map_swap. Qed.

Lemma blackKeys_midi : Keyboard.blackKeys activeNotes = map key blackMidi.
Proof. unfold Keyboard.blackKeys, Keyboard.keys. now rewrite filter_map_swap. Qed.

Lemma findIndex_keys (m : Z) (xs : list Z) (i : Z) :
  Keyboard.findIndex (fun wk => (Keyboard.midi wk =? m)%Z) (map key xs) i
  = Keyboard.findIndex (fun x => (x =? m)%Z) xs i.
Proof.
  revert i. induction xs as [|x rest IH]; intros i; [reflexivity|].
  cbn [map Keyboard.findIndex Keyboard.midi key]. now rewrite IH.
Qed.

Lemma black_neighbours m :
  In m blackMidi ->
  let i := Keyboard.findIndex (fun x => (x =? m - 1)%Z) whiteMidi 0 in
  (0 <= i)%Z
  /\ nth_error whiteMidi (Z.to_nat i) = Some (m - 1)%Z
  /\ nth_error whiteMidi (Z.to_nat i + 1) = Some (m + 1)%Z
  /\ (i + 1)%Z = Z.of_nat (length (filter (fun x => (x <? m)%Z) whiteMidi)).
Proof.
  intros H. vm_compute in H.
  repeat (destruct H as [<-|H];
          [vm_compute; repeat split; discriminate|]).
  now elim H.
Qed.

Lemma whites_below m :
  length (filter (fun wk => (Keyboard.midi wk <? m)%Z) (Keyboard.whiteKeys activeNotes))
  = length (filter (fun x => (x <? m)%Z) whiteMidi).
Proof.
  rewrite whiteKeys_midi, filter_map_swap, length_map. reflexivity.
Qed.

Lemma black_apart m1 m2 :
  In m1 blackMidi -> In m2 blackMidi -> (m1 < m2)%Z ->
  (Z.of_nat (length (filter (fun x => (x <? m1)%Z) whiteMidi)) + 1
   <= Z.of_nat (length (filter (fun x => (x <? m2)%Z) whiteMidi)))%Z.
Proof.
  intros H1 H2 Hlt.
  assert (T : forallb
                (fun m1 =>
                   forallb
                     (fun m2 =>
                        negb (m1 <? m2)%Z
                        || (Z.of_nat (length (filter (fun x => (x <? m1)%Z) whiteMidi)) + 1
                            <=? Z.of_nat (length (filter (fun x => (x <? m2)%Z) whiteMidi)))%Z)
                     blackMidi)
                blackMidi = true) by (vm_compute; reflexivity).
  rewrite forallb_forall in T. specialize (T m1 H1).
  rewrite forallb_forall in T. specialize (T m2 H2).
  apply Z.ltb_lt in Hlt. rewrite Hlt in T. cbn [negb orb] in T.
  now apply Z.leb_le.
Qed.

End Keys.

(** X5. The black keys of the keyboard: for each of them the white key one
    semitone below is on the keyboard, so [findIndex] never answers -1, and
    the white key after that one is the key one semitone above. The offset
    [leftPos] at which the black key is drawn is 3 rem for every white key
    below it, less 1 rem; so the offsets of two black keys differ by 3 rem
    or more, and black keys, which are 2 rem wide, never overlap. *)
Theorem black_keys_between_whites (activeNotes : list Z) (key : Keyboard.Key) :
  In key (Keyboard.blackKeys activeNotes) ->
  let whiteIndex :=
    Keyboard.findIndex (fun wk => (Keyboard.midi wk =? Keyboard.midi key - 1)%Z)
                       (Keyboard.whiteKeys activeNotes) 0 in
  let below (k : Keyboard.Key) :=
    Z.of_nat (length (filter (fun wk => (Keyboard.midi wk <? Keyboard.midi k)%Z)
                             (Keyboard.whiteKeys activeNotes))) in
  (exists lower upper,
     (0 <= whiteIndex)%Z
     /\ nth_error (Keyboard.whiteKeys activeNotes) (Z.to_nat whiteIndex) = Some lower
     /\ Keyboard.midi lower = (Keyboard.midi key - 1)%Z
     /\ nth_error (Keyboard.whiteKeys activeNotes) (Z.to_nat whiteIndex + 1) = Some upper
     /\ Keyboard.midi upper = (Keyboard.midi key + 1)%Z)
  /\ Keyboard.leftPos activeNotes key = (3 * below key - 1)%Z
  /\ (forall other, In other (Keyboard.blackKeys activeNotes) ->
        (Keyboard.midi key < Keyboard.midi other)%Z ->
        (Keyboard.leftPos activeNotes key + 3
         <= Keyboard.leftPos activeNotes other)%Z).
Proof.
  intros H whiteIndex below. rewrite blackKeys_midi in H.
  apply in_map_iff in H as (m & <- & Hm).
  destruct (black_neighbours m Hm) as (H0 & Hb & Ha & Hc).
  assert (L : forall n, In n blackMidi ->
            Keyboard.leftPos activeNotes
              {| Keyboard.midi := n; Keyboard.black := Keyboard.isBlackKey n;
                 Keyboard.isActive := existsb (Z.eqb n) activeNotes |}
            = (3 * Z.of_nat (length (filter (fun x => (x <? n)%Z) whiteMidi)) - 1)%Z).
  { intros n Hn. destruct (black_neighbours n Hn) as (_ & _ & _ & C).
    unfold Keyboard.leftPos. rewrite whiteKeys_midi, findIndex_keys.
    cbn [Keyboard.midi]. cbv zeta in C. lia. }
  split; [|split].
  - subst whiteIndex. rewrite whiteKeys_midi, findIndex_keys. cbn [Keyboard.midi].
    rewrite !nth_error_map, Hb, Ha. cbn [option_map].
    eexists _, _. repeat split; try reflexivity; assumption.
  - subst below. cbv beta. cbn [Keyboard.midi]. rewrite whites_below. now apply L.
  - intros other Ho Hlt. rewrite blackKeys_midi in Ho.
    apply in_map_iff in Ho as (m' & <- & Hm'). cbn [Keyboard.midi] in Hlt.
    rewrite (L m Hm), (L m' Hm').
    pose proof (black_apart m m' Hm Hm' Hlt). lia.
Qed.

Lemma black_keys_between_whites_witness :
  Keyboard.leftPos [60; 64; 67]%Z
    {| Keyboard.midi := 61; Keyboard.black := true; Keyboard.isActive := false |}
  = 23%Z
  /\ exists lower upper,
       nth_error (Keyboard.whiteKeys [60; 64; 67]%Z) 7 = Some lower
       /\ Keyboard.midi lower = 60%Z
       /\ nth_error (Keyboard.whiteKeys [60; 64; 67]%Z) 8 = Some upper
       /\ Keyboard.midi upper = 62%Z.
Proof.
  split; [reflexivity|].
  destruct (black_keys_between_whites [60; 64; 67]%Z
              {| Keyboard.midi := 61; Keyboard.black := true;
                 Keyboard.isActive := false |})
    as ((lower & upper & _ & Hb & Mb & Ha & Ma) & _).
  - vm_compute. tauto.
  - exists lower, upper. repeat split; assumption.
Defined.

Section KeysLit.

Lemma upTo_spec (lo hi n : Z) :
  In n (Keyboard.upTo lo hi) <-> (lo <= n <= hi)%Z.
Proof.
  unfold Keyboard.upTo. rewrite in_map_iff. split.
  - intros (k & <- & Hk). apply in_seq in Hk. lia.
  - intros H. exists (Z.to_nat (n - lo)). split; [lia|].
    apply in_seq. lia.
Qed.

Lemma includes_spec (i : Z) (notes : list Z) :
  existsb (Z.eqb i) notes = true <-> In i notes.
Proof.
  rewrite existsb_exists. split.
  - intros (x & Hx & E). apply Z.eqb_eq in E. now subst.
  - intros H. exists i. split; [assumption | apply Z.eqb_refl].
Qed.

Lemma key_facts (activeNotes : list Z) (key : Keyboard.Key) :
  In key (Keyboard.keys activeNotes) ->
  (48 <= Keyboard.midi key <= 84)%Z
  /\ Keyboard.black key = Keyboard.isBlackKey (Keyboard.midi key)
  /\ (Keyboard.isActive key = true <-> In (Keyboard.midi key) activeNotes).
Proof.
  intros H. unfold Keyboard.keys in H.
  apply in_map_iff in H as (i & <- & Hi). apply upTo_spec in Hi.
  cbn [Keyboard.midi Keyboard.black Keyboard.isActive].
  split; [exact Hi|]. split; [reflexivity | apply includes_spec].
Qed.

Lemma lit_key (activeNotes : list Z) (n : Z) :
  (exists key, In key (Keyboard.keys activeNotes)
               /\ Keyboard.midi key = n /\ Keyboard.isActive key = true)
  <-> (48 <= n <= 84)%Z /\ In n activeNotes.
Proof.
  split.
  - intros (key & Hk & <- & A). destruct (key_facts _ key Hk) as (R & _ & L).
    split; [exact R | now apply L].
  - intros (R & A).
    exists {| Keyboard.midi := n; Keyboard.black := Keyboard.isBlackKey n;
              Keyboard.isActive := existsb (Z.eqb n) activeNotes |}.
    cbn [Keyboard.midi Keyboard.isActive]. split; [|split].
    + unfold Keyboard.keys. apply in_map_iff. exists n.
      split; [reflexivity | now apply upTo_spec].
    + reflexivity.
    + now apply includes_spec.
Qed.

Lemma positions_length (type : InstrumentType) (activeNotes : list Z) :
  length (StringInstrument.positions type activeNotes)
  = length (filter (playable type) activeNotes).
Proof.
  unfold StringInstrument.positions.
  induction activeNotes as [|n rest IH]; [reflexivity|].
  cbn [flat_map filter]. rewrite length_app, IH.
  pose proof (firstPosition_playable type n) as P.
  destruct (StringInstrument.firstPosition _ n _ 0) as [q|].
  - replace (playable type n) with true; [reflexivity|].
    symmetry. apply P. now exists q.
  - destruct (playable type n); [|reflexivity].
    destruct (proj2 P eq_refl) as [q Hq]. discriminate Hq.
Qed.

Lemma positions_complete (type : InstrumentType) (activeNotes : list Z) (n : Z) :
  In n activeNotes -> playable type n = true ->
  exists p base,
    In p (StringInstrument.positions type activeNotes)
    /\ nth_error (StringInstrument.stringBaseNotes type)
                 (StringInstrument.stringIdx p) = Some base
    /\ (base + StringInstrument.fret p)%Z = n.
Proof.
  intros Hin P. apply firstPosition_playable in P as [p Hp].
  destruct (firstPosition_found _ _ _ _ _ Hp) as (i & base & Hs & Hn & Hf & _).
  exists p, base. cbn [Nat.add] in Hs. rewrite Hs.
  split; [|split; assumption].
  unfold StringInstrument.positions. apply in_flat_map. exists n.
  split; [exact Hin|]. rewrite Hp. now left.
Qed.

Lemma filter_all {A} (p : A -> bool) (xs : list A) :
  forallb p xs = true -> filter p xs = xs.
Proof.
  induction xs as [|x rest IH]; [reflexivity|]. cbn [forallb filter].
  intros H. apply andb_true_iff in H as [-> H]. now rewrite IH.
Qed.

End KeysLit.

(** X6. The keyboard has one key for each note from 48 to 84 and no other,
    37 keys in rising order; a key is highlighted exactly when its note is
    among the active notes, so an active note below 48 or above 84 is shown
    nowhere. *)
Theorem keys_lit (activeNotes : list Z) :
  map Keyboard.midi (Keyboard.keys activeNotes) = Keyboard.upTo 48 84
  /\ length (Keyboard.keys activeNotes) = 37%nat
  /\ (forall key, In key (Keyboard.keys activeNotes) ->
        (48 <= Keyboard.midi key <= 84)%Z
        /\ Keyboard.black key = Keyboard.isBlackKey (Keyboard.midi key)
        /\ (Keyboard.isActive key = true <-> In (Keyboard.midi key) activeNotes))
  /\ (forall n,
        (exists key, In key (Keyboard.keys activeNotes)
                     /\ Keyboard.midi key = n /\ Keyboard.isActive key = true)
        <-> (48 <= n <= 84)%Z /\ In n activeNotes).
Proof.
  split; [|split; [|split; [apply key_facts | apply lit_key]]].
  - unfold Keyboard.keys. rewrite map_map. cbn [Keyboard.midi]. apply map_id.
  - unfold Keyboard.keys. now rewrite length_map.
Qed.

(** X7. Every chord of the table in root position or in first inversion is
    shown in full on the piano and on the guitar: each of its notes, as
    [getChordNotes] gives them for the instrument, is a highlighted key of
    the keyboard, and has a dot on the guitar fretboard. *)
Theorem table_chords_shown (chord : App.Chord) :
  In chord App.ALL_CHORDS_FLAT ->
  (App.inversion chord <= 1)%Z ->
  exists onPiano onGuitar,
    App.getChordNotes Piano chord = Some onPiano
    /\ (forall n, In n onPiano ->
          exists key, In key (Keyboard.keys onPiano)
                      /\ Keyboard.midi key = n /\ Keyboard.isActive key = true)
    /\ App.getChordNotes Guitar chord = Some onGuitar
    /\ length (StringInstrument.positions Guitar onGuitar) = length onGuitar
    /\ (forall n, In n onGuitar ->
          exists p base,
            In p (StringInstrument.positions Guitar onGuitar)
            /\ nth_error (StringInstrument.stringBaseNotes Guitar)
                         (StringInstrument.stringIdx p) = Some base
            /\ (base + StringInstrument.fret p)%Z = n).
Proof.
  intros Hin Hinv.
  assert (T : forallb
                (fun chord =>
                   negb (App.inversion chord <=? 1)%Z
                   || match App.getChordNotes Piano chord,
                            App.getChordNotes Guitar chord with
                      | Some onPiano, Some onGuitar =>
                          forallb (fun n => (48 <=? n)%Z && (n <=? 84)%Z) onPiano
                          && forallb (playable Guitar) onGuitar
                      | _, _ => false
                      end)
                App.ALL_CHORDS_FLAT = true) by (vm_compute; reflexivity).
  rewrite forallb_forall in T. specialize (T chord Hin).
  apply Z.leb_le in Hinv. rewrite Hinv in T. cbn [negb orb] in T.
  destruct (App.getChordNotes Piano chord) as [onPiano|]; [|discriminate].
  destruct (App.getChordNotes Guitar chord) as [onGuitar|]; [|discriminate].
  apply andb_true_iff in T as [TP TG]. rewrite forallb_forall in TP, TG.
  exists onPiano, onGuitar. split; [reflexivity|]. split; [|split; [reflexivity|split]].
  - intros n Hn. apply lit_key.
    split; [|exact Hn]. specialize (TP n Hn). lia.
  - rewrite positions_length. f_equal. apply filter_all.
    now apply forallb_forall.
  - intros n Hn. apply positions_complete; [exact Hn | now apply TG].
Qed.

Lemma table_chords_shown_witness :
  exists onPiano onGuitar,
    App.getChordNotes Piano
      {| App.root := "C"; App.quality := App.Major; App.inversion := 1;
         App.displayName := "C/E"; App.intervals := [4; 7; 12]%Z |}
    = Some onPiano
    /\ App.getChordNotes Guitar
         {| App.root := "C"; App.quality := App.Major; App.inversion := 1;
            App.displayName := "C/E"; App.intervals := [4; 7; 12]%Z |}
       = Some onGuitar
    /\ length (StringInstrument.positions Guitar onGuitar) = length onGuitar.
Proof.
  destruct (table_chords_shown
              {| App.root := "C"; App.quality := App.Major; App.inversion := 1;
                 App.displayName := "C/E"; App.intervals := [4; 7; 12]%Z |})
    as (onPiano & onGuitar & HP & _ & HG & HL & _).
  - vm_compute. right. left. reflexivity.
  - vm_compute. discriminate.
  - exists onPiano, onGuitar. repeat split; assumption.
Defined.

(** * Practice rounds *)

Section Pool.

Variable practiceFilter : App.PracticeFilter.
Variable showInversions : bool.

(** What the practice filter lets through. *)
Let wanted (chord : App.Chord) : Prop :=
  match practiceFilter with
  | App.All => True
  | App.Triads =>
      App.quality chord = App.Major \/ App.quality chord = App.Minor
  | App.Sevenths =>
      App.quality chord = App.Dominant7 \/ App.quality chord = App.Major7
      \/ App.quality chord = App.Minor7
  end.

Lemma pool_spec (chord : App.Chord) :
  In chord (App.pool practiceFilter showInversions)
  <-> In chord App.ALL_CHORDS_FLAT
      /\ wanted chord
      /\ (showInversions = false -> App.inversion chord = 0%Z).
Proof.
  unfold App.pool, wanted.
  destruct showInversions, practiceFilter;
    rewrite ?filter_In, ?Z.eqb_eq;
    destruct (App.quality chord); intuition congruence.
Qed.

Lemma pool_inhabited :
  (0 < length (App.pool practiceFilter showInversions))%nat.
Proof.
  apply Nat.ltb_lt.
  destruct practiceFilter, showInversions; vm_compute; reflexivity.
Qed.

Lemma floor_index (n : nat) (u : R) :
  (0 < n)%nat -> 0 <= u < 1 ->
  (0 <= Int_part (u * INR n) < Z.of_nat n)%Z.
Proof.
  intros Hn [H0 H1].
  assert (Pn : 0 < INR n) by (apply lt_0_INR; exact Hn).
  destruct (base_Int_part (u * INR n)) as [Hle Hgt].
  assert (Hlo : 0 <= u * INR n) by (apply Rmult_le_pos; lra).
  assert (Hhi : u * INR n < INR n) by nra.
  split.
  - assert (L : (-1 < Int_part (u * INR n))%Z) by (apply lt_IZR; lra). lia.
  - apply lt_IZR. rewrite <- INR_IZR_INZ. lra.
Qed.

Lemma floor_exact (i n : nat) :
  (i < n)%nat -> Int_part (INR i / INR n * INR n) = Z.of_nat i.
Proof.
  intros H. assert (Pn : 0 < INR n) by (apply lt_0_INR; lia).
  replace (INR i / INR n * INR n) with (INR i) by (field; lra).
  apply Int_part_INR.
Qed.

End Pool.

(** X8. The chord a practice round draws. Whatever the practice filter and
    the inversion setting, the pool is not empty, and for every result of
    [Math.random()] (from 0 up to, not including, 1) the chord drawn is
    defined: a chord of the table that passes the filter, in root position
    when inversions are switched off, whose notes [getChordNotes] can
    compute. Every chord of the pool is drawn for some result. *)
Theorem randomChord_drawn
    (practiceFilter : App.PracticeFilter) (showInversions : bool) (u : R) :
  0 <= u < 1 ->
  (exists chord,
     App.randomChord practiceFilter showInversions u = Some chord
     /\ In chord App.ALL_CHORDS_FLAT
     /\ match practiceFilter with
        | App.All => True
        | App.Triads =>
            App.quality chord = App.Major \/ App.quality chord = App.Minor
        | App.Sevenths =>
            App.quality chord = App.Dominant7 \/ App.quality chord = App.Major7
            \/ App.quality chord = App.Minor7
        end
     /\ (showInversions = false -> App.inversion chord = 0%Z)
     /\ forall instrument, exists notes,
          App.getChordNotes instrument chord = Some notes
          /\ length notes = length (App.intervals chord))
  /\ forall chord, In chord (App.pool practiceFilter showInversions) ->
       exists v, 0 <= v < 1
                 /\ App.randomChord practiceFilter showInversions v = Some chord.
Proof.
  intros Hu. pose proof (pool_inhabited practiceFilter showInversions) as Hn.
  split.
  - destruct (floor_index _ u Hn Hu) as [Hlo Hhi].
    unfold App.randomChord. cbv zeta.
    destruct (Z.ltb_spec (Int_part (u * INR (length (App.pool practiceFilter showInversions)))) 0)
      as [Hneg|_]; [lia|].
    destruct (nth_error (App.pool practiceFilter showInversions)
                (Z.to_nat (Int_part (u * INR (length (App.pool practiceFilter showInversions))))))
      as [chord|] eqn:E.
    + exists chord. split; [reflexivity|].
      apply nth_error_In in E. apply pool_spec in E as (Hin & Hw & Hi).
      split; [exact Hin|]. split; [exact Hw|]. split; [exact Hi|].
      intros instrument.
      assert (T : forallb
                    (fun c => match App.lookup (App.root c) App.ROOT_MIDI_MAP with
                              | Some _ => true
                              | None => false
                              end) App.ALL_CHORDS_FLAT = true)
        by (vm_compute; reflexivity).
      rewrite forallb_forall in T. specialize (T chord Hin).
      unfold App.getChordNotes.
      destruct (App.lookup (App.root chord) App.ROOT_MIDI_MAP); [|discriminate].
      eexists. split; [reflexivity|]. apply length_map.
    + apply nth_error_None in E. lia.
  - intros chord Hin. apply In_nth_error in Hin as [i Hi].
    assert (Hlt : (i < length (App.pool practiceFilter showInversions))%nat)
      by (apply nth_error_Some; congruence).
    exists (INR i / INR (length (App.pool practiceFilter showInversions))).
    assert (Pn : 0 < INR (length (App.pool practiceFilter showInversions)))
      by (apply lt_0_INR; lia).
    split.
    + split.
      * apply Rmult_le_pos; [apply pos_INR | left; now apply Rinv_0_lt_compat].
      * apply Rmult_lt_reg_r with (INR (length (App.pool practiceFilter showInversions)));
          [exact Pn|].
        unfold Rdiv. rewrite Rmult_assoc, Rinv_l, Rmult_1_r, Rmult_1_l by lra.
        now apply lt_INR.
    + unfold App.randomChord. cbv zeta. rewrite floor_exact by exact Hlt.
      destruct (Z.ltb_spec (Z.of_nat i) 0) as [Hneg|_]; [lia|].
      now rewrite Nat2Z.id.
Qed.

Lemma randomChord_drawn_witness :
  exists chord,
    App.randomChord App.Triads false (/ 2) = Some chord
    /\ In chord App.ALL_CHORDS_FLAT
    /\ App.inversion chord = 0%Z.
Proof.
  destruct (randomChord_drawn App.Triads false (/ 2)) as [(chord & E & Hin & _ & Hi & _) _].
  - lra.
  - exists chord. split; [exact E|]. split; [exact Hin | now apply Hi].
Defined.

(** * The practice session *)

Section Session.

Lemma randomChord_defined practiceFilter showInversions u :
  0 <= u < 1 ->
  exists chord,
    App.randomChord practiceFilter showInversions u = Some chord
    /\ In chord (App.pool practiceFilter showInversions).
Proof.
  intros Hu. pose proof (pool_inhabited practiceFilter showInversions) as Hn.
  destruct (floor_index _ u Hn Hu) as [Hlo Hhi].
  unfold App.randomChord. cbv zeta.
  destruct (Z.ltb_spec (Int_part (u * INR (length (App.pool practiceFilter showInversions)))) 0)
    as [Hneg|_]; [lia|].
  destruct (nth_error (App.pool practiceFilter showInversions)
              (Z.to_nat (Int_part (u * INR (length (App.pool practiceFilter showInversions))))))
    as [chord|] eqn:E.
  - exists chord. split; [reflexivity | now apply nth_error_In in E].
  - apply nth_error_None in E. lia.
Qed.

Lemma initial_sound saved : sound (App.initial saved).
Proof.
  unfold sound. cbn.
  repeat split; try discriminate; try lia.
Qed.

End Session.

Ltac run_app :=
  cbv [App.handle App.handleChordPress App.handlePracticeGuess
         App.handleChordRelease App.handleNoteStart App.handleNoteStop
         App.revealAnswer App.tick App.startPracticeRound App.togglePracticeMode
         App.handleReplay App.instrumentEffect App.timeoutEffect App.feedbackReset
         App.setInstrument App.setPianoTimbre App.setCurrentChord App.setActiveNotes
         App.setPracticeFilter App.setShowInversions App.setPractice
         App.setIsScoreMode App.setCurrentScore App.setHistory
         App.setFeedbackStatus App.setPressedChordName App.setAiTip
         App.setInterval App.clearInterval App.setTimeout App.call
         App.instrument App.pianoTimbre App.currentChord App.activeNotes
         App.practiceFilter App.showInversions App.practice App.isScoreMode
         App.currentScore App.history App.feedbackStatus App.pressedChordName
         App.aiTip App.interval App.timeouts App.audio
         App.isActive App.targetChord App.revealed App.timer App.timerSetting
         App.hasMadeMistake App.correct App.wrong App.startTime
         App.namesTarget App.falsy andb orb negb].


Ltac shape Hiv Hun Hrv Htc Hrun ia rv iv tc sm :=
  destruct ia, rv;
  [ destruct (Hrv eq_refl) as [_ ->];
    destruct iv as [b|];
    [ destruct (Hiv b eq_refl) as (_ & ? & _); discriminate |];
    destruct (Htc eq_refl) as (target & -> & Htarget)
  | rewrite (Hrun eq_refl eq_refl) in *;
    destruct (Htc eq_refl) as (target & -> & Htarget)
  | destruct (Hrv eq_refl) as [? _]; discriminate
  | destruct iv as [b|];
    [ destruct (Hiv b eq_refl) as (? & _); discriminate |] ];
  clear Hiv Hrv Htc Hrun;
  destruct sm;
  try (destruct (Hun eq_refl eq_refl) as [-> ->]);
  clear Hun.

Ltac branches :=
  repeat match goal with
  | |- context [match ?b with _ => _ end] => is_var b; destruct b
  | |- context [if ?c then _ else _] => destruct c eqn:?
  | |- context [match ?c with _ => _ end] => destruct c eqn:?
  end.

Ltac settle :=
  cbn; repeat split; intros;
  repeat match goal with
  | H : Some _ = Some _ |- _ => injection H as <-
  | H : (_ <=? _)%Z = true |- _ => apply Z.leb_le in H
  | H : (_ <=? _)%Z = false |- _ => apply Z.leb_gt in H
  end;
  try discriminate; try reflexivity; try lia; eauto.

Lemma handle_sound e s : drawn e -> sound s -> sound (App.handle e s).
Proof.
  intros He Hs.
  destruct s as [ins tim cur act pf si [ia tc rv tm ts mm] sm [co wr st]
                 hist fb pcn tip iv tmo au].
  unfold sound in Hs. cbn in Hs.
  destruct Hs as (Hiv & Hco & Hwr & Hun & Hrv & Htc & Hrun).
  shape Hiv Hun Hrv Htc Hrun ia rv iv tc sm.
  all: destruct e; cbn in He.
  all: try (destruct (randomChord_defined pf si u He) as (drawnChord & Edrawn & Hdrawn)).
  all: unfold sound; run_app.
  all: try rewrite Edrawn.
  all: branches.
  all: settle.
Qed.

Lemma run_sound events s :
  Forall drawn events -> sound s -> sound (App.run events s).
Proof.
  unfold App.run. revert s.
  induction events as [|e rest IH]; intros s Hd Hs; [exact Hs|].
  inversion Hd; subst. cbn [fold_left]. apply IH; [assumption|].
  now apply handle_sound.
Qed.

Lemma round_step e s0 s :
  withinRound e = true -> sound s -> inRound s0 s ->
  inRound s0 (App.handle e s).
Proof.
  intros He Hs Hr.
  destruct s0 as [ins0 tim0 cur0 act0 pf0 si0 [ia0 tc0 rv0 tm0 ts0 mm0] sm0
                  [co0 wr0 st0] hist0 fb0 pcn0 tip0 iv0 tmo0 au0].
  destruct s as [ins tim cur act pf si [ia tc rv tm ts mm] sm [co wr st]
                 hist fb pcn tip iv tmo au].
  unfold sound in Hs. cbn in Hs.
  destruct Hs as (Hiv & Hco & Hwr & Hun & Hrv & Htc & Hrun).
  unfold inRound, attempts in Hr. cbn in Hr.
  destruct Hr as (Ria & Rsm & Rtc & Ratt & Rco & Rwr).
  subst sm0 tc0.
  shape Hiv Hun Hrv Htc Hrun ia rv iv tc sm; try discriminate Ria.
  all: destruct mm; cbn [andb orb] in Ratt.
  all: destruct e; try discriminate He.
  all: unfold inRound, attempts; run_app.
  all: branches.
  all: settle.
Qed.

Lemma start_inRound start s :
  drawn start -> sound s -> startsRound start s = true ->
  inRound (App.handle start s) (App.handle start s)
  /\ App.revealed (App.practice (App.handle start s)) = false
  /\ App.hasMadeMistake (App.practice (App.handle start s)) = false
  /\ App.timer (App.practice (App.handle start s))
     = App.timerSetting (App.practice s)
  /\ App.timerSetting (App.practice (App.handle start s))
     = App.timerSetting (App.practice s)
  /\ App.interval (App.handle start s) = Some (App.isScoreMode s)
  /\ App.isScoreMode (App.handle start s) = App.isScoreMode s.
Proof.
  intros He Hs Hstart.
  destruct s as [ins tim cur act pf si [ia tc rv tm ts mm] sm [co wr st]
                 hist fb pcn tip iv tmo au].
  destruct start; try discriminate Hstart; cbn in He, Hstart.
  all: destruct (randomChord_defined pf si u He) as (drawnChord & Edrawn & Hdrawn).
  all: unfold inRound, attempts; run_app; rewrite Edrawn.
  all: destruct ia; try discriminate Hstart; destruct rv; try discriminate Hstart.
  all: destruct sm; cbn; repeat split; try reflexivity; try lia.
Qed.

Lemma run_round events s0 s :
  Forall (fun e => withinRound e = true) events ->
  sound s -> inRound s0 s ->
  sound (App.run events s) /\ inRound s0 (App.run events s).
Proof.
  unfold App.run. revert s.
  induction events as [|e rest IH]; intros s Hw Hs Hr; [now split|].
  inversion Hw; subst. cbn [fold_left]. apply IH; [assumption| |].
  - apply handle_sound; [|exact Hs]. now destruct e.
  - now apply round_step.
Qed.


Lemma start_score start s :
  startsRound start s = true ->
  App.currentScore (App.handle start s)
  = match start with
    | App.clickPractice now _ _ =>
        {| App.correct := 0; App.wrong := 0; App.startTime := now |}
    | _ => App.currentScore s
    end.
Proof.
  intros Hstart.
  destruct s as [ins tim cur act pf si [ia tc rv tm ts mm] sm [co wr st]
                 hist fb pcn tip iv tmo au].
  destruct start; try discriminate Hstart; cbn in Hstart.
  all: destruct ia; try discriminate Hstart; destruct rv; try discriminate Hstart.
  all: run_app; destruct (App.randomChord pf si u); reflexivity.
Qed.

Lemma tick_step s :
  sound s ->
  App.isActive (App.practice s) = true ->
  App.revealed (App.practice s) = false ->
  let s' := App.handle App.intervalFires s in
  ((App.timer (App.practice s) <= 1)%Z ->
     App.revealed (App.practice s') = true
     /\ App.timer (App.practice s') = 0%Z
     /\ App.feedbackStatus s' = App.Timeout
     /\ App.interval s' = None
     /\ App.correct (App.currentScore s') = App.correct (App.currentScore s)
     /\ App.wrong (App.currentScore s')
        = (App.wrong (App.currentScore s)
           + if App.isScoreMode s && negb (App.hasMadeMistake (App.practice s))
             then 1 else 0)%Z)
  /\ ((1 < App.timer (App.practice s))%Z ->
        App.revealed (App.practice s') = false
        /\ App.isActive (App.practice s') = true
        /\ App.timer (App.practice s') = (App.timer (App.practice s) - 1)%Z
        /\ App.currentScore s' = App.currentScore s
        /\ App.isScoreMode s' = App.isScoreMode s
        /\ App.hasMadeMistake (App.practice s')
           = App.hasMadeMistake (App.practice s)).
Proof.
  intros Hs Hia Hrv.
  destruct s as [ins tim cur act pf si [ia tc rv tm ts mm] sm [co wr st]
                 hist fb pcn tip iv tmo au].
  unfold sound in Hs. cbn in Hs, Hia, Hrv.
  destruct Hs as (_ & _ & _ & _ & _ & _ & Hrun).
  rewrite (Hrun Hia Hrv). subst ia rv. run_app.
  destruct (Z.leb_spec tm 1); destruct sm, mm; cbn;
    (split; [intros; repeat split; try reflexivity; lia
            | intros; repeat split; try reflexivity; lia]).
Qed.

Lemma stopped_interval k s :
  App.interval s = None -> App.run (repeat App.intervalFires k) s = s.
Proof.
  intros H. unfold App.run.
  induction k as [|k IH]; [reflexivity|].
  cbn [repeat fold_left]. cbn [App.handle]. unfold App.tick. now rewrite H.
Qed.

Lemma ticks k : forall s,
  sound s ->
  App.isActive (App.practice s) = true ->
  App.revealed (App.practice s) = false ->
  let s' := App.run (repeat App.intervalFires k) s in
  ((Z.of_nat k < Z.max (App.timer (App.practice s)) 1)%Z ->
     App.revealed (App.practice s') = false
     /\ App.timer (App.practice s')
        = (App.timer (App.practice s) - Z.of_nat k)%Z
     /\ App.currentScore s' = App.currentScore s)
  /\ ((Z.max (App.timer (App.practice s)) 1 <= Z.of_nat k)%Z ->
        App.revealed (App.practice s') = true
        /\ App.timer (App.practice s') = 0%Z
        /\ App.feedbackStatus s' = App.Timeout
        /\ App.interval s' = None
        /\ App.correct (App.currentScore s') = App.correct (App.currentScore s)
        /\ App.wrong (App.currentScore s')
           = (App.wrong (App.currentScore s)
              + if App.isScoreMode s && negb (App.hasMadeMistake (App.practice s))
                then 1 else 0)%Z).
Proof.
  induction k as [|k IH]; intros s Hs Hia Hrv.
  - cbn [repeat App.run fold_left]. split; [intros _|intros H; lia].
    split; [exact Hrv|]. split; [lia | reflexivity].
  - assert (Hs' : sound (App.handle App.intervalFires s))
      by (apply handle_sound; [exact I | exact Hs]).
    destruct (tick_step s Hs Hia Hrv) as [Hlast Hnext].
    change (App.run (repeat App.intervalFires (S k)) s)
      with (App.run (repeat App.intervalFires k) (App.handle App.intervalFires s)).
    destruct (Z.le_gt_cases (App.timer (App.practice s)) 1) as [Hle|Hgt].
    + destruct (Hlast Hle) as (R & T & F & V & C & W).
      cbv zeta. rewrite (stopped_interval k _ V).
      split; [intros H; lia|]. intros _. repeat split; assumption.
    + destruct (Hnext Hgt) as (R & A & T & C & M & Hm).
      specialize (IH _ Hs' A R). cbv zeta in IH. destruct IH as [IH1 IH2].
      rewrite T, C, M, Hm in *. split; intros H.
      * destruct IH1 as (R1 & T1 & C1); [lia|].
        split; [exact R1|]. split; [lia | exact C1].
      * apply IH2. lia.
Qed.

(** Every score of up to 200 attempts, computed: the accuracy saved is
    the real quotient rounded to the nearest whole number, except that a
    quotient half way between two whole numbers may be saved as the lower
    one, the double being just below it. *)
Lemma accuracy_checked (c t : Z) :
  (0 <= c <= t)%Z -> (0 < t <= 200)%Z ->
  (0 <= App.accuracyOf c t <= 100)%Z
  /\ (App.accuracyOf c t = ((200 * c + t) / (2 * t))%Z
      \/ (((200 * c + t) mod (2 * t))%Z = 0%Z
          /\ App.accuracyOf c t = ((200 * c + t) / (2 * t) - 1)%Z)).
Proof.
  intros Hc Ht.
  assert (T : forallb
                (fun t =>
                   forallb
                     (fun c =>
                        let a := App.accuracyOf c t in
                        ((0 <=? a) && (a <=? 100)
                         && ((a =? (200 * c + t) / (2 * t))
                             || (((200 * c + t) mod (2 * t) =? 0)
                                 && (a =? (200 * c + t) / (2 * t) - 1))))%Z)
                     (map Z.of_nat (seq 0 (S (Z.to_nat t)))))
                (map Z.of_nat (seq 1 200)) = true)
    by (vm_compute; reflexivity).
  rewrite forallb_forall in T. specialize (T t).
  assert (It : In t (map Z.of_nat (seq 1 200))).
  { apply in_map_iff. exists (Z.to_nat t). split; [lia|]. apply in_seq. lia. }
  specialize (T It). rewrite forallb_forall in T. specialize (T c).
  assert (Ic : In c (map Z.of_nat (seq 0 (S (Z.to_nat t))))).
  { apply in_map_iff. exists (Z.to_nat c). split; [lia|]. apply in_seq. lia. }
  specialize (T Ic). cbv zeta in T.
  apply andb_true_iff in T as [T E]. apply andb_true_iff in T as [L U].
  apply Z.leb_le in L, U. split; [lia|].
  apply orb_true_iff in E as [E|E].
  - left. now apply Z.eqb_eq.
  - right. apply andb_true_iff in E as [M E]. split; now apply Z.eqb_eq.
Qed.

(** 23 right of 40: the quotient is 57.5, the double 57.49999999999999. *)
Lemma accuracy_below_half : App.accuracyOf 23 40 = 57%Z.
Proof. vm_compute. reflexivity. Qed.

Lemma displayName_identifies c1 c2 :
  In c1 App.ALL_CHORDS_FLAT -> In c2 App.ALL_CHORDS_FLAT ->
  App.displayName c1 = App.displayName c2 -> c1 = c2.
Proof.
  assert (D : NoDup (map App.displayName App.ALL_CHORDS_FLAT)).
  { apply distinct_NoDup. vm_compute. reflexivity. }
  apply NoDup_map_injective; [|exact D]. exact (NoDup_of_map _ _ D).
Qed.

(** X9. What holds in every state the component reaches, whatever the user
    does and whenever the timers fire. The countdown interval is live
    exactly while practice is on and the answer is not shown, and its
    callback holds the current score mode; an answer is shown only while
    practice is on, with the timer at 0; while practice is on there is a
    target and it is a chord of the pool for the filter and inversion
    setting of that moment; the two counts are never negative, and they stay
    at 0 through a practice session that is not in score mode. *)
Theorem session_invariant (saved : list App.HistoryEntry) (events : list App.Event) :
  Forall drawn events ->
  let s := App.run events (App.initial saved) in
  let p := App.practice s in
  (forall scoreMode, App.interval s = Some scoreMode ->
     App.isActive p = true /\ App.revealed p = false
     /\ scoreMode = App.isScoreMode s)
  /\ (0 <= App.correct (App.currentScore s))%Z
  /\ (0 <= App.wrong (App.currentScore s))%Z
  /\ (App.isActive p = true -> App.isScoreMode s = false ->
      App.correct (App.currentScore s) = 0%Z
      /\ App.wrong (App.currentScore s) = 0%Z)
  /\ (App.revealed p = true -> App.isActive p = true /\ App.timer p = 0%Z)
  /\ (App.isActive p = true ->
      exists chord,
        App.targetChord p = Some chord
        /\ In chord (App.pool (App.practiceFilter s) (App.showInversions s)))
  /\ (App.isActive p = true -> App.revealed p = false ->
      App.interval s = Some (App.isScoreMode s)).
Proof.
  intros Hd. exact (run_sound events _ Hd (initial_sound saved)).
Qed.

Lemma session_invariant_witness :
  Forall drawn [App.clickScoreMode; App.clickPractice 5 5 (/ 2); App.intervalFires]
  /\ App.interval
       (App.run [App.clickScoreMode; App.clickPractice 5 5 (/ 2); App.intervalFires]
                (App.initial []))
     = Some true.
Proof.
  assert (D : Forall drawn
                [App.clickScoreMode; App.clickPractice 5 5 (/ 2); App.intervalFires]).
  { repeat constructor; cbn; lra. }
  split; [exact D|].
  destruct (session_invariant [] _ D) as (_ & _ & _ & _ & _ & _ & Hrun).
  destruct (randomChord_defined App.All false (/ 2)) as (chord & E & _); [lra|].
  cbv zeta in Hrun. revert Hrun.
  unfold App.run, App.initial. cbn [fold_left]. run_app. rewrite E.
  cbn. intros Hrun. now apply Hrun.
Defined.

(** X10. One round counts one attempt. From the start of a round (Start
    Practice, which also puts both counts back to 0, or Next Round, which
    keeps them) and through whatever happens before the next one starts or
    practice is stopped, the score mode and the target stay the same,
    neither count goes down, and in score mode the sum of the two counts
    is the sum at the start of the round plus one as soon as a mistake has
    been made or the answer is shown, whether by a right guess or by the
    timer; without score mode the counts do not move. *)
Theorem round_counts_once
    (saved : list App.HistoryEntry) (before : list App.Event)
    (start : App.Event) (events : list App.Event) :
  Forall drawn before ->
  drawn start ->
  startsRound start (App.run before (App.initial saved)) = true ->
  Forall (fun e => withinRound e = true) events ->
  let s0 := App.handle start (App.run before (App.initial saved)) in
  let s := App.run events s0 in
  App.currentScore s0
  = match start with
    | App.clickPractice now _ _ =>
        {| App.correct := 0; App.wrong := 0; App.startTime := now |}
    | _ => App.currentScore (App.run before (App.initial saved))
    end
  /\ App.isActive (App.practice s) = true
  /\ App.isScoreMode s = App.isScoreMode s0
  /\ App.targetChord (App.practice s) = App.targetChord (App.practice s0)
  /\ attempts s
     = (attempts s0
        + if App.isScoreMode s0
             && (App.hasMadeMistake (App.practice s)
                 || App.revealed (App.practice s))
          then 1 else 0)%Z
  /\ (App.correct (App.currentScore s0) <= App.correct (App.currentScore s))%Z
  /\ (App.wrong (App.currentScore s0) <= App.wrong (App.currentScore s))%Z.
Proof.
  intros Hb Hd Hstart Hw s0 s.
  pose proof (run_sound before _ Hb (initial_sound saved)) as Hs.
  split; [now apply start_score|].
  destruct (start_inRound start _ Hd Hs Hstart) as (Hr & _).
  assert (Hs0 : sound s0) by (now apply handle_sound).
  exact (proj2 (run_round events s0 s0 Hw Hs0 Hr)).
Qed.

Lemma round_counts_once_witness :
  let s0 := App.handle (App.clickPractice 5 5 (/ 2))
                       (App.run [App.clickScoreMode] (App.initial [])) in
  let s := App.run [App.intervalFires; App.releaseChord] s0 in
  attempts s
  = (attempts s0
     + if App.isScoreMode s0
          && (App.hasMadeMistake (App.practice s)
              || App.revealed (App.practice s))
       then 1 else 0)%Z.
Proof.
  intros s0 s.
  apply (round_counts_once [] [App.clickScoreMode] (App.clickPractice 5 5 (/ 2))
           [App.intervalFires; App.releaseChord]).
  - repeat constructor.
  - cbn. lra.
  - reflexivity.
  - repeat constructor.
Defined.

(** X11. The countdown. A round starts with the timer at the timer setting
    and the answer hidden. If only the interval fires, then before it has
    fired as many times as the setting says (once, for a setting below 1)
    the timer has gone down by one per firing, the answer is hidden and the
    counts are those of the start; from that firing on the answer is
    shown, the timer is 0, the feedback is the timeout, the interval is
    cleared, and in score mode the round has counted one wrong attempt
    and no right one. *)
Theorem countdown
    (saved : list App.HistoryEntry) (before : list App.Event)
    (start : App.Event) (k : nat) :
  Forall drawn before ->
  drawn start ->
  startsRound start (App.run before (App.initial saved)) = true ->
  let s0 := App.handle start (App.run before (App.initial saved)) in
  let n := App.timerSetting (App.practice (App.run before (App.initial saved))) in
  let s := App.run (repeat App.intervalFires k) s0 in
  App.timer (App.practice s0) = n
  /\ App.revealed (App.practice s0) = false
  /\ ((Z.of_nat k < Z.max n 1)%Z ->
        App.revealed (App.practice s) = false
        /\ App.timer (App.practice s) = (n - Z.of_nat k)%Z
        /\ App.currentScore s = App.currentScore s0)
  /\ ((Z.max n 1 <= Z.of_nat k)%Z ->
        App.revealed (App.practice s) = true
        /\ App.timer (App.practice s) = 0%Z
        /\ App.feedbackStatus s = App.Timeout
        /\ App.interval s = None
        /\ App.correct (App.currentScore s) = App.correct (App.currentScore s0)
        /\ App.wrong (App.currentScore s)
           = (App.wrong (App.currentScore s0)
              + if App.isScoreMode s0 then 1 else 0)%Z).
Proof.
  intros Hb Hd Hstart s0 n s.
  pose proof (run_sound before _ Hb (initial_sound saved)) as Hs.
  destruct (start_inRound start _ Hd Hs Hstart)
    as ((Hia & _) & Hrv & Hmm & Htm & _).
  assert (Hs0 : sound s0) by (now apply handle_sound).
  split; [exact Htm|]. split; [exact Hrv|].
  destruct (ticks k s0 Hs0 Hia Hrv) as [Hearly Hlate].
  fold s in Hearly, Hlate. fold s0 in Htm, Hmm.
  rewrite Htm in Hearly, Hlate. rewrite Hmm in Hlate.
  cbn [negb] in Hlate. rewrite andb_true_r in Hlate.
  split; assumption.
Qed.

Lemma countdown_witness :
  let s0 := App.handle (App.clickPractice 5 5 (/ 2)) (App.initial []) in
  App.timer (App.practice s0) = 10%Z
  /\ App.revealed (App.practice (App.run (repeat App.intervalFires 9) s0)) = false
  /\ App.revealed (App.practice (App.run (repeat App.intervalFires 10) s0)) = true.
Proof.
  intros s0.
  destruct (countdown [] [] (App.clickPractice 5 5 (/ 2)) 9)
    as (T & _ & Hearly & _); [constructor | cbn; lra | reflexivity |].
  destruct (countdown [] [] (App.clickPractice 5 5 (/ 2)) 10)
    as (_ & _ & _ & Hlate); [constructor | cbn; lra | reflexivity |].
  split; [exact T|]. split.
  - apply Hearly. cbn. lia.
  - apply Hlate. cbn. lia.
Defined.

(** X12. Stopping practice. Stop Practice switches practice off, clears the
    interval and the target and leaves the counts as they are. If no
    attempt was counted, which is always so outside score mode, the history
    is unchanged. Otherwise one entry is put in front of the history: it is
    a scored entry and its attempts are the sum of the two counts. For up
    to 200 attempts its accuracy, computed in doubles as the code does, is
    between 0 and 100, and it is the percentage of right attempts rounded
    to the nearest whole number (half way up), or one less where the
    percentage is exactly half way between two whole numbers, as at 23 of
    40, which is saved as 57. *)
Theorem stop_saves_entry
    (saved : list App.HistoryEntry) (before : list App.Event)
    (now later : Z) (u : R) :
  Forall drawn before ->
  let s := App.run before (App.initial saved) in
  App.isActive (App.practice s) = true ->
  let s' := App.handle (App.clickPractice now later u) s in
  App.isActive (App.practice s') = false
  /\ App.interval s' = None
  /\ App.targetChord (App.practice s') = None
  /\ App.currentScore s' = App.currentScore s
  /\ (App.isScoreMode s = false -> attempts s = 0%Z)
  /\ (attempts s = 0%Z -> App.history s' = App.history s)
  /\ ((0 < attempts s)%Z ->
        exists entry,
          App.history s' = entry :: App.history s
          /\ App.id entry = App.toString now
          /\ App.timestamp entry = App.startTime (App.currentScore s)
          /\ App.durationSeconds entry
             = ((later - App.startTime (App.currentScore s)) / 1000)%Z
          /\ App.mode entry = App.practiceFilter s
          /\ App.isScored entry = true
          /\ App.correctCount entry = App.correct (App.currentScore s)
          /\ App.totalAttempts entry = attempts s
          /\ App.accuracy entry
             = App.accuracyOf (App.correct (App.currentScore s)) (attempts s)
          /\ ((attempts s <= 200)%Z ->
                (0 <= App.accuracy entry <= 100)%Z
                /\ (App.accuracy entry
                    = ((200 * App.correct (App.currentScore s) + attempts s)
                       / (2 * attempts s))%Z
                    \/ (((200 * App.correct (App.currentScore s) + attempts s)
                         mod (2 * attempts s))%Z = 0%Z
                        /\ App.accuracy entry
                           = ((200 * App.correct (App.currentScore s) + attempts s)
                              / (2 * attempts s) - 1)%Z)))).
Proof.
  intros Hb s Hia s'.
  pose proof (run_sound before _ Hb (initial_sound saved)) as Hs.
  fold s in Hs. subst s'. revert Hs Hia. generalize s. clear s. intros s Hs Hia.
  destruct s as [ins tim cur act pf si [ia tc rv tm ts mm] sm [co wr st]
                 hist fb pcn tip iv tmo au].
  unfold sound in Hs. cbn in Hs, Hia.
  destruct Hs as (_ & Hco & Hwr & Hun & _). subst ia.
  unfold attempts. run_app.
  destruct (Z.ltb_spec 0 (co + wr)) as [Hpos|Hzero]; cbn.
  - repeat split; try lia.
    + intros ->. destruct (Hun eq_refl eq_refl). lia.
    + intros _. eexists. split; [reflexivity|].
      unfold App.newEntry.
      cbn [App.id App.timestamp App.durationSeconds App.mode App.isScored
           App.correctCount App.totalAttempts App.accuracy App.correct App.wrong
           App.startTime App.currentScore App.practiceFilter App.isScoreMode].
      split; [reflexivity|]. split; [reflexivity|]. split; [reflexivity|].
      split; [reflexivity|]. split.
      { destruct sm; [reflexivity|]. destruct (Hun eq_refl eq_refl). lia. }
      split; [reflexivity|]. split; [reflexivity|]. split; [reflexivity|].
      intros Hmax. apply accuracy_checked; lia.
  - repeat split; lia.
Qed.

Lemma stop_saves_entry_witness :
  let s := App.run [App.clickPractice 5 5 (/ 2)] (App.initial []) in
  App.isActive (App.practice (App.handle (App.clickPractice 9 9 0) s)) = false
  /\ App.history (App.handle (App.clickPractice 9 9 0) s) = App.history s.
Proof.
  intros s.
  destruct (stop_saves_entry [] [App.clickPractice 5 5 (/ 2)] 9 9 0)
    as (A & _ & _ & _ & Z0 & H & _).
  - repeat constructor; cbn; lra.
  - destruct (randomChord_defined App.All false (/ 2)) as (chord & E & _); [lra|].
    unfold App.run, App.initial. cbn [fold_left]. run_app. rewrite E. reflexivity.
  - split; [exact A|]. apply H. apply Z0.
    destruct (randomChord_defined App.All false (/ 2)) as (chord & E & _); [lra|].
    unfold App.run, App.initial. cbn [fold_left]. run_app. rewrite E. reflexivity.
Defined.

Section BestRecord.

(** [a] is no worse a record than [b]. *)
Let noWorse (a b : App.HistoryEntry) : Prop :=
  (App.accuracy b < App.accuracy a)%Z
  \/ (App.accuracy b = App.accuracy a
      /\ (App.totalAttempts b <= App.totalAttempts a)%Z).

Let better (a b : App.HistoryEntry) : Prop :=
  (App.accuracy b < App.accuracy a)%Z
  \/ (App.accuracy b = App.accuracy a
      /\ (App.totalAttempts b < App.totalAttempts a)%Z).

Lemma byAccuracy_spec a b :
  (App.byAccuracy a b <= 0)%Z <-> noWorse a b.
Proof.
  unfold App.byAccuracy, noWorse.
  destruct (Z.eqb_spec (App.accuracy b) (App.accuracy a)); cbn [negb]; lia.
Qed.

Lemma sorted_first (x : App.HistoryEntry) (rest : list App.HistoryEntry) :
  exists k best others,
    App.sort App.byAccuracy (x :: rest) = best :: others
    /\ nth_error (x :: rest) k = Some best
    /\ (forall e, In e (x :: rest) -> noWorse best e)
    /\ (forall j e, (j < k)%nat -> nth_error (x :: rest) j = Some e ->
          better best e).
Proof.
  revert x. induction rest as [|y rest IH]; intros x.
  - exists 0%nat, x, []. split; [reflexivity|]. split; [reflexivity|]. split.
    + intros e [<-|[]]. right. split; [reflexivity | lia].
    + intros j e Hj. lia.
  - destruct (IH y) as (k & best & others & Hsort & Hk & Hall & Hfirst).
    unfold App.sort in *. cbn [fold_right] in *. rewrite Hsort.
    cbn [App.insert].
    destruct (Z.leb_spec (App.byAccuracy x best) 0) as [Hle|Hgt].
    + exists 0%nat, x, (best :: others).
      split; [reflexivity|]. split; [reflexivity|]. split.
      * apply byAccuracy_spec in Hle.
        intros e [<-|He]; [right; split; [reflexivity | lia]|].
        specialize (Hall e He). unfold noWorse in *. lia.
      * intros j e Hj. lia.
    + exists (S k), best, (App.insert App.byAccuracy x others).
      split; [reflexivity|]. split; [exact Hk|].
      assert (Hx : better best x).
      { unfold better. unfold App.byAccuracy in Hgt.
        destruct (Z.eqb_spec (App.accuracy best) (App.accuracy x));
          cbn [negb] in Hgt; lia. }
      split.
      * intros e [<-|He]; [unfold noWorse, better in *; lia | now apply Hall].
      * intros [|j] e Hj Hn; cbn [nth_error] in Hn.
        -- injection Hn as <-. exact Hx.
        -- apply (Hfirst j e); [lia | exact Hn].
Qed.

End BestRecord.

(** X13. The best record. With no history there is none. Otherwise it is
    the id of an entry of the history that no entry beats: none has a
    higher accuracy, and none with the same accuracy has more attempts;
    and it is the first such entry of the history, every entry before it
    being strictly worse. *)
Theorem bestRecordId_best (history : list App.HistoryEntry) :
  match App.bestRecordId history with
  | None => history = []
  | Some bestId =>
      exists k best,
        nth_error history k = Some best
        /\ App.id best = bestId
        /\ (forall e, In e history ->
              (App.accuracy e < App.accuracy best)%Z
              \/ (App.accuracy e = App.accuracy best
                  /\ (App.totalAttempts e <= App.totalAttempts best)%Z))
        /\ (forall j e, (j < k)%nat -> nth_error history j = Some e ->
              (App.accuracy e < App.accuracy best)%Z
              \/ (App.accuracy e = App.accuracy best
                  /\ (App.totalAttempts e < App.totalAttempts best)%Z))
  end.
Proof.
  destruct history as [|x rest]; [reflexivity|].
  destruct (sorted_first x rest) as (k & best & others & Hsort & Hk & Hall & Hfirst).
  unfold App.bestRecordId. rewrite Hsort.
  exists k, best. split; [exact Hk|]. split; [reflexivity|].
  split; [exact Hall | exact Hfirst].
Qed.

(** X14. A round can always be answered. While a round waits for an
    answer, its target has a button among those on display. Pressing that
    button shows the answer with the feedback for a right guess, clears
    the interval, shows the target's notes, and in score mode counts a
    right attempt unless a mistake came first. Pressing the button of any
    other chord of the table gives the feedback for a wrong guess and
    leaves the round open with the same target and the countdown running;
    in score mode the first such press counts a wrong attempt and marks the
    round as mistaken. *)
Theorem target_can_be_answered
    (saved : list App.HistoryEntry) (before : list App.Event) :
  Forall drawn before ->
  let s := App.run before (App.initial saved) in
  App.isActive (App.practice s) = true ->
  App.revealed (App.practice s) = false ->
  exists target group,
    App.targetChord (App.practice s) = Some target
    /\ In group App.CHORD_GROUPS
    /\ In target (App.chordsToDisplay (App.showInversions s) (snd group))
    /\ (let s' := App.handle (App.pressChord target) s in
        App.revealed (App.practice s') = true
        /\ App.feedbackStatus s' = App.Correct
        /\ App.interval s' = None
        /\ App.currentChord s' = Some target
        /\ App.activeNotes s' = App.getChordNotes (App.instrument s) target
        /\ App.correct (App.currentScore s')
           = (App.correct (App.currentScore s)
              + if App.isScoreMode s && negb (App.hasMadeMistake (App.practice s))
                then 1 else 0)%Z
        /\ App.wrong (App.currentScore s') = App.wrong (App.currentScore s))
    /\ (forall chord, In chord App.ALL_CHORDS_FLAT -> chord <> target ->
          let s' := App.handle (App.pressChord chord) s in
          App.revealed (App.practice s') = false
          /\ App.feedbackStatus s' = App.Wrong
          /\ App.interval s' = App.interval s
          /\ App.targetChord (App.practice s') = Some target
          /\ App.hasMadeMistake (App.practice s')
             = (App.hasMadeMistake (App.practice s) || App.isScoreMode s)
          /\ App.correct (App.currentScore s') = App.correct (App.currentScore s)
          /\ App.wrong (App.currentScore s')
             = (App.wrong (App.currentScore s)
                + if App.isScoreMode s && negb (App.hasMadeMistake (App.practice s))
                  then 1 else 0)%Z).
Proof.
  intros Hb s.
  pose proof (run_sound before _ Hb (initial_sound saved)) as Hs.
  fold s in Hs. revert Hs. generalize s. clear s. intros s Hs Hia Hrv.
  destruct s as [ins tim cur act pf si [ia tc rv tm ts mm] sm [co wr st]
                 hist fb pcn tip iv tmo au].
  unfold sound in Hs. cbn in Hs, Hia, Hrv.
  destruct Hs as (_ & _ & _ & _ & _ & Htc & _). subst ia rv.
  destruct (Htc eq_refl) as (target & -> & Hpool).
  apply pool_spec in Hpool as (Hin & _ & Hinv).
  pose proof Hin as Hgroup. unfold App.ALL_CHORDS_FLAT in Hgroup.
  apply in_flat_map in Hgroup as (group & Hgroup & Htarget).
  exists target, group. split; [reflexivity|]. split; [exact Hgroup|]. split.
  { unfold App.chordsToDisplay. apply filter_In. split; [exact Htarget|].
    cbn. destruct si; [reflexivity|]. apply Z.eqb_eq. now apply Hinv. }
  split.
  - run_app. rewrite String.eqb_refl. destruct sm, mm; cbn; repeat split; lia.
  - intros chord Hchord Hne. run_app.
    destruct (String.eqb_spec (App.displayName chord) (App.displayName target))
      as [E|_].
    + elim Hne. now apply displayName_identifies.
    + destruct sm, mm; cbn; repeat split; lia.
Qed.

Lemma target_can_be_answered_witness :
  exists target,
    App.targetChord
      (App.practice (App.run [App.clickPractice 5 5 (/ 2)] (App.initial [])))
    = Some target
    /\ App.feedbackStatus
         (App.handle (App.pressChord target)
                     (App.run [App.clickPractice 5 5 (/ 2)] (App.initial [])))
       = App.Correct.
Proof.
  destruct (randomChord_defined App.All false (/ 2)) as (chord & E & _); [lra|].
  destruct (target_can_be_answered [] [App.clickPractice 5 5 (/ 2)])
    as (target & group & Ht & _ & _ & (_ & F & _) & _).
  - repeat constructor; cbn; lra.
  - unfold App.run, App.initial. cbn [fold_left]. run_app. rewrite E. reflexivity.
  - unfold App.run, App.initial. cbn [fold_left]. run_app. rewrite E. reflexivity.
  - exists target. split; [exact Ht | exact F].
Defined.

(** * Schedules *)

Section Schedule.

Ltac scheduled :=
  repeat (apply Forall_cons;
          [cbn [scheduledFrom]; first [exact I | lra | split; lra]|]);
  apply Forall_nil.

Lemma since_app (before added : list Call) : since before (before ++ added) = added.
Proof.
  unfold since. induction before as [|c rest IH]; [reflexivity | exact IH].
Qed.

Lemma oscillatorsCreated_app a b :
  oscillatorsCreated (a ++ b) = oscillatorsCreated a ++ oscillatorsCreated b.
Proof.
  induction a as [|c rest IH]; [reflexivity|].
  destruct c; cbn [app oscillatorsCreated]; now rewrite IH.
Qed.

Lemma starts_app a b : starts (a ++ b) = starts a ++ starts b.
Proof.
  induction a as [|c rest IH]; [reflexivity|].
  destruct c; cbn [app starts]; now rewrite IH.
Qed.

Lemma stops_app a b : stops (a ++ b) = stops a ++ stops b.
Proof.
  induction a as [|c rest IH]; [reflexivity|].
  destruct c; cbn [app stops]; now rewrite IH.
Qed.

Lemma stagger_legacy instrument index : 0 <= Legacy.stagger instrument index.
Proof.
  pose proof (pos_INR index). unfold Legacy.stagger. destruct instrument; lra.
Qed.

Lemma stagger_engine instrument index : 0 <= Engine.stagger instrument index.
Proof.
  pose proof (pos_INR index). unfold Engine.stagger. destruct instrument; lra.
Qed.

Lemma releases_scheduled nodes t :
  Forall (scheduledFrom t) (flat_map (fun h => releaseCalls (release h) t) nodes).
Proof.
  induction nodes as [|h hs IH]; [constructor|].
  cbn [flat_map]. apply Forall_app. split; [|exact IH].
  destruct (release h) as [|g oscs]; [constructor|].
  cbn [releaseCalls]. apply Forall_app. split; [scheduled|].
  induction oscs as [|o oscs IHo]; cbn [map]; constructor; [cbn; lra | exact IHo].
Qed.

Lemma releases_plain nodes t :
  oscillatorsCreated (flat_map (fun h => releaseCalls (release h) t) nodes) = []
  /\ starts (flat_map (fun h => releaseCalls (release h) t) nodes) = [].
Proof.
  induction nodes as [|h hs [IH1 IH2]]; [now split|].
  cbn [flat_map]. rewrite oscillatorsCreated_app, starts_app, IH1, IH2.
  destruct (release h) as [|g oscs]; [now split|].
  cbn [releaseCalls app oscillatorsCreated starts].
  induction oscs as [|o oscs [I1 I2]]; [now split|].
  cbn [map oscillatorsCreated starts]. now split.
Qed.

Lemma legacy_voice_scheduled master instrument timbre freq startTime u base now :
  0 < freq -> now <= startTime ->
  Forall (scheduledFrom now)
         (effects (Legacy.voice master freq startTime instrument timbre u) base).
Proof.
  intros Hf Ht. destruct instrument, timbre; run_audio; scheduled.
Qed.

Lemma legacy_forEach_scheduled master now instrument timbre us midiNotes :
  forall index base,
    Forall (scheduledFrom now)
           (effects (Legacy.forEach master now instrument timbre us midiNotes index)
                    base).
Proof.
  induction midiNotes as [|note rest IH]; intros index base; [constructor|].
  cbn [Legacy.forEach].
  destruct (collect_run
              (Legacy.voice master (midiToFreq note)
                 (now + Legacy.stagger instrument index) instrument timbre (us index))
              (Legacy.forEach master now instrument timbre us rest (S index)) base)
    as (_ & Ee & _);
    [apply legacy_uniform_voice | apply legacy_uniform_forEach |].
  cbv zeta in Ee. rewrite Ee. apply Forall_app. split; [|apply IH].
  apply legacy_voice_scheduled; [apply midiToFreq_positive|].
  pose proof (stagger_legacy instrument index). lra.
Qed.

Lemma legacy_init_plain p e k t :
  Legacy.ctx (Legacy.init p e) = Some k ->
  exists more,
    calls k = legacyCalls e ++ more
    /\ Forall (scheduledFrom t) more
    /\ oscillatorsCreated more = []
    /\ starts more = [].
Proof.
  unfold Legacy.init, legacyCalls.
  destruct (Legacy.ctx e) as [k0|] eqn:Hk.
  - cbn [Legacy.ctx]. rewrite Hk. destruct (state k0).
    + cbn [Legacy.ctx]. intros [= <-]. exists [Resume].
      split; [reflexivity|]. split; [scheduled | now split].
    + rewrite Hk. intros [= <-]. exists [].
      split; [now rewrite app_nil_r|]. split; [constructor | now split].
  - run_audio. cbn [Legacy.ctx newAudioContext state calls].
    destruct (hwState p); cbn; intros [= <-]; eexists; (split; [reflexivity|]);
      (split; [scheduled | now split]).
Qed.

Lemma legacy_voice_oscillators master instrument timbre freq startTime u base t :
  instrument <> Violin ->
  let v := Legacy.voice master freq startTime instrument timbre u in
  starts (effects v base)
  = map (fun o => (o, startTime)) (oscillatorsCreated (effects v base))
  /\ stops (flat_map (fun h => releaseCalls (release h) t) (result v base))
     = map (fun o => (o, t + 0.35)) (oscillatorsCreated (effects v base)).
Proof.
  intros Hv. destruct instrument, timbre; try (now elim Hv); run_audio;
    cbn [flat_map releaseCalls release app map stops starts oscillatorsCreated];
    split; reflexivity.
Qed.

Lemma legacy_forEach_oscillators master now instrument timbre us midiNotes t :
  instrument <> Violin ->
  forall index base,
    let m := Legacy.forEach master now instrument timbre us midiNotes index in
    map fst (starts (effects m base)) = oscillatorsCreated (effects m base)
    /\ stops (flat_map (fun h => releaseCalls (release h) t) (result m base))
       = map (fun o => (o, t + 0.35)) (oscillatorsCreated (effects m base)).
Proof.
  intros Hv. induction midiNotes as [|note rest IH]; intros index base;
    [now split|].
  cbn [Legacy.forEach].
  destruct (collect_run
              (Legacy.voice master (midiToFreq note)
                 (now + Legacy.stagger instrument index) instrument timbre (us index))
              (Legacy.forEach master now instrument timbre us rest (S index)) base)
    as (Er & Ee & _);
    [apply legacy_uniform_voice | apply legacy_uniform_forEach |].
  cbv zeta in Er, Ee. cbv zeta. rewrite Er, Ee.
  destruct (legacy_voice_oscillators master instrument timbre (midiToFreq note)
              (now + Legacy.stagger instrument index) (us index) base t Hv)
    as [V1 V2].
  cbv zeta in V1, V2.
  destruct (IH (S index)
              (next (Legacy.voice master (midiToFreq note)
                       (now + Legacy.stagger instrument index) instrument timbre
                       (us index)) base)) as [I1 I2].
  cbv zeta in I1, I2.
  rewrite starts_app, oscillatorsCreated_app, flat_map_app, stops_app, !map_app.
  rewrite V1, V2, I1, I2, map_map. cbn [fst]. now rewrite map_id.
Qed.

End Schedule.

(** X15. The older engine keeps to the clock. On a well-formed engine,
    every call [startChord] adds to the trace (initialization, the release
    of the chord before, the voices of the new chord) is scheduled at or
    after the audio clock's time of the call, and every exponential ramp
    goes to a positive value; the same holds of the calls [stopChord]
    adds. *)
Theorem legacy_calls_scheduled (p : Platform) (us : nat -> R)
    (midiNotes : list Z) (instrument : InstrumentType) (timbre : PianoTimbre)
    (e : Legacy.AudioEngine) :
  legacyWellFormed e ->
  let started := Legacy.startChord p us midiNotes instrument timbre e in
  (exists added,
     legacyCalls started = legacyCalls e ++ added
     /\ Forall (scheduledFrom (legacyNow started)) added)
  /\ forall seconds,
       let later := legacyLater seconds started in
       exists added,
         legacyCalls (Legacy.stopChord later) = legacyCalls started ++ added
         /\ legacyNow (Legacy.stopChord later) = legacyNow later
         /\ Forall (scheduledFrom (legacyNow later)) added.
Proof.
  intros W started. split.
  - destruct (legacy_startChord_run p us midiNotes instrument timbre e W)
      as (k & m & Hk & _ & _ & _ & _ & E).
    cbv zeta in E. subst started. rewrite E.
    unfold legacyCalls at 1, legacyNow. cbn [Legacy.ctx calls currentTime].
    destruct (legacy_init_plain p e k (currentTime k) Hk) as (more & Hc & Hs & _).
    rewrite Hc, <- app_assoc. eexists. split; [reflexivity|].
    apply Forall_app. split; [exact Hs|]. apply Forall_app. split.
    + apply releases_scheduled.
    + apply legacy_forEach_scheduled.
  - intros seconds later.
    assert (Hc : legacyCalls later = legacyCalls started).
    { unfold later, legacyLater, legacyCalls. cbn [Legacy.ctx].
      destruct (Legacy.ctx started) as [k|]; [|reflexivity].
      cbn [option_map]. unfold tick. now destruct (state k). }
    rewrite legacy_stopChord_calls, Hc. eexists. split; [reflexivity|]. split.
    + unfold legacyNow, Legacy.stopChord.
      destruct (Legacy.ctx later) as [k|] eqn:Hk; [|now rewrite Hk].
      destruct (Legacy.activeNodes later); [now rewrite Hk|].
      cbn [Legacy.ctx]. now rewrite releaseEach_exec.
    + destruct (Legacy.ctx later); [apply releases_scheduled | constructor].
Qed.

Lemma legacy_calls_scheduled_witness :
  exists added,
    legacyCalls (Legacy.startChord browser halves [60; 64; 67]%Z Guitar Grand
                   Legacy.audioEngine)
    = legacyCalls Legacy.audioEngine ++ added
    /\ Forall (scheduledFrom
                 (legacyNow (Legacy.startChord browser halves [60; 64; 67]%Z Guitar
                               Grand Legacy.audioEngine))) added.
Proof.
  exact (proj1 (legacy_calls_scheduled browser halves [60; 64; 67]%Z Guitar Grand
                  Legacy.audioEngine legacy_audioEngine_wellFormed)).
Defined.

(** X16. No oscillator is left sounding on the piano and the guitar of the
    older engine. On a well-formed engine, for an instrument other than
    the violin, every oscillator [startChord] creates is started, once;
    and a [stopChord] any time later stops just those oscillators, each
    0.35 s after the audio clock's time of that call. *)
Theorem legacy_oscillators_stopped (p : Platform) (us : nat -> R)
    (midiNotes : list Z) (instrument : InstrumentType) (timbre : PianoTimbre)
    (e : Legacy.AudioEngine) (seconds : R) :
  legacyWellFormed e ->
  instrument <> Violin ->
  let started := Legacy.startChord p us midiNotes instrument timbre e in
  let later := legacyLater seconds started in
  let stopped := Legacy.stopChord later in
  let created :=
    oscillatorsCreated (since (legacyCalls e) (legacyCalls started)) in
  length created = length midiNotes
  /\ map fst (starts (since (legacyCalls e) (legacyCalls started))) = created
  /\ stops (since (legacyCalls started) (legacyCalls stopped))
     = map (fun o => (o, legacyNow later + 0.35)) created
  /\ Legacy.activeNodes stopped = [].
Proof.
  intros W Hv started later stopped created.
  destruct (legacy_startChord_run p us midiNotes instrument timbre e W)
    as (k & m & Hk & _ & _ & _ & _ & E).
  cbv zeta in E.
  destruct (legacy_init_plain p e k 0 Hk) as (more & Hc & _ & Ho & Hs).
  set (build := Legacy.forEach m (currentTime k) instrument timbre us midiNotes 0) in *.
  assert (Hstarted : legacyCalls started
                     = legacyCalls e
                       ++ (more
                           ++ flat_map (fun h => releaseCalls (release h) (currentTime k))
                                       (Legacy.activeNodes e)
                           ++ effects build (fresh k))).
  { subst started. rewrite E. unfold legacyCalls at 1. cbn [Legacy.ctx calls].
    now rewrite Hc, <- app_assoc. }
  assert (Hnodes : Legacy.activeNodes later = result build (fresh k)).
  { subst later started. rewrite E. reflexivity. }
  assert (Hcalls : legacyCalls later = legacyCalls started).
  { unfold later, legacyLater, legacyCalls. cbn [Legacy.ctx].
    destruct (Legacy.ctx started) as [k1|]; [|reflexivity].
    cbn [option_map]. unfold tick. now destruct (state k1). }
  assert (Hctx : exists k1, Legacy.ctx later = Some k1).
  { subst later started. rewrite E. cbn. eexists. reflexivity. }
  destruct (releases_plain (Legacy.activeNodes e) (currentTime k)) as [Ro Rs].
  destruct (legacy_forEach_oscillators m (currentTime k) instrument timbre us
              midiNotes (legacyNow later) Hv 0%nat (fresh k)) as [F1 F2].
  cbv zeta in F1, F2. fold build in F1, F2.
  assert (Hcreated : created = oscillatorsCreated (effects build (fresh k))).
  { subst created. rewrite Hstarted, since_app, !oscillatorsCreated_app, Ho, Ro.
    reflexivity. }
  split; [|split; [|split]].
  - rewrite Hcreated, <- F1, length_map.
    destruct (legacy_forEach_run m (currentTime k) instrument timbre us midiNotes 0
                (fresh k)) as (_ & S & _). cbv zeta in S. fold build in S.
    assert (L : length (starts (effects build (fresh k)))
                = length (startTimes (effects build (fresh k)))).
    { generalize (effects build (fresh k)). intros cs.
      induction cs as [|c cs IH]; [reflexivity|]. destruct c; cbn; auto. }
    rewrite L, S. clear -Hv.
    generalize 0%nat. induction midiNotes as [|n rest IH]; intros i; [reflexivity|].
    cbn [length seq flat_map]. rewrite length_app, IH, repeat_length.
    destruct instrument; try reflexivity. now elim Hv.
  - rewrite Hcreated, Hstarted, since_app, !starts_app, Hs, Rs. exact F1.
  - subst stopped. rewrite legacy_stopChord_calls, Hcalls, since_app.
    destruct Hctx as [k1 Hk1]. rewrite Hk1, Hnodes, Hcreated. exact F2.
  - subst stopped. destruct Hctx as [k1 Hk1].
    now rewrite (legacy_stopChord_drain later k1 Hk1).
Qed.

Lemma legacy_oscillators_stopped_witness :
  length
    (oscillatorsCreated
       (since (legacyCalls Legacy.audioEngine)
              (legacyCalls (Legacy.startChord browser halves [60; 64; 67]%Z Piano
                              HonkyTonk Legacy.audioEngine))))
  = 3%nat.
Proof.
  refine (proj1 (legacy_oscillators_stopped browser halves [60; 64; 67]%Z Piano
                   HonkyTonk Legacy.audioEngine 1
                   legacy_audioEngine_wellFormed _)).
  discriminate.
Defined.

Section EngineSchedule.

Lemma engine_voice_scheduled master instrument timbre freq startTime base now :
  0 < freq -> now <= startTime ->
  let v := Engine.voice master freq startTime instrument timbre in
  Forall (scheduledFrom now) (effects v base)
  /\ Permutation (map fst (starts (effects v base)))
                 (oscillatorsCreated (effects v base))
  /\ length (oscillatorsCreated (effects v base))
     = engineOscillators instrument timbre
  /\ stops (effects v base) = [].
Proof.
  intros Hf Ht. destruct instrument, timbre; run_audio;
    cbn [map fst starts stops oscillatorsCreated length engineOscillators].
  all: split;
    [ repeat (apply Forall_cons;
              [cbn [scheduledFrom]; first [exact I | lra | split; lra]|]);
      apply Forall_nil |].
  all: split; [|split; reflexivity].
  all: first [ apply Permutation_refl
             | apply perm_swap
             | eapply perm_trans; [apply perm_swap | apply perm_skip; apply perm_swap] ].
Qed.

End EngineSchedule.

(** X17. In [audioEngine.ts] the oscillators of a note are all handed to
    its cleanup. For every instrument and timbre, [noteOscillators] is
    the list of the oscillators the synthesis of the note creates, in the
    order of their creation and without repetition, the vibrato and
    tremolo oscillators included; each of them is started once, at the
    note's start time, and none is stopped while the note is built. *)
Theorem engine_noteOscillators (voiceGain : NodeId) (freq startTime : R)
    (instrument : InstrumentType) (timbre : PianoTimbre) (base : NodeId) :
  let m := Engine.synthesis voiceGain freq startTime instrument timbre in
  result m base = oscillatorsCreated (effects m base)
  /\ NoDup (result m base)
  /\ length (result m base) = engineOscillators instrument timbre
  /\ Permutation (starts (effects m base))
                 (map (fun o => (o, startTime)) (result m base))
  /\ stops (effects m base) = [].
Proof.
  destruct instrument, timbre; run_audio;
    cbn [map fst starts stops oscillatorsCreated length engineOscillators].
  all: split; [reflexivity|].
  all: split; [repeat (apply NoDup_cons; [cbn [In]; lia|]); apply NoDup_nil|].
  all: split; [reflexivity|].
  all: split; [|reflexivity].
  all: first [ apply Permutation_refl
             | apply perm_swap
             | eapply perm_trans; [apply perm_swap | apply perm_skip; apply perm_swap] ].
Qed.

(** X18. The notes of a chord in [audioEngine.ts] keep to the clock. Every
    call the [forEach] loop of [startChord] makes is scheduled at or after
    [now], and every exponential ramp goes to a positive value; the loop
    creates as many oscillators per note as the instrument and timbre ask
    for (3 for the grand and the electric piano, 2 for the honky-tonk piano
    and the violin, 1 for the guitar), starts each of them once and stops
    none. *)
Theorem engine_notes_scheduled (master : NodeId) (now : R)
    (instrument : InstrumentType) (timbre : PianoTimbre)
    (midiNotes : list Z) (index : nat) (base : NodeId) :
  let m := Engine.forEach master now instrument timbre midiNotes index in
  Forall (scheduledFrom now) (effects m base)
  /\ Permutation (map fst (starts (effects m base)))
                 (oscillatorsCreated (effects m base))
  /\ length (oscillatorsCreated (effects m base))
     = (engineOscillators instrument timbre * length midiNotes)%nat
  /\ stops (effects m base) = [].
Proof.
  revert index base.
  induction midiNotes as [|note rest IH]; intros index base.
  - cbn. repeat split; try constructor. lia.
  - cbn [Engine.forEach].
    destruct (collect_run
                (Engine.voice master (midiToFreq note)
                   (now + Engine.stagger instrument index) instrument timbre)
                (Engine.forEach master now instrument timbre rest (S index)) base)
      as (_ & Ee & _);
      [apply engine_uniform_voice | apply engine_uniform_forEach |].
    cbv zeta in Ee. cbv zeta. rewrite Ee.
    destruct (engine_voice_scheduled master instrument timbre (midiToFreq note)
                (now + Engine.stagger instrument index) base now)
      as (V1 & V2 & V3 & V4);
      [apply midiToFreq_positive
      | pose proof (stagger_engine instrument index); lra |].
    destruct (IH (S index)
                (next (Engine.voice master (midiToFreq note)
                         (now + Engine.stagger instrument index) instrument timbre)
                      base)) as (I1 & I2 & I3 & I4).
    cbv zeta in V1, V2, V3, V4, I1, I2, I3, I4.
    rewrite starts_app, stops_app, oscillatorsCreated_app, map_app, length_app.
    rewrite V3, V4, I3, I4. cbn [length].
    split; [apply Forall_app; now split|].
    split; [now apply Permutation_app|].
    split; [lia | reflexivity].
Qed.
